(** * part-theme: the ::part / ::theme emulation of [src/lib/part-theme.js]

    A shallow embedding of the library and the properties of its
    resolution engine, attribute parsers, selector pre-filter, rule
    transformer and part-data cache.

    Conventions of the embedding.
    - A JavaScript string is a [string]: a sequence of code units below
      256.  White space ([\s], [trim]) is the set of the language restricted
      to these code units.
    - A plain JavaScript object used as a dictionary is the list of its own
      properties in enumeration order ([jsobj]).  The object a declaration
      block is read into is filled by [put], which orders array indices
      before the other keys and ignores the key [__proto__], as the
      language does.  The resolved maps are filled by [set] and read by
      [get]; there keys are assumed not to be array indices and not to be
      names inherited from [Object.prototype], so that enumeration order is
      insertion order and a lookup sees own keys only.
    - Regular expressions are kept as syntax trees and run by a
      backtracking matcher written in continuation-passing style, the way
      the language definition describes them.
    - Style elements are listed under the root they lie under
      ([element.shadowRoot || element]), one list for each element: style
      elements under the roots of different elements are taken to be
      different elements, which leaves out a style element below an element
      without a shadow root, since that style element lies under the root
      of the container as well.
    - The DOM is a static environment ([Dom]); what the library mutates
      (style text, the two hidden fields on elements, the id counter) is the
      [World], threaded through a state-and-fault monad. *)

From stdpp Require Import gmap strings list pretty.
From Stdlib Require Import Ascii String Lia.

Open Scope string_scope.
Open Scope list_scope.

(* ================================================================== *)
(** * JavaScript strings *)
(* ================================================================== *)

Module JsString.

(** [\s] and the characters removed by [trim], below code unit 256. *)
Definition isSpace (c : ascii) : bool :=
  let n := nat_of_ascii c in
  Nat.eqb n 9 || Nat.eqb n 10 || Nat.eqb n 11 || Nat.eqb n 12 || Nat.eqb n 13
  || Nat.eqb n 32 || Nat.eqb n 160.

(** Line terminators: the characters [.] does not match. *)
Definition isLineTerminator (c : ascii) : bool :=
  let n := nat_of_ascii c in Nat.eqb n 10 || Nat.eqb n 13.

Definition ascii_eqb (a b : ascii) : bool := Ascii.eqb a b.

Fixpoint takeN (n : nat) (s : string) : string :=
  match n, s with
  | S n', String c s' => String c (takeN n' s')
  | _, _ => ""
  end.

Fixpoint reverse_onto (s acc : string) : string :=
  match s with
  | "" => acc
  | String c s' => reverse_onto s' (String c acc)
  end.

Definition reverse (s : string) : string := reverse_onto s "".

(** The longest prefix of characters of a class, and what follows it. *)
Fixpoint takeWhile (P : ascii -> bool) (s : string) : string :=
  match s with
  | String c s' => if P c then String c (takeWhile P s') else ""
  | "" => ""
  end.

Fixpoint dropWhile (P : ascii -> bool) (s : string) : string :=
  match s with
  | String c s' => if P c then dropWhile P s' else s
  | "" => ""
  end.

Definition trimStart (s : string) : string := dropWhile isSpace s.

(** The first character is of the class. *)
Definition startsWith (P : ascii -> bool) (s : string) : bool :=
  match s with
  | String c _ => P c
  | "" => false
  end.

Definition notSpace (c : ascii) : bool := negb (isSpace c).

Definition trimEnd (s : string) : string := reverse (trimStart (reverse s)).

(** [s.trim()] *)
Definition trim (s : string) : string := trimEnd (trimStart s).

Fixpoint filterChars (P : ascii -> bool) (s : string) : string :=
  match s with
  | "" => ""
  | String c s' => if P c then String c (filterChars P s') else filterChars P s'
  end.

Fixpoint allChars (P : ascii -> bool) (s : string) : bool :=
  match s with
  | "" => true
  | String c s' => P c && allChars P s'
  end.

Fixpoint contains (c : ascii) (s : string) : bool :=
  match s with
  | "" => false
  | String d s' => ascii_eqb c d || contains c s'
  end.

(** [s.split(sep)] for a separator of one character. *)
Fixpoint splitChar_from (sep : ascii) (cur : string) (s : string) : list string :=
  match s with
  | "" => [cur]
  | String c s' =>
      if ascii_eqb c sep then cur :: splitChar_from sep "" s'
      else splitChar_from sep (cur +:+ String c "") s'
  end.

Definition splitChar (sep : ascii) (s : string) : list string :=
  splitChar_from sep "" s.

(** [l.join(sep)] *)
Fixpoint join (sep : string) (l : list string) : string :=
  match l with
  | [] => ""
  | [x] => x
  | x :: l' => x +:+ sep +:+ join sep l'
  end.

Fixpoint concatAll (l : list string) : string :=
  match l with
  | [] => ""
  | x :: l' => x +:+ concatAll l'
  end.

(** If [s] starts with [p], what follows it. *)
Fixpoint stripPrefix (p s : string) : option string :=
  match p, s with
  | "", _ => Some s
  | String a p', String b s' => if ascii_eqb a b then stripPrefix p' s' else None
  | String _ _, "" => None
  end.

(** Expansion of the replacement patterns of [String.prototype.replace]
    when the replacement is a string and the pattern has no capture
    groups: [$$], [$&], [$`] and [$']; every other [$] stays as it is. *)
Fixpoint getSubstitution (matched before after : string) (repl : string) : string :=
  match repl with
  | "" => ""
  | String "$" (String "$" r) => String "$" (getSubstitution matched before after r)
  | String "$" (String "&" r) => matched +:+ getSubstitution matched before after r
  | String "$" (String "`" r) => before +:+ getSubstitution matched before after r
  | String "$" (String "'" r) => after +:+ getSubstitution matched before after r
  | String c r => String c (getSubstitution matched before after r)
  end.

(** [s.replace(c, repl)] for a pattern string of one character: the first
    occurrence only, with the replacement patterns expanded. *)
Fixpoint replaceChar_from (c : ascii) (repl : string) (before : string) (s : string) : string :=
  match s with
  | "" => before
  | String d s' =>
      if ascii_eqb d c
      then before +:+ getSubstitution (String c "") before s' repl +:+ s'
      else replaceChar_from c repl (before +:+ String d "") s'
  end.

Definition replaceChar (c : ascii) (repl : string) (s : string) : string :=
  replaceChar_from c repl "" s.

(** Decimal rendering of a number, as template literals do. *)
Definition ofNat (n : nat) : string := pretty n.

End JsString.

(* ================================================================== *)
(** * Regular expressions *)
(* ================================================================== *)

Module Regex.

Import JsString.

Inductive regex : Type :=
| Eps                                  (* empty pattern *)
| Chr (P : ascii -> bool)              (* one character of a class *)
| Lit (l : string)                     (* a literal run of characters *)
| Eos                                  (* [$] without the m flag *)
| Seq (r1 r2 : regex)
| Alt (r1 r2 : regex)
| Star (r : regex)                     (* greedy [*] *)
| Grp (i : nat) (r : regex).           (* capture group number [i] *)

Definition Plus (r : regex) : regex := Seq r (Star r).
Definition Opt (r : regex) : regex := Alt r Eps.

(** Capture groups that took part in the match; an absent number is
    [undefined]. *)
Definition captures := list (nat * string).

Fixpoint cap (i : nat) (cs : captures) : option string :=
  match cs with
  | [] => None
  | (j, v) :: cs' => if Nat.eqb i j then Some v else cap i cs'
  end.

Section Matcher.
Context {A : Type}.

(** The iterations of a greedy [*] over a pattern matched by [step]: one
    more iteration that consumes something, then the rest, is tried before
    the continuation; [fuel] is at least the length of the input. *)
Fixpoint starLoop (step : string -> captures -> (string -> captures -> option A) -> option A)
    (k : string -> captures -> option A) (fuel : nat) (s : string) (cs : captures)
    : option A :=
  match fuel with
  | 0 => k s cs
  | S fuel' =>
      match step s cs
              (fun s1 cs1 =>
                 if Nat.ltb (String.length s1) (String.length s)
                 then starLoop step k fuel' s1 cs1 else None) with
      | Some x => Some x
      | None => k s cs
      end
  end.

(** [starLoop] for a pattern of one character of the class [P]. *)
Fixpoint starChr (P : ascii -> bool) (s : string) (cs : captures)
    (k : string -> captures -> option A) : option A :=
  match s with
  | String c s' =>
      if P c
      then match starChr P s' cs k with
           | Some x => Some x
           | None => k s cs
           end
      else k s cs
  | "" => k s cs
  end.

(** [rmatch r s cs k]: match [r] at the start of [s], then hand what is
    left of the input to the continuation; alternatives are tried in
    priority order and the first one whose continuation succeeds wins.
    An iteration of [*] that consumes nothing is rejected. *)
Fixpoint rmatch (r : regex) (s : string) (cs : captures)
    (k : string -> captures -> option A) {struct r} : option A :=
  match r with
  | Eps => k s cs
  | Chr P =>
      match s with
      | String c s' => if P c then k s' cs else None
      | "" => None
      end
  | Lit l =>
      match stripPrefix l s with
      | Some s' => k s' cs
      | None => None
      end
  | Eos =>
      match s with
      | "" => k s cs
      | _ => None
      end
  | Seq r1 r2 => rmatch r1 s cs (fun s1 cs1 => rmatch r2 s1 cs1 k)
  | Alt r1 r2 =>
      match rmatch r1 s cs k with
      | Some x => Some x
      | None => rmatch r2 s cs k
      end
  | Star r1 => starLoop (rmatch r1) k (String.length s) s cs
  | Grp i r1 =>
      rmatch r1 s cs
        (fun s1 cs1 =>
           k s1 ((i, takeN (String.length s - String.length s1) s) :: cs1))
  end.
End Matcher.

(** The inputs a greedy run over the class [P] can stop at: [s] itself and,
    after a character of the class, the stops of what follows it. *)
Inductive stop (P : ascii -> bool) : string -> string -> Prop :=
| stop_here s : stop P s s
| stop_next c s t : P c = true -> stop P s t -> stop P (String c s) t.

(** A successful match: the matched text, the captures, the rest. *)
Definition execAt (r : regex) (s : string) : option (string * captures * string) :=
  rmatch r s []
    (fun rest cs => Some (takeN (String.length s - String.length rest) s, cs, rest)).

(** Leftmost match at or after the start of [s]:
    text skipped, matched text, captures, rest. *)
Fixpoint search_from (r : regex) (skipped : string) (s : string)
    : option (string * string * captures * string) :=
  match execAt r s with
  | Some (m, cs, rest) => Some (skipped, m, cs, rest)
  | None =>
      match s with
      | "" => None
      | String c s' => search_from r (skipped +:+ String c "") s'
      end
  end.

Definition search (r : regex) (s : string) := search_from r "" s.

(** The input cut at the successive matches of a regular expression with
    the [g] flag. *)
Inductive segment : Type :=
| Text (t : string)
| Match (m : string) (cs : captures).

Fixpoint segments_loop (fuel : nat) (r : regex) (s : string) : list segment :=
  match fuel with
  | 0 => [Text s]
  | S fuel' =>
      match search r s with
      | None => [Text s]
      | Some (skipped, m, cs, rest) =>
          Text skipped :: Match m cs ::
            match m, rest with
            | "", String c rest' => Text (String c "") :: segments_loop fuel' r rest'
            | "", "" => []
            | _, _ => segments_loop fuel' r rest
            end
      end
  end.

Definition segments (r : regex) (s : string) : list segment :=
  segments_loop (S (String.length s)) r s.

(** [s.replace(r, f)] for [r] with the [g] flag and a function [f] of the
    matched text and the captures. *)
Definition replaceAll (r : regex) (f : string -> captures -> string) (s : string) : string :=
  concatAll (map (fun sg => match sg with Text t => t | Match m cs => f m cs end)
              (segments r s)).

(** [s.split(r)] for a separator [r] without capture groups. *)
Fixpoint split_loop (fuel : nat) (r : regex) (cur : string) (s : string) : list string :=
  match fuel with
  | 0 => [cur +:+ s]
  | S fuel' =>
      match s with
      | "" => [cur]
      | String c s' =>
          match execAt r s with
          | None => split_loop fuel' r (cur +:+ String c "") s'
          | Some (m, _, rest) =>
              match m, cur with
              | "", "" => split_loop fuel' r (cur +:+ String c "") s'
              | _, _ => cur :: split_loop fuel' r "" rest
              end
          end
      end
  end.

Definition split (r : regex) (s : string) : list string :=
  match s with
  | "" => match execAt r s with Some _ => [] | None => [""] end
  | _ => split_loop (2 * String.length s + 1) r "" s
  end.

End Regex.

(* ================================================================== *)
(** * Plain objects used as dictionaries *)
(* ================================================================== *)

Module JsObj.

(** Own enumerable string-keyed properties, in enumeration order. *)
Abbreviation jsobj V := (list (string * V)).

(** The value of a decimal digit. *)
Definition digitOf (c : ascii) : option N :=
  let n := N_of_ascii c in
  if N.leb 48 n && N.leb n 57 then Some (n - 48)%N else None.

(** The number a string of decimal digits denotes, on top of [acc]. *)
Fixpoint numeral (s : string) (acc : N) : option N :=
  match s with
  | "" => Some acc
  | String c s' =>
      match digitOf c with
      | Some d => numeral s' (10 * acc + d)%N
      | None => None
      end
  end.

(** An array index: a key that is the canonical decimal numeral (digits
    only, no leading zero) of an integer below [2^32 - 1]. *)
Definition arrayIndex (k : string) : option N :=
  match k with
  | "" => None
  | String "0" (String _ _) => None
  | _ =>
      match numeral k 0 with
      | Some n => if N.ltb n 4294967295 then Some n else None
      | None => None
      end
  end.

Section Ops.
Context {V : Type}.

(** [o[k]] *)
Fixpoint get (o : jsobj V) (k : string) : option V :=
  match o with
  | [] => None
  | (k', v) :: o' => if String.eqb k k' then Some v else get o' k
  end.

(** [o[k] = v]: an existing key keeps its place, a new one goes last. *)
Fixpoint set (o : jsobj V) (k : string) (v : V) : jsobj V :=
  match o with
  | [] => [(k, v)]
  | (k', v') :: o' =>
      if String.eqb k k' then (k', v) :: o' else (k', v') :: set o' k v
  end.

(** A new array index [k], of value [n], takes its place among the array
    indices, which come first, in ascending order. *)
Fixpoint place (o : jsobj V) (n : N) (k : string) (v : V) : jsobj V :=
  match o with
  | [] => [(k, v)]
  | (k', v') :: o' =>
      match arrayIndex k' with
      | Some n' => if N.ltb n' n then (k', v') :: place o' n k v else (k, v) :: o
      | None => (k, v) :: o
      end
  end.

(** [o[k] = v] on an object made by [{}], for a [v] that is no object, with
    the enumeration order of the language: the key [__proto__] reaches the
    setter inherited from [Object.prototype], which ignores such a value,
    and no property is made; an existing key keeps its place; a new array
    index goes among the array indices; any other new key goes last. *)
Definition put (o : jsobj V) (k : string) (v : V) : jsobj V :=
  if String.eqb k "__proto__" then o
  else
    match get o k, arrayIndex k with
    | None, Some n => place o n k v
    | _, _ => set o k v
    end.

Definition keys (o : jsobj V) : list string := map fst o.

(** [for (k in o) t = f(t, k, o[k])] *)
Definition forIn {T : Type} (o : jsobj V) (f : T -> string -> V -> T) (t : T) : T :=
  fold_left
    (fun t k => match get o k with Some v => f t k v | None => t end)
    (keys o) t.

(** [Object.assign(target, source)] *)
Definition assign (target source : jsobj V) : jsobj V :=
  forIn source (fun t k v => set t k v) target.
End Ops.

End JsObj.

(* ================================================================== *)
(** * The library *)
(* ================================================================== *)

Module PartTheme.

Import JsString Regex JsObj.

(** ** Values of the language that the library tells apart *)

Inductive jsval : Type :=
| JUndefined
| JNull
| JStr (s : string).

(** Truthiness, as [&&], [||], [!] and [if] see it. *)
Definition truthy (v : jsval) : bool :=
  match v with
  | JStr (String _ _) => true
  | _ => false
  end.

(** [name == v] for a string [name]. *)
Definition looseEqStr (name : string) (v : jsval) : bool :=
  match v with
  | JStr s => String.eqb name s
  | _ => false
  end.

Definition ofCapture (o : option string) : jsval :=
  match o with
  | Some s => JStr s
  | None => JUndefined
  end.

(** [a || b] on captured groups. *)
Definition orElse (a b : jsval) : jsval := if truthy a then a else b.

(** ** Regular expressions of the source *)

Definition ws : regex := Chr isSpace.
Definition notWs : regex := Chr notSpace.
Definition notChar (x : ascii) : regex := Chr (fun c => negb (ascii_eqb c x)).

(** Concatenation of a sequence of patterns. *)
Definition Cat (rs : list regex) : regex := fold_right Seq Eps rs.

Definition theme : string := "::theme".

(** The source text of [cssRe], which carries the [g] flag. *)
Definition cssReSource : string :=
  "\s*(.*)(::(?:part|theme))\(([^)]+)\)([^\s{]*)\s*{\s*([^}]*)}".

Definition cssRe : regex :=
  Cat [ Star ws;
        Grp 1 (Star (Chr (fun c => negb (isLineTerminator c))));
        Grp 2 (Seq (Lit "::") (Alt (Lit "part") (Lit "theme")));
        Lit "(";
        Grp 3 (Plus (notChar ")"));
        Lit ")";
        Grp 4 (Star (Chr (fun c => negb (isSpace c || ascii_eqb c "{"))));
        Star ws;
        Lit "{";
        Star ws;
        Grp 5 (Star (notChar "}"));
        Lit "}" ].

(** [/\s*;\s*/] *)
Definition propSepRe : regex := Cat [ Star ws; Lit ";"; Star ws ].

(** [/\:/g] *)
Definition colonRe : regex := Lit ":".

(** [/\s*([^\s]+)(?:\s+([^\s]+))?\s*/] *)
Definition partmapRe : regex :=
  Cat [ Star ws;
        Grp 1 (Plus notWs);
        Opt (Seq (Plus ws) (Grp 2 (Plus notWs)));
        Star ws ].

Definition isCombinator (c : ascii) : bool :=
  isSpace c || ascii_eqb c ">" || ascii_eqb c "~" || ascii_eqb c "+".

Definition notCombinator : regex := Chr (fun c => negb (isCombinator c)).

(** [/([^\s>~+]+$)|(?:[^\s>~+]+)/g] *)
Definition selectorSeqRe : regex :=
  Alt (Grp 1 (Seq (Plus notCombinator) Eos)) (Plus notCombinator).

Definition isNameStop (c : ascii) : bool :=
  ascii_eqb c "." || ascii_eqb c "#" || ascii_eqb c ":" || ascii_eqb c "[".

(** [/(?:(\.|:|::)([^.#:[]+))|(?:\[([^=]+)(?:=[^\]]+)?\])/g] *)
Definition constSelectorRe : regex :=
  Alt (Seq (Grp 1 (Alt (Lit ".") (Alt (Lit ":") (Lit "::"))))
           (Grp 2 (Plus (Chr (fun c => negb (isNameStop c))))))
      (Cat [ Lit "[";
             Grp 3 (Plus (notChar "="));
             Opt (Seq (Lit "=") (Plus (notChar "]")));
             Lit "]" ]).

(** ** Custom-property names *)

(** The end selector with its colons removed. *)
Definition withoutColons (endSelector : string) : string :=
  filterChars (fun c => negb (ascii_eqb c ":")) endSelector.

(** [varForPart(id, name, prop, endSelector)] *)
Definition varForPart (id : nat) (name prop endSelector : string) : string :=
  "--e" +:+ ofNat id +:+ "-part-" +:+ name +:+ "-" +:+ prop +:+
  match endSelector with
  | "" => ""
  | _ => "-" +:+ replaceAll colonRe (fun _ _ => "") endSelector
  end.

(** ** Attribute grammars *)

(** [{name, forward}] *)
Record PartInfo : Type := mkPartInfo {
  info_name : jsval;
  info_forward : jsval
}.

(** [attr ? attr.split(',') : []] *)
Definition pieces (attr : option string) : list string :=
  match attr with
  | Some (String _ _ as a) => splitChar "," a
  | _ => []
  end.

(** [partInfoFromAttr(attr)] *)
Definition partInfoFromAttr (attr : option string) : list PartInfo :=
  map (fun p => mkPartInfo (JStr (trim p)) JNull) (pieces attr).

(** [p ? p.match(partmapRe) : []]: [None] is [null], a list is the match
    array from index 1 on; the empty array of the source has no entries. *)
Definition partmapMatch (p : string) : option captures :=
  match p with
  | "" => Some []
  | _ => match search partmapRe p with
         | Some (_, _, cs, _) => Some cs
         | None => None
         end
  end.

(** What the callback of [partInfoFromPartmap] pushes for one piece. *)
Definition partmapEntry (p : string) : list PartInfo :=
  match partmapMatch p with
  | Some m =>
      [ mkPartInfo (orElse (ofCapture (cap 2 m)) (ofCapture (cap 1 m)))
                   (ofCapture (cap 1 m)) ]
  | None => []
  end.

(** [partInfoFromPartmap(attr)] *)
Definition partInfoFromPartmap (attr : option string) : list PartInfo :=
  flat_map partmapEntry (pieces attr).

(** ** The DOM, as far as the library looks at it *)

(** Identity of a node: an element, a document or a shadow host. *)
Definition Element : Type := nat.

(** [element.constructor.constClasses]: not declared, a boolean, or an
    array of class names. *)
Inductive ConstClasses : Type :=
| CCUndefined
| CCBool (b : bool)
| CCList (l : list string).

Record Dom : Type := mkDom {
  (** [let c = element.getRootNode(); c.host || c] *)
  container : Element -> Element;
  (** [element.getAttribute('partmap')]; [None] is [null] *)
  partmapOf : Element -> option string;
  constClasses : Element -> ConstClasses;
  (** [element.constructor.constAttributes]; [None] is [undefined] *)
  constAttributes : Element -> option (list string);
  (** [element.matches(selector)]; [None]: the call throws a SyntaxError *)
  matches : Element -> string -> option bool;
  (** the [part] attribute of every node of
      [element.shadowRoot.querySelectorAll('[part]')];
      [None]: the element has no shadow root *)
  shadowParts : Element -> option (list string)
}.

(** ** Selector pre-filter *)

(** [l.indexOf(x) !== -1] *)
Definition inArray (x : string) (l : list string) : bool :=
  existsb (String.eqb x) l.

(** The test of the inner callback of [isMatchingPossible]: the matched
    component is kept when it holds and replaced by [''] otherwise. *)
Definition keepComponent (cc : ConstClasses) (ca : option (list string))
    (isLast : jsval) (cs : captures) : bool :=
  let classOrPseudoPrefix := ofCapture (cap 1 cs) in
  let classOrPseudoName := cap 2 cs in
  let attributeName := ofCapture (cap 3 cs) in
  truthy isLast &&
  ((match classOrPseudoPrefix with JStr "." => true | _ => false end
    && match cc, classOrPseudoName with
       | CCBool b, _ => b
       | CCList l, Some n => inArray n l
       | _, _ => false
       end)
   || (truthy attributeName
       && match ca, attributeName with
          | Some l, JStr a => inArray a l
          | _, _ => false
          end)).

(** The [constSelector] computed by [isMatchingPossible]. *)
Definition constSelector (cc : ConstClasses) (ca : option (list string))
    (selector : string) : string :=
  replaceAll selectorSeqRe
    (fun sequence cs =>
       let isLast := ofCapture (cap 1 cs) in
       replaceAll constSelectorRe
         (fun m cs' => if keepComponent cc ca isLast cs' then m else "")
         sequence)
    selector.

(** ** Part declarations and resolved property maps *)

(** One entry of [element.__cssParts]:
    [{selector, endSelector, name, props, isTheme}]. *)
Record PartDeclaration : Type := mkPart {
  part_selector : string;
  part_endSelector : string;
  part_name : string;
  part_props : jsobj string;
  part_isTheme : bool
}.

(** Bucket key to property name to value. *)
Abbreviation Props := (jsobj (jsobj string)).

(** [addPartProps(props, part, id, name)] *)
Definition addPartProps (props : option Props) (part : PartDeclaration)
    (id : nat) (name : string) : Props :=
  let props := default [] props in
  let bucket := part_endSelector part in
  let b := default [] (get props bucket) in
  let b :=
    forIn (part_props part)
      (fun b p _ => set b p ("var(" +:+ varForPart id name p (part_endSelector part) +:+ ")"))
      b in
  set props bucket b.

(** The loop of [mixPartProps] for two objects. *)
Definition mixBuckets (a b : Props) : Props :=
  forIn b (fun a i bi => set a i (assign (default [] (get a i)) bi)) a.

(** [mixPartProps(a, b)]; [None] is [undefined]. *)
Definition mixPartProps (a b : option Props) : option Props :=
  match a, b with
  | Some a, Some b => Some (mixBuckets a b)
  | Some a, None => Some a
  | None, _ => b
  end.

(** The value of property [p] in bucket [bucket] of a resolved map. *)
Definition propOf (o : option Props) (bucket p : string) : option string :=
  match o with
  | Some o => match get o bucket with Some b => get b p | None => None end
  | None => None
  end.

(** ** The mutable state and the monad of the library *)

Record World : Type := mkWorld {
  (** [textContent] of the [style] elements under the root of an element
      ([element.shadowRoot || element]), in document order *)
  styles : gmap Element (list string);
  (** own property [__cssParts]: absent, [null] or an array *)
  cssParts : gmap Element (option (list PartDeclaration));
  (** own property [__partId] *)
  partIds : gmap Element nat;
  (** the counter [partId] of the module *)
  partId : nat;
  (** instrumentation, not in the source: one entry per run of
      [initializeParts], latest first *)
  scans : list Element;
  (** instrumentation, not in the source: one entry per call of
      [element.matches], latest first *)
  queries : list (Element * string)
}.

Definition setIds (w : World) (ids : gmap Element nat) (next : nat) : World :=
  mkWorld (styles w) (cssParts w) ids next (scans w) (queries w).

Definition setParts (w : World) (st : gmap Element (list string))
    (ps : gmap Element (option (list PartDeclaration))) : World :=
  mkWorld st ps (partIds w) (partId w) (scans w) (queries w).

Definition logScan (w : World) (e : Element) : World :=
  mkWorld (styles w) (cssParts w) (partIds w) (partId w) (e :: scans w) (queries w).

Definition logQuery (w : World) (e : Element) (sel : string) : World :=
  mkWorld (styles w) (cssParts w) (partIds w) (partId w) (scans w) ((e, sel) :: queries w).

Inductive outcome (A : Type) : Type :=
| Ok (a : A) (w : World)     (* normal completion *)
| Fault (w : World)          (* an exception propagates *)
| OutOfFuel.                 (* the recursion bound of the model was reached *)
Arguments Ok {A} a w.
Arguments Fault {A} w.
Arguments OutOfFuel {A}.

Definition M (A : Type) : Type := World -> outcome A.

Definition ret {A} (a : A) : M A := fun w => Ok a w.

Definition bind {A B} (m : M A) (k : A -> M B) : M B :=
  fun w =>
    match m w with
    | Ok a w' => k a w'
    | Fault w' => Fault w'
    | OutOfFuel => OutOfFuel
    end.

Notation "x <- m ;; k" := (bind m (fun x => k))
  (at level 100, m at next level, right associativity).
Notation "m ;;; k" := (bind m (fun _ => k))
  (at level 100, right associativity).

Definition getWorld : M World := fun w => Ok w w.
Definition putWorld (w : World) : M unit := fun _ => Ok tt w.
Definition throw {A} : M A := fun w => Fault w.
Definition outOfFuel {A} : M A := fun _ => OutOfFuel.

(** A call that either returns or throws. *)
Definition orThrow {A} (o : option A) : M A :=
  match o with
  | Some a => ret a
  | None => throw
  end.

Fixpoint foldM {A B} (f : B -> A -> M B) (l : list A) (b : B) : M B :=
  match l with
  | [] => ret b
  | x :: l' => b' <- f b x ;; foldM f l' b'
  end.

(** ** Scope ids *)

(** [partIdForElement(element)] *)
Definition partIdForElement (element : Element) : M nat :=
  w <- getWorld ;;
  match partIds w !! element with
  | Some id => ret id
  | None =>
      putWorld (setIds w (<[element := partId w]> (partIds w)) (S (partId w))) ;;;
      ret (partId w)
  end.

(** ** CSS rule transformer *)

(** The declaration block of a rule, parsed as the callback of
    [partCssToCustomPropCss] does. *)
Definition parseProps (propsStr : string) : jsobj string :=
  fold_left
    (fun props prop =>
       match trim prop with
       | "" => props
       | prop' =>
           match splitChar ":" prop' with
           | n :: rest => put props (trim n) (trim (join ":" rest))
           | [] => props   (* [split] never returns an empty array *)
           end
       end)
    (split propSepRe propsStr) [].

(** A capture group that takes part in every match. *)
Definition group (i : nat) (cs : captures) : string := default "" (cap i cs).

(** The record pushed on [parts] for one match. *)
Definition declOfMatch (cs : captures) : PartDeclaration :=
  mkPart (group 1 cs) (group 4 cs) (group 3 cs) (parseProps (group 5 cs))
         (String.eqb (group 2 cs) theme).

(** A line feed, and a line feed followed by a tab. *)
Definition lf : string := String "010" "".
Definition lftab : string := String "010" (String "009" "").

(** The text returned by the callback for one match. *)
Definition ruleText (id : nat) (d : PartDeclaration) : string :=
  let partProps :=
    forIn (part_props d)
      (fun partProps p v =>
         partProps +:+ lftab
         +:+ varForPart id (part_name d) p (part_endSelector d)
         +:+ ": " +:+ v +:+ ";")
      "" in
  lf
  +:+ match part_selector d with "" => "*" | sel => sel end
  +:+ " {" +:+ lftab +:+ trim partProps
  +:+ lf +:+ "}".

(** [partCssToCustomPropCss(element, cssText)]: [{parts, css}], with
    [None] for a [parts] left [undefined]. *)
Definition partCssToCustomPropCss (element : Element) (cssText : string)
    : M (option (list PartDeclaration) * string) :=
  foldM
    (fun (acc : option (list PartDeclaration) * string) sg =>
       match sg with
       | Text t => ret (fst acc, snd acc +:+ t)
       | Match _ cs =>
           let d := declOfMatch cs in
           id <- partIdForElement element ;;
           ret (Some (default [] (fst acc) ++ [d])%list, snd acc +:+ ruleText id d)
       end)
    (segments cssRe cssText) (None, "").

(** ** Part declaration cache *)

(** The body of the [forEach] of [initializeParts], for the style element
    number [i] of the root. *)
Definition initializeStyle (element : Element) (i : nat) (text : string) : M unit :=
  info <- partCssToCustomPropCss element text ;;
  match fst info with
  | Some parts =>
      w <- getWorld ;;
      let old := default [] (default None (cssParts w !! element)) in
      putWorld (setParts w
                  (<[element := <[i := snd info]> (default [] (styles w !! element))]> (styles w))
                  (<[element := Some (old ++ parts)%list]> (cssParts w)))
  | None => ret tt
  end.

Fixpoint initializeStyles (element : Element) (i : nat) (texts : list string) : M unit :=
  match texts with
  | [] => ret tt
  | t :: texts' => initializeStyle element i t ;;; initializeStyles element (S i) texts'
  end.

(** [initializeParts(element)] *)
Definition initializeParts (element : Element) : M unit :=
  w <- getWorld ;;
  putWorld (logScan w element) ;;;
  initializeStyles element 0 (default [] (styles w !! element)) ;;;
  w' <- getWorld ;;
  match default None (cssParts w' !! element) with
  | Some _ => ret tt
  | None =>
      putWorld (setParts w' (styles w') (<[element := None]> (cssParts w')))
  end.

(** [ensurePartData(element)] *)
Definition ensurePartData (element : Element) : M unit :=
  w <- getWorld ;;
  match cssParts w !! element with
  | Some _ => ret tt
  | None => initializeParts element
  end.

(** [partDataForElement(element)]; [None] is [null]. *)
Definition partDataForElement (element : Element) : M (option (list PartDeclaration)) :=
  ensurePartData element ;;;
  w <- getWorld ;;
  ret (default None (cssParts w !! element)).

(** ** Resolution engine *)

Section Resolution.
Variable dom : Dom.

(** [isMatchingPossible(element, selector)] *)
Definition isMatchingPossible (element : Element) (selector : string) : M bool :=
  let constSelector :=
    constSelector (constClasses dom element) (constAttributes dom element) selector in
  w <- getWorld ;;
  putWorld (logQuery w element constSelector) ;;;
  orThrow (matches dom element constSelector).

(** [propsFromElement(name, container, element, requireTheme)] *)
Definition propsFromElement (name : string) (container element : Element)
    (requireTheme : bool) : M (option Props) :=
  parts <- partDataForElement container ;;
  match parts with
  | None => ret None
  | Some parts =>
      id <- partIdForElement container ;;
      foldM
        (fun props part =>
           if String.eqb (part_name part) name
              && (negb requireTheme || part_isTheme part)
           then
             possible <- isMatchingPossible element (part_selector part) ;;
             if (possible : bool) then ret (Some (addPartProps props part id name))
             else ret props
           else ret props)
        parts None
  end.

(** The body of [propsForPart(name, element, requireTheme)], with the
    function itself as [self] in the recursive calls. *)
Definition propsForPartBody (self : string -> Element -> bool -> M (option Props))
    (name : string) (element : Element) (requireTheme : bool) : M (option Props) :=
  let container := container dom element in
  if Nat.eqb container element then ret None
  else
    props <- propsFromElement name container element requireTheme ;;
    themeProps <- self name container true ;;
    let props := mixPartProps props themeProps in
    if requireTheme then ret props
    else
      foldM
        (fun props info =>
           let catchAll :=
             match info_forward info with
             | JStr f => truthy (JStr f) && contains "*" f
             | _ => false
             end in
           if looseEqStr name (info_forward info) || catchAll
           then
             match info_name info with
             | JStr n =>
                 let ancestorName :=
                   if catchAll then replaceChar "*" name n else n in
                 forwarded <- self ancestorName container false ;;
                 ret (mixPartProps props forwarded)
             | _ =>
                 (* no entry of [partInfoFromPartmap] has a string
                    [forward] without a string [name] *)
                 throw
             end
           else ret props)
        (partInfoFromPartmap (partmapOf dom element)) props.

(** [propsForPart(name, element, requireTheme)]; the first argument bounds
    the depth of the recursion. *)
Fixpoint propsForPart (fuel : nat) : string -> Element -> bool -> M (option Props) :=
  match fuel with
  | 0 => fun _ _ _ => outOfFuel
  | S fuel' => propsForPartBody (propsForPart fuel')
  end.

(** ** Style injector *)

(** The text added by [ruleForPartInfo] for one bucket. *)
Definition bucketRule (attr bucket : string) (propsBucket : jsobj string) : string :=
  lf +:+ "[part=" +:+ String "034" "" +:+ attr +:+ String "034" ""
  +:+ "]" +:+ bucket +:+ " {" +:+ lftab
  +:+ join lftab
           (forIn propsBucket
              (fun partProps p v => (partProps ++ [p +:+ ": " +:+ v +:+ ";"])%list) [])
  +:+ lf +:+ "}".

(** [ruleForPartInfo(partInfo, attr, element)] *)
Definition ruleForPartInfo (fuel : nat) (partInfo : list PartInfo) (attr : string)
    (element : Element) : M string :=
  foldM
    (fun text info =>
       match info_name info with
       | JStr name =>
           if truthy (info_forward info) then ret text
           else
             props <- propsForPart fuel name element false ;;
             match props with
             | Some props =>
                 ret (forIn props
                        (fun text bucket propsBucket =>
                           text +:+ bucketRule attr bucket propsBucket)
                        text)
             | None => ret text
             end
       | _ => ret text   (* [partInfoFromAttr] gives string names only *)
       end)
    partInfo "".

(** [cssForElementDom(element)] *)
Definition cssForElementDom (fuel : nat) (element : Element) : M string :=
  ensurePartData element ;;;
  _ <- partIdForElement element ;;
  partAttrs <- orThrow (shadowParts dom element) ;;
  foldM
    (fun css attr =>
       rule <- ruleForPartInfo fuel (partInfoFromAttr (Some attr)) attr element ;;
       ret (css +:+ lftab +:+ rule))
    partAttrs "".

End Resolution.

End PartTheme.

(* ================================================================== *)
(** * Mutation in place: [mixPartProps] on a store of objects *)
(* ================================================================== *)

Module Store.

Import JsObj PartTheme.

(** A reference to an object. *)
Definition ref : Type := nat.

(** The objects [mixPartProps] can reach: property maps, whose values are
    references to buckets, and buckets, whose values are strings. *)
Record Heap : Type := mkHeap {
  maps : gmap ref (jsobj ref);
  buckets : gmap ref (jsobj string)
}.

Definition mapAt (h : Heap) (r : ref) : jsobj ref := default [] (maps h !! r).
Definition bucketAt (h : Heap) (r : ref) : jsobj string := default [] (buckets h !! r).

(** The body of the loop of [mixPartProps] for the key [i] of [b]. *)
Definition mixStep (a b : ref) (h : Heap) (i : string) : Heap :=
  (* if (!a[i]) a[i] = {} *)
  let h1 :=
    match get (mapAt h a) i with
    | Some _ => h
    | None =>
        let r := fresh (dom (buckets h)) in
        mkHeap (<[a := set (mapAt h a) i r]> (maps h)) (<[r := []]> (buckets h))
    end in
  (* Object.assign(a[i], b[i]) *)
  match get (mapAt h1 a) i, get (mapAt h1 b) i with
  | Some ai, Some bi =>
      mkHeap (maps h1) (<[ai := assign (bucketAt h1 ai) (bucketAt h1 bi)]> (buckets h1))
  | _, _ => h1
  end.

(** [mixPartProps(a, b)] on references; [None] is [undefined]. *)
Definition mixPartProps (a b : option ref) (h : Heap) : option ref * Heap :=
  match a, b with
  | Some ra, Some rb => (Some ra, fold_left (mixStep ra rb) (keys (mapAt h rb)) h)
  | Some ra, None => (Some ra, h)
  | None, _ => (b, h)
  end.

(** The value a property map stands for. *)
Definition readProps (h : Heap) (r : ref) : Props :=
  map (fun kb => (fst kb, bucketAt h (snd kb))) (mapAt h r).

(** The buckets of a property map. *)
Definition bucketRefs (h : Heap) (r : ref) : list ref := map snd (mapAt h r).

(** Two distinct property maps whose buckets are allocated and shared
    neither within a map nor between the maps: what [addPartProps] and
    [mixPartProps] themselves build. *)
Definition separated (h : Heap) (a b : ref) : Prop :=
  a <> b
  /\ NoDup (keys (mapAt h a))
  /\ NoDup (keys (mapAt h b))
  /\ NoDup (bucketRefs h a ++ bucketRefs h b)
  /\ (forall r, r ∈ bucketRefs h a ++ bucketRefs h b -> is_Some (buckets h !! r)).

(** State of the loop of [mixPartProps] started in [h0]: [b] and its
    buckets are as they were, and [a] is still separated from [b]. *)
Definition loopInv (h0 h : Heap) (a b : ref) : Prop :=
  mapAt h b = mapAt h0 b
  /\ (forall r, r ∈ bucketRefs h0 b -> bucketAt h r = bucketAt h0 r)
  /\ separated h a b.

End Store.

(* ================================================================== *)
(** * The words of the specification *)
(* ================================================================== *)

Module Spec.

Import JsString PartTheme.

(** The first wildcard marker of [local] replaced by [name]. *)
Fixpoint substWildcard (name : string) (local : string) : string :=
  match local with
  | "" => ""
  | String c rest =>
      if ascii_eqb c "*" then name +:+ rest else String c (substWildcard name rest)
  end.

(** A reference forwards the requested name when its [forward] equals the
    name or contains the wildcard marker. *)
Definition forwards (name forward : string) : bool :=
  String.eqb forward name || contains "*" forward.

(** The name the request goes on with, further up. *)
Definition renamed (name forward local : string) : string :=
  if contains "*" forward then substWildcard name local else local.

(** The tokens of an entry: the maximal runs without white space. *)
Fixpoint tokens_from (cur : string) (s : string) : list string :=
  match s with
  | "" => match cur with "" => [] | _ => [cur] end
  | String c s' =>
      if isSpace c
      then match cur with
           | "" => tokens_from "" s'
           | _ => cur :: tokens_from "" s'
           end
      else tokens_from (cur +:+ String c "") s'
  end.

Definition tokens (s : string) : list string := tokens_from "" s.

(** The reference of one entry of a [partmap] attribute: with two tokens,
    the first is [forward] and the second is [name]; with one token, it is
    both; an entry without a token gives no reference. *)
Definition partmapReference (entry : string) : list PartInfo :=
  match tokens entry with
  | [] => []
  | [t] => [mkPartInfo (JStr t) (JStr t)]
  | t1 :: t2 :: _ => [mkPartInfo (JStr t2) (JStr t1)]
  end.

(** The number of occurrences of a character. *)
Fixpoint countChar (c : ascii) (s : string) : nat :=
  match s with
  | "" => 0
  | String d s' => (if ascii_eqb d c then 1 else 0) + countChar c s'
  end.

(** *** Selectors, by their structure *)

(** A component of a simple-selector cluster: an id, a class, a
    pseudo-class or pseudo-element, an attribute test. *)
Inductive component : Type :=
| Id (name : string)
| Class (name : string)
| Pseudo (double : bool) (name : string)
| Attr (name : string) (value : option string).

(** A cluster: what stands before its components (a type selector, the
    universal selector, nothing), then the components. *)
Record cluster : Type := mkCluster {
  cl_head : string;
  cl_comps : list component
}.

(** A selector: its clusters, each after the combinator that leads to it
    (nothing, or white space, before the first one). *)
Definition selector : Type := list (string * cluster).

Definition renderComponent (c : component) : string :=
  match c with
  | Id n => "#" +:+ n
  | Class n => "." +:+ n
  | Pseudo false n => ":" +:+ n
  | Pseudo true n => "::" +:+ n
  | Attr a None => "[" +:+ a +:+ "]"
  | Attr a (Some v) => "[" +:+ a +:+ "=" +:+ v +:+ "]"
  end.

Fixpoint renderComponents (cs : list component) : string :=
  match cs with
  | [] => ""
  | c :: cs' => renderComponent c +:+ renderComponents cs'
  end.

Definition renderCluster (c : cluster) : string :=
  cl_head c +:+ renderComponents (cl_comps c).

Fixpoint renderSelector (sel : selector) : string :=
  match sel with
  | [] => ""
  | (sep, c) :: sel' => sep +:+ renderCluster c +:+ renderSelector sel'
  end.

(** A class listed in the constant classes of the scope, or any class when
    these are the marker [true]. *)
Definition constantClass (cc : ConstClasses) (n : string) : bool :=
  match cc with
  | CCUndefined => false
  | CCBool b => b
  | CCList l => inArray n l
  end.

(** An attribute listed in the constant attributes of the scope. *)
Definition constantAttribute (ca : option (list string)) (a : string) : bool :=
  match ca with
  | Some l => inArray a l
  | None => false
  end.

(** The components that stay: ids everywhere; in the last cluster, the
    constant classes and the tests of constant attributes. *)
Definition kept (cc : ConstClasses) (ca : option (list string)) (last : bool)
    (c : component) : bool :=
  match c with
  | Id _ => true
  | Class n => last && constantClass cc n
  | Pseudo _ _ => false
  | Attr a _ => last && constantAttribute ca a
  end.

Definition pruneCluster (cc : ConstClasses) (ca : option (list string)) (last : bool)
    (c : cluster) : cluster :=
  mkCluster (cl_head c) (List.filter (kept cc ca last) (cl_comps c)).

Fixpoint pruneSelector (cc : ConstClasses) (ca : option (list string))
    (sel : selector) : selector :=
  match sel with
  | [] => []
  | (sep, c) :: sel' =>
      (sep, pruneCluster cc ca (match sel' with [] => true | _ => false end) c)
      :: pruneSelector cc ca sel'
  end.

(** The pruning in the words of the specification: within the last
    cluster, the classes and the pseudo-classes or pseudo-elements named in
    the constant classes and the presence tests of constant attributes are
    stripped; every other component, and every other cluster, stays. *)
Definition statedStripped (cc : ConstClasses) (ca : option (list string)) (last : bool)
    (c : component) : bool :=
  last && match c with
          | Class n | Pseudo _ n => constantClass cc n
          | Attr a None => constantAttribute ca a
          | _ => false
          end.

Definition statedPruneCluster (cc : ConstClasses) (ca : option (list string))
    (last : bool) (c : cluster) : cluster :=
  mkCluster (cl_head c)
            (List.filter (fun c' => negb (statedStripped cc ca last c')) (cl_comps c)).

Fixpoint statedPruneSelector (cc : ConstClasses) (ca : option (list string))
    (sel : selector) : selector :=
  match sel with
  | [] => []
  | (sep, c) :: sel' =>
      (sep, statedPruneCluster cc ca (match sel' with [] => true | _ => false end) c)
      :: statedPruneSelector cc ca sel'
  end.

(** Characters of a name: neither a combinator nor one of [.#:[]=]. *)
Definition nameChar (c : ascii) : bool :=
  negb (isCombinator c) && negb (isNameStop c)
  && negb (ascii_eqb c "]") && negb (ascii_eqb c "=").

(** Characters of what stands before the components: as for names, and [#]. *)
Definition headChar (c : ascii) : bool :=
  nameChar c || ascii_eqb c "#".

(** Characters of an attribute value: neither a combinator nor [\]]. *)
Definition valueChar (c : ascii) : bool :=
  negb (isCombinator c) && negb (ascii_eqb c "]").

Definition isName (n : string) : bool :=
  match n with
  | "" => false
  | _ => allChars nameChar n
  end.

Definition isValue (v : string) : bool :=
  match v with
  | "" => false
  | _ => allChars valueChar v
  end.

Definition isAttr (c : component) : bool :=
  match c with
  | Attr _ _ => true
  | _ => false
  end.

Definition wfComponent (c : component) : bool :=
  match c with
  | Id n | Class n | Pseudo _ n => isName n
  | Attr a None => isName a
  | Attr a (Some v) => isName a && isValue v
  end.

(** Components that are well formed, where a test for the presence of an
    attribute is the last attribute test of its cluster. *)
Fixpoint wfComponents (cs : list component) : bool :=
  match cs with
  | [] => true
  | c :: cs' =>
      wfComponent c
      && match c with
         | Attr _ None => List.forallb (fun c' => negb (isAttr c')) cs'
         | _ => true
         end
      && wfComponents cs'
  end.

Definition wfCluster (c : cluster) : bool :=
  allChars headChar (cl_head c)
  && wfComponents (cl_comps c)
  && match renderCluster c with "" => false | _ => true end.

Fixpoint wfSelector (first : bool) (sel : selector) : bool :=
  match sel with
  | [] => true
  | (sep, c) :: sel' =>
      allChars isCombinator sep
      && (first || match sep with "" => false | _ => true end)
      && wfCluster c
      && wfSelector false sel'
  end.

(** The references of a [partmap] attribute as pairs ([forward], [name]). *)
Definition references (infos : list PartInfo) : list (string * string) :=
  flat_map
    (fun info =>
       match info_forward info, info_name info with
       | JStr f, JStr n => [(f, n)]
       | _, _ => []
       end)
    infos.

End Spec.

(* ================================================================== *)
(** * Specifications of computations *)
(* ================================================================== *)

Module Logic.

Import PartTheme.

(** [obeys R F O m]: every run of [m] takes a state to a state related to
    it by [R]; it throws only if [F] holds and reaches the recursion bound
    only if [O] holds. *)
Definition obeys {A} (R : World -> World -> Prop) (F O : Prop) (m : M A) : Prop :=
  forall w,
    match m w with
    | Ok _ w' => R w w'
    | Fault w' => F /\ R w w'
    | OutOfFuel => O
    end.

(** A computation that always completes normally. *)
Definition total {A} (m : M A) : Prop :=
  forall w, exists a w', m w = Ok a w'.

(** No constraint on the states. *)
Definition anyWorld (_ _ : World) : Prop := True.

(** The number of runs of [initializeParts] recorded for an element. *)
Fixpoint countScans (e : Element) (l : list Element) : nat :=
  match l with
  | [] => 0
  | x :: l' => (if Nat.eqb x e then 1 else 0) + countScans e l'
  end.

(** What a step taken while [e] is being initialized may change: the part
    data and the style text of [e], and ids that were not assigned yet. *)
Definition onlyAt (e : Element) (w w' : World) : Prop :=
  (forall e', e' <> e -> cssParts w' !! e' = cssParts w !! e')
  /\ (forall e', e' <> e -> styles w' !! e' = styles w !! e')
  /\ (forall e' id, partIds w !! e' = Some id -> partIds w' !! e' = Some id)
  /\ scans w' = scans w
  /\ queries w' = queries w.

(** The scan log agrees with the cache: an element is scanned at most
    once, and not at all while it has no part data. *)
Definition scanInv (w : World) : Prop :=
  forall e,
    countScans e (scans w) <= 1
    /\ (cssParts w !! e = None -> countScans e (scans w) = 0).

(** What any step of the library preserves: part data once stored, the
    style text and the scan count of an element that has part data, and
    ids once assigned. *)
Definition cacheStable (w w' : World) : Prop :=
  (forall e r, cssParts w !! e = Some r -> cssParts w' !! e = Some r)
  /\ (forall e, cssParts w !! e <> None -> styles w' !! e = styles w !! e)
  /\ (forall e, cssParts w !! e <> None ->
                countScans e (scans w') = countScans e (scans w))
  /\ (forall e id, partIds w !! e = Some id -> partIds w' !! e = Some id)
  /\ (scanInv w -> scanInv w').

(** The declarations of the [::part] and [::theme] rules of a style text. *)
Definition declsOf (cssText : string) : list PartDeclaration :=
  flat_map
    (fun sg => match sg with
               | Regex.Match _ cs => [declOfMatch cs]
               | Regex.Text _ => []
               end)
    (Regex.segments cssRe cssText).



(** Two values of [__cssParts] that are the same once the declarations
    that are no theme are left out, those apart whose part name [keep]
    holds of. *)
Definition sameParts (keep : string -> bool)
    (p1 p2 : option (list PartDeclaration)) : Prop :=
  match p1, p2 with
  | None, None => True
  | Some l1, Some l2 =>
      List.filter (fun d => part_isTheme d || keep (part_name d)) l1
      = List.filter (fun d => part_isTheme d || keep (part_name d)) l2
  | _, _ => False
  end.

Definition sameCache (keep : string -> bool)
    (c1 c2 : option (option (list PartDeclaration))) : Prop :=
  match c1, c2 with
  | None, None => True
  | Some p1, Some p2 => sameParts keep p1 p2
  | _, _ => False
  end.

(** Two states that differ at most in declarations that are no theme,
    those apart whose scope and part name [keep] holds of. *)
Definition sameView (keep : Element -> string -> bool) (w1 w2 : World) : Prop :=
  styles w1 = styles w2
  /\ partIds w1 = partIds w2
  /\ partId w1 = partId w2
  /\ scans w1 = scans w2
  /\ queries w1 = queries w2
  /\ forall e, sameCache (keep e) (cssParts w1 !! e) (cssParts w2 !! e).






(** The first token of a string and, if there is one, the second. *)
Definition leadingTokens (s : string) : option (string * option string) :=
  let s1 := JsString.dropWhile JsString.isSpace s in
  if JsString.startsWith JsString.notSpace s1
  then
    let s3 :=
      JsString.dropWhile JsString.isSpace
        (JsString.dropWhile JsString.notSpace s1) in
    Some (JsString.takeWhile JsString.notSpace s1,
          if JsString.startsWith JsString.notSpace s3
          then Some (JsString.takeWhile JsString.notSpace s3)
          else None)
  else None.

(** The calls by which the rest of the library reaches the cache. *)
Inductive call : Type :=
| EnsurePartData (e : Element)
| PartDataForElement (e : Element)
| PartIdForElement (e : Element)
| PropsFromElement (name : string) (container element : Element) (requireTheme : bool)
| PropsForPart (fuel : nat) (name : string) (element : Element) (requireTheme : bool)
| CssForElementDom (fuel : nat) (element : Element).

(** The state a call ends in, when it ends. *)
Definition after {A} (o : outcome A) : option World :=
  match o with
  | Ok _ w => Some w
  | Fault w => Some w
  | OutOfFuel => None
  end.

Definition exec (dom : Dom) (c : call) (w : World) : option World :=
  match c with
  | EnsurePartData e => after (ensurePartData e w)
  | PartDataForElement e => after (partDataForElement e w)
  | PartIdForElement e => after (partIdForElement e w)
  | PropsFromElement name c e rt => after (propsFromElement dom name c e rt w)
  | PropsForPart fuel name e rt => after (propsForPart dom fuel name e rt w)
  | CssForElementDom fuel e => after (cssForElementDom dom fuel e w)
  end.

(** The states reached from [w] by a sequence of calls. *)
Inductive reachable (dom : Dom) (w : World) : World -> Prop :=
| reachable_refl : reachable dom w w
| reachable_step w1 w2 c :
    reachable dom w w1 -> exec dom c w1 = Some w2 -> reachable dom w w2.

End Logic.

(* ================================================================== *)
(** * Concrete documents *)
(* ================================================================== *)

Module Fixtures.

Import JsObj PartTheme Store.

(** The result of a call that completed normally. *)
Definition value {A} (o : outcome A) : option A :=
  match o with
  | Ok a _ => Some a
  | _ => None
  end.

(** The state a call leaves, however it ended. *)
Definition finalWorld {A} (o : outcome A) : option World :=
  match o with
  | Ok _ w => Some w
  | Fault w => Some w
  | OutOfFuel => None
  end.

(** A matcher that throws on the empty selector, as the DOM does, and
    accepts every other selector. *)
Definition lenientMatches (_ : Element) (selector : string) : option bool :=
  match selector with
  | "" => None
  | _ => Some true
  end.

(** Node 0 is the document; the element [n + 1] sits in the shadow tree of
    the element [n] (in the document, for [n = 0]).  No element carries a
    [partmap] attribute or declares constant classes or attributes. *)
Definition chainDom : Dom :=
  mkDom Nat.pred (fun _ => None) (fun _ => CCUndefined) (fun _ => None)
        lenientMatches (fun _ => Some []).

Definition emptyWorld : World := mkWorld ∅ ∅ ∅ 0 [] [].

Definition withStyles (st : list (Element * list string)) : World :=
  mkWorld (list_to_map st) ∅ ∅ 0 [] [].

(** The element 1 styles the part [label] of the element 2 directly; the
    document carries a theme rule for the same part and property. *)
Definition themedWorld : World :=
  withStyles [ (0, ["x-a::theme(label){color:blue}"]);
               (1, ["x-box::part(label){color:red}"]) ].

(** The example of the documentation of [partCssToCustomPropCss], as the
    one style text of the element 1. *)
Definition documentedWorld : World :=
  withStyles [ (1, [".foo::part(bar) { color: red }"]) ].

(** The element 1 has one style text, without any part rule. *)
Definition plainWorld : World :=
  withStyles [ (1, [".box:hover { color: red; }"]) ].

(** The element 1 has a plain style text between two with part rules. *)
Definition mixedWorld : World :=
  withStyles [ (1, [ "x-box::part(label){color:red}";
                     ".box:hover { color: red; }";
                     "x-box::part(icon){margin:0}" ]);
               (2, [ "x-in::part(inner){color:green}" ]) ].


(** As [answeringDom], where the shadow root of every element has one
    node, with the attribute [part="label"]. *)
Definition labelledDom : Dom :=
  mkDom Nat.pred (fun _ => None) (fun _ => CCUndefined) (fun _ => None)
        (fun _ _ => Some true) (fun _ => Some ["label"]).

(** The state a call ends in, or the state it started from when the
    recursion bound was reached. *)
Definition finalWorldOf {A} (o : outcome A) : World :=
  match o with
  | Ok _ w => w
  | Fault w => w
  | OutOfFuel => emptyWorld
  end.

(** As [answeringDom], where no element has a shadow root. *)
Definition lightDom : Dom :=
  mkDom Nat.pred (fun _ => None) (fun _ => CCUndefined) (fun _ => None)
        (fun _ _ => Some true) (fun _ => None).



(** The selector [.dark x-foo#main.big.open[disabled]:hover]. *)
Definition sampleSelector : Spec.selector :=
  [ ("", Spec.mkCluster "" [Spec.Class "dark"]);
    (" ", Spec.mkCluster "x-foo"
            [ Spec.Id "main"; Spec.Class "big"; Spec.Class "open";
              Spec.Attr "disabled" None; Spec.Pseudo false "hover" ]) ].

(** As [chainDom], where every element has the constant class [big] and the
    constant attribute [disabled]. *)
Definition constantsDom : Dom :=
  mkDom Nat.pred (fun _ => None) (fun _ => CCList ["big"]) (fun _ => Some ["disabled"])
        lenientMatches (fun _ => Some []).

(** As [chainDom], with the attribute [partmap="* btn-*"] on one element. *)
Definition forwardingDom (who : Element) : Dom :=
  mkDom Nat.pred (fun e => if Nat.eqb e who then Some "* btn-*" else None)
        (fun _ => CCUndefined) (fun _ => None) lenientMatches (fun _ => Some []).

(** The element 1 styles the part [btn-foo] of the element 2. *)
Definition buttonWorld : World :=
  withStyles [ (1, ["x-mid::part(btn-foo){color:red}"]) ].

(** The declarations of [themedWorld], already cached, with the ids the
    scopes get when they are first used in that order. *)
Definition labelTheme : PartDeclaration :=
  mkPart "x-a" "" "label" [("color", "blue")] true.



(** A store with two property maps and their three buckets. *)
Definition twoMaps : Heap :=
  mkHeap (list_to_map [ (1, [("", 10)]); (2, [("", 20); (":hover", 21)]) ])
         (list_to_map [ (10, [("color", "var(--e0-part-label-color)")]);
                        (20, [("color", "var(--e1-part-label-color)")]);
                        (21, [("margin", "var(--e1-part-label-margin-hover)")]) ]).

End Fixtures.

(* ================================================================== *)
(** * The exported entry points: [applyPartTheme] and [PartThemeMixin] *)
(* ================================================================== *)

Module Mixin.

Import JsString JsObj PartTheme.

(** ** The attributes the mixin observes *)

(** [result.indexOf(x) === -1 && result.push(x)] *)
Definition pushNew (result : list string) (x : string) : list string :=
  if inArray x result then result else (result ++ [x])%list.

(** The keys a [for (attr in array)] loop goes through: the indices of
    the array, as strings. *)
Definition arrayKeys {V} (l : list V) : list string :=
  map ofNat (seq 0 (List.length l)).

(** The array the getter [observedAttributes] computes while the class has
    no [_observedAttributes]; [superObserved] is [super.observedAttributes],
    [None] for [undefined]. *)
Definition computeObserved (superObserved : option (list string))
    (constClasses : ConstClasses) (constAttributes : option (list string))
    : list string :=
  let result := default [] superObserved in
  let result :=
    match constClasses with
    | CCBool true => result
    | _ => pushNew result "class"
    end in
  match constAttributes with
  | Some ((_ :: _) as l) => fold_left pushNew (arrayKeys l) result
  | _ => result
  end.

(** [static get observedAttributes()]: the array returned and the property
    [_observedAttributes] of the class after the call. *)
Definition observedAttributes (cached superObserved : option (list string))
    (constClasses : ConstClasses) (constAttributes : option (list string))
    : list string * option (list string) :=
  match cached with
  | Some result => (result, cached)
  | None =>
      let result := computeObserved superObserved constClasses constAttributes in
      (result, Some result)
  end.

(** ** The page *)

(** The time stamp handed to the callbacks of an animation frame; the
    mixin only compares it for identity. *)
Definition Time : Type := nat.

Record Page : Type := mkPage {
  (** the state of the library *)
  world : World;
  (** for the style elements under the root of an element, in document
      order: whether they carry the attribute [parts]; style elements
      under the roots of different elements are different elements *)
  partsAttr : gmap Element (list bool);
  (** own property [_lastApplyTime]; absent while it is [undefined] *)
  lastApplyTime : gmap Element Time;
  (** instrumentation, not in the source: one entry per call of
      [applyPartTheme], latest first *)
  applied : list Element
}.

Inductive result (A : Type) : Type :=
| Done (a : A) (p : Page)    (* normal completion *)
| Thrown (p : Page)          (* an exception propagates *)
| Unbounded.                 (* the recursion bound of the model was reached *)
Arguments Done {A} a p.
Arguments Thrown {A} p.
Arguments Unbounded {A}.

Definition textsOf (p : Page) (e : Element) : list string :=
  default [] (styles (world p) !! e).

(** One flag for each style element under the root of [e]. *)
Definition flagsOf (p : Page) (e : Element) : list bool :=
  resize (List.length (textsOf p e)) false (default [] (partsAttr p !! e)).

Definition setWorld (p : Page) (w : World) : Page :=
  mkPage w (partsAttr p) (lastApplyTime p) (applied p).

Definition setSheets (p : Page) (e : Element) (texts : list string)
    (flags : list bool) : Page :=
  mkPage (setParts (world p) (<[e := texts]> (styles (world p))) (cssParts (world p)))
         (<[e := flags]> (partsAttr p)) (lastApplyTime p) (applied p).

Definition setLast (p : Page) (e : Element) (time : Time) : Page :=
  mkPage (world p) (partsAttr p) (<[e := time]> (lastApplyTime p)) (applied p).

Definition logApply (p : Page) (e : Element) : Page :=
  mkPage (world p) (partsAttr p) (lastApplyTime p) (e :: applied p).

(** The index of the first flag that is set. *)
Fixpoint firstTrue (flags : list bool) : option nat :=
  match flags with
  | [] => None
  | true :: _ => Some 0
  | false :: flags' => option_map S (firstTrue flags')
  end.

(** [const oldStyle = root.querySelector('style[parts]');
     if (oldStyle) oldStyle.parentNode.removeChild(oldStyle)] *)
Definition removeOldStyle (e : Element) (p : Page) : Page :=
  match firstTrue (flagsOf p e) with
  | Some i => setSheets p e (delete i (textsOf p e)) (delete i (flagsOf p e))
  | None => p
  end.

(** A new [style] element with the attribute [parts] and the text [css],
    appended to the root. *)
Definition appendStyle (e : Element) (css : string) (p : Page) : Page :=
  setSheets p e (textsOf p e ++ [css])%list (flagsOf p e ++ [true])%list.

(** The number of [style[parts]] elements under the root of [e]. *)
Definition countParts (p : Page) (e : Element) : nat :=
  List.length (List.filter (fun b : bool => b) (flagsOf p e)).

(** [applyPartTheme(element)] *)
Definition applyPartTheme (dom : Dom) (fuel : nat) (element : Element) (p : Page)
    : result unit :=
  let p := removeOldStyle element (logApply p element) in
  let container := container dom element in
  if Nat.eqb container element then Done tt p
  else
    match (ensurePartData container ;;; cssForElementDom dom fuel element) (world p) with
    | Ok css w =>
        Done tt match css with
                | "" => setWorld p w
                | _ => appendStyle element css (setWorld p w)
                end
    | Fault w => Thrown (setWorld p w)
    | OutOfFuel => Unbounded
    end.

(** ** The mixin *)

(** [_applyPartTheme(time)] *)
Definition applyPartThemeAt (dom : Dom) (fuel : nat) (element : Element)
    (time : Time) (p : Page) : result unit :=
  if decide (lastApplyTime p !! element = Some time) then Done tt p
  else applyPartTheme dom fuel element (setLast p element time).

(** [_queueApplyPartTheme()], which [connectedCallback] and
    [attributeChangedCallback] end with: one more callback for the next
    animation frame. *)
Definition queueApplyPartTheme (element : Element) (queue : list Element)
    : list Element :=
  (queue ++ [element])%list.

(** An animation frame: the callbacks run in the order in which they were
    queued, with the same time stamp; an exception of a callback is
    reported and the next callback runs. *)
Fixpoint runFrame (dom : Dom) (fuel : nat) (time : Time) (queue : list Element)
    (p : Page) : option Page :=
  match queue with
  | [] => Some p
  | e :: queue' =>
      match applyPartThemeAt dom fuel e time p with
      | Done _ p' | Thrown p' => runFrame dom fuel time queue' p'
      | Unbounded => None
      end
  end.

End Mixin.

(* ================================================================== *)
(** * Further properties of states, texts and selectors *)
(* ================================================================== *)

Module Laws.

Import JsString Regex JsObj PartTheme.

(** Scope ids given out so far lie below the counter and belong to one
    element each. *)
Definition idsFresh (w : World) : Prop :=
  (forall e i, partIds w !! e = Some i -> i < partId w)
  /\ (forall e1 e2 i, partIds w !! e1 = Some i -> partIds w !! e2 = Some i -> e1 = e2).

(** Fresh ids stay fresh, and ids given out stay. *)
Definition idsKept (w w' : World) : Prop :=
  (idsFresh w -> idsFresh w')
  /\ (forall e i, partIds w !! e = Some i -> partIds w' !! e = Some i).

(** The number of style elements under each root stays. *)
Definition sheetsKept (w w' : World) : Prop :=
  forall e,
    List.length (default [] (styles w' !! e)) = List.length (default [] (styles w !! e)).

Definition isDigit (c : ascii) : bool :=
  let n := nat_of_ascii c in Nat.leb 48 n && Nat.leb n 57.

(** The text has two colons in a row somewhere. *)
Fixpoint hasDoubleColon (s : string) : bool :=
  match s with
  | String ":" (String ":" _) => true
  | String _ s' => hasDoubleColon s'
  | "" => false
  end.

(** [t] is [s] with some characters deleted. *)
Inductive deletion : string -> string -> Prop :=
| deletion_nil : deletion "" ""
| deletion_keep c s t : deletion s t -> deletion (String c s) (String c t)
| deletion_drop c s t : deletion s t -> deletion (String c s) t.

(** The characters a component matched by [constSelectorRe] starts with. *)
Definition opensComponent (c : ascii) : bool :=
  ascii_eqb c "." || ascii_eqb c ":" || ascii_eqb c "[".

Definition notColon (c : ascii) : bool := negb (ascii_eqb c ":").
Definition notSemicolon (c : ascii) : bool := negb (ascii_eqb c ";").

(** The keys that are no array index. *)
Definition noIndex (k : string) : bool :=
  match arrayIndex k with Some _ => false | None => true end.

(** Enumeration order: the array indices come first, from [least] on and
    never descending, and no array index follows another key. *)
Fixpoint indicesFirst (least : N) (l : list string) : bool :=
  match l with
  | [] => true
  | k :: l' =>
      match arrayIndex k with
      | Some n => N.leb least n && indicesFirst n l'
      | None => forallb noIndex l'
      end
  end.

(** What stands before the first colon of a declaration, and what follows
    that colon. *)
Definition beforeColon (s : string) : string := takeWhile notColon s.

Definition afterColon (s : string) : string :=
  match dropWhile notColon s with
  | String _ t => t
  | "" => ""
  end.

(** What one declaration adds to the properties read so far: nothing when
    it is blank; otherwise the name before its first colon and the value
    behind that colon, both trimmed. *)
Definition declStep (props : jsobj string) (prop : string) : jsobj string :=
  match trim prop with
  | "" => props
  | decl => put props (trim (beforeColon decl)) (trim (afterColon decl))
  end.



(** The text of one rule: white space, a selector, [::part] or
    [::theme], the part name in parentheses, an end selector, and the
    declaration block, with white space before the brace and behind it. *)
Definition kindText (isTheme : bool) : string :=
  if isTheme then "::theme" else "::part".

Definition ruleSource (isTheme : bool) (w0 sel name endSel w1 w2 body : string)
    : string :=
  w0 +:+ sel +:+ kindText isTheme +:+ "(" +:+ name +:+ ")" +:+ endSel +:+ w1
  +:+ "{" +:+ w2 +:+ body +:+ "}".

(** The pieces are what their places say: the white space is white space;
    the selector stays on its line and starts with no white space; the
    name is not empty and has no [)]; the end selector has no white space
    and no brace; the block has no closing brace and starts with no white
    space; and no [::] stands in the name, the end selector or the block. *)
Definition ruleShape (w0 sel name endSel w1 w2 body : string) : bool :=
  allChars isSpace w0 && allChars isSpace w1 && allChars isSpace w2
  && allChars (fun c => negb (isLineTerminator c)) sel
  && negb (startsWith isSpace sel)
  && startsWith (fun _ => true) name
  && allChars (fun c => negb (ascii_eqb c ")")) name
  && negb (hasDoubleColon name)
  && allChars (fun c => negb (isSpace c || ascii_eqb c "{")) endSel
  && negb (hasDoubleColon endSel)
  && allChars (fun c => negb (ascii_eqb c "}")) body
  && negb (startsWith isSpace body)
  && negb (hasDoubleColon body).

(** [w'] has the part data and the ids of [w], and maybe more. *)
Definition extends (w w' : World) : Prop :=
  (forall e r, cssParts w !! e = Some r -> cssParts w' !! e = Some r)
  /\ (forall e i, partIds w !! e = Some i -> partIds w' !! e = Some i).





(** [x] is [e] or one of the scopes above it. *)
Definition onChain (dom : Dom) (e x : Element) : Prop :=
  exists n, Nat.iter n (container dom) e = x.

(** The calls of the matcher between two states were all about [e] or a
    scope above it. *)
Definition asksAbout (dom : Dom) (e : Element) (w w' : World) : Prop :=
  exists new,
    queries w' = (new ++ queries w)%list
    /\ Forall (fun q : Element * string => onChain dom e (fst q)) new.

End Laws.

(* ================================================================== *)
(** * Concrete pages *)
(* ================================================================== *)

Module Pages.

Import PartTheme Mixin Fixtures.

(** A page on which the mixin did nothing yet and no style element carries
    the attribute [parts]. *)
Definition freshPage (w : World) : Page := mkPage w ∅ ∅ [].



(** The page of [themedWorld] after a frame for which the element 2 queued
    three callbacks. *)
Definition framePage : Page :=
  default (freshPage themedWorld)
          (runFrame labelledDom 3 7
             (queueApplyPartTheme 2 (queueApplyPartTheme 2 (queueApplyPartTheme 2 [])))
             (freshPage themedWorld)).

End Pages.

(* ================================================================== *)
(** * Properties *)
(* ================================================================== *)

Import JsString Regex JsObj PartTheme Logic Fixtures.

(** ** Objects *)

Section JsObjFacts.
Context {V : Type}.
Implicit Types (o : jsobj V) (k : string) (v : V).

Lemma get_set o k k' v :
  get (set o k v) k' = if String.eqb k' k then Some v else get o k'.
Proof.
  induction o as [|[k0 v0] o IH]; simpl.
  - reflexivity.
  - destruct (String.eqb_spec k k0) as [->|Hk]; simpl.
    + destruct (String.eqb_spec k' k0); reflexivity.
    + rewrite IH. destruct (String.eqb_spec k' k0) as [->|]; [|reflexivity].
      destruct (String.eqb_spec k0 k); congruence.
Qed.

Lemma get_set_eq o k v : get (set o k v) k = Some v.
Proof. rewrite get_set, String.eqb_refl. reflexivity. Qed.

Lemma get_set_ne o k k' v : k' <> k -> get (set o k v) k' = get o k'.
Proof. intros H. rewrite get_set. destruct (String.eqb_spec k' k); congruence. Qed.

Lemma get_None_keys o k : get o k = None <-> k ∉ keys o.
Proof.
  induction o as [|[k0 v0] o IH]; simpl.
  - split; [intros _; apply not_elem_of_nil | reflexivity].
  - rewrite not_elem_of_cons. destruct (String.eqb_spec k k0) as [->|Hk].
    + split; [discriminate | intros [H _]; congruence].
    + rewrite IH. tauto.
Qed.

Lemma get_Some_keys o k v : get o k = Some v -> k ∈ keys o.
Proof.
  intros H. destruct (decide (k ∈ keys o)) as [|n]; [assumption|].
  apply get_None_keys in n. congruence.
Qed.

Lemma get_Some_values o k v : get o k = Some v -> v ∈ map snd o.
Proof.
  induction o as [|[k0 v0] o IH]; simpl; [discriminate|].
  destruct (String.eqb k k0).
  - intros [= ->]. apply list_elem_of_here.
  - intros H. apply list_elem_of_further. auto.
Qed.

Lemma set_fresh_key o k v : get o k = None -> set o k v = o ++ [(k, v)].
Proof.
  induction o as [|[k0 v0] o IH]; simpl; [reflexivity|].
  destruct (String.eqb k k0); [discriminate|].
  intros H. rewrite IH by assumption. reflexivity.
Qed.

Lemma existsb_keys o k : get o k <> None -> existsb (String.eqb k) (keys o) = true.
Proof.
  intros H. apply existsb_exists. exists k. split; [|apply String.eqb_refl].
  apply list_elem_of_In. destruct (get o k) eqn:E; [|congruence].
  eapply get_Some_keys; eassumption.
Qed.

End JsObjFacts.

Section JsObjLoops.
Context {V W : Type}.

(** What a loop that sets the keys [ks] of [src], each to a value computed
    from the key and its value in [src], leaves under one key. *)
Lemma get_fold_set (g : string -> V -> W) (src : jsobj V)
    (ks : list string) (t : jsobj W) k :
  get (fold_left (fun t k => match get src k with
                             | Some v => set t k (g k v)
                             | None => t
                             end) ks t) k
  = if existsb (String.eqb k) ks
    then match get src k with Some v => Some (g k v) | None => get t k end
    else get t k.
Proof.
  revert t. induction ks as [|k0 ks IH]; intros t; cbn [fold_left existsb]; [reflexivity|].
  rewrite IH. destruct (String.eqb_spec k k0) as [->|Hk]; cbn [orb].
  - destruct (get src k0) eqn:E.
    + rewrite get_set_eq. destruct (existsb _ ks); reflexivity.
    + destruct (existsb _ ks); reflexivity.
  - destruct (get src k0) eqn:E; [rewrite get_set_ne by assumption|]; reflexivity.
Qed.

Lemma get_forIn_set (g : string -> V -> W) (src : jsobj V) (t : jsobj W) k :
  get (forIn src (fun t k v => set t k (g k v)) t) k
  = match get src k with Some v => Some (g k v) | None => get t k end.
Proof.
  unfold forIn. rewrite get_fold_set.
  destruct (existsb (String.eqb k) (keys src)) eqn:E; [reflexivity|].
  destruct (get src k) eqn:Es; [|reflexivity].
  rewrite existsb_keys in E by congruence. discriminate.
Qed.

End JsObjLoops.

(** [Object.assign]: the source wins, key by key. *)
Lemma get_assign {V} (t s : jsobj V) k :
  get (assign t s) k = match get s k with Some v => Some v | None => get t k end.
Proof. unfold assign. apply (get_forIn_set (fun _ v => v)). Qed.

(** ** The merge of property maps *)

Lemma propOf_mixBuckets (a b : Props) i p :
  propOf (Some (mixBuckets a b)) i p
  = match propOf (Some b) i p with Some v => Some v | None => propOf (Some a) i p end.
Proof.
  unfold mixBuckets, forIn.
  assert (G : forall ks (a : Props),
    propOf (Some (fold_left (fun (a : Props) i => match get b i with
                                | Some bi => set a i (assign (default [] (get a i)) bi)
                                | None => a end) ks a)) i p
    = if existsb (String.eqb i) ks
      then match propOf (Some b) i p with Some v => Some v | None => propOf (Some a) i p end
      else propOf (Some a) i p).
  { induction ks as [|k0 ks IH]; intros a0; cbn [fold_left existsb]; [reflexivity|].
    rewrite IH. destruct (String.eqb_spec i k0) as [->|Hk]; cbn [orb].
    - unfold propOf. destruct (get b k0) as [bi|] eqn:E.
      + rewrite get_set_eq, get_assign.
        destruct (get bi p) eqn:Ep; [destruct (existsb _ ks); reflexivity|].
        destruct (get a0 k0) eqn:Ea; destruct (existsb _ ks); reflexivity.
      + destruct (existsb _ ks); reflexivity.
    - unfold propOf. destruct (get b k0) as [bi|] eqn:E;
        [rewrite get_set_ne by assumption|]; reflexivity. }
  rewrite G. destruct (existsb (String.eqb i) (keys b)) eqn:E; [reflexivity|].
  destruct (get b i) eqn:Eb.
  - rewrite existsb_keys in E by congruence. discriminate.
  - unfold propOf. rewrite Eb. reflexivity.
Qed.

Lemma get_mixBuckets_None (a b : Props) i :
  get (mixBuckets a b) i = None <-> get a i = None /\ get b i = None.
Proof.
  unfold mixBuckets, forIn.
  assert (G : forall ks (a : Props),
    get (fold_left (fun (a : Props) i => match get b i with
                                | Some bi => set a i (assign (default [] (get a i)) bi)
                                | None => a end) ks a) i = None
    <-> get a i = None /\ (existsb (String.eqb i) ks = true -> get b i = None)).
  { induction ks as [|k0 ks IH]; intros a0; cbn [fold_left existsb].
    - split; [intros H; split; [assumption|discriminate] | tauto].
    - rewrite IH. destruct (String.eqb_spec i k0) as [->|Hk]; cbn [orb].
      + destruct (get b k0) as [bi|] eqn:E.
        * rewrite get_set_eq.
          split; [intros [H _]; discriminate | intros [_ H]; discriminate (H eq_refl)].
        * tauto.
      + destruct (get b k0) as [bi|] eqn:E; [rewrite get_set_ne by assumption|]; tauto. }
  rewrite G. split; [|tauto]. intros [H1 H2]. split; [assumption|].
  destruct (get b i) eqn:Eb; [|reflexivity].
  apply H2. apply existsb_keys. congruence.
Qed.

(** ** The merge on a store of objects *)

Section StoreFacts.
Import Store.
Implicit Types (h : Heap) (a b r : ref) (o : jsobj ref).

Lemma bucketAt_insert_eq m bk r v : bucketAt (mkHeap m (<[r := v]> bk)) r = v.
Proof. unfold bucketAt; cbn [buckets]. rewrite lookup_insert_eq. reflexivity. Qed.

Lemma bucketAt_insert_ne m bk r r' v :
  r <> r' -> bucketAt (mkHeap m (<[r := v]> bk)) r' = default [] (bk !! r').
Proof.
  intros H. unfold bucketAt; cbn [buckets].
  rewrite lookup_insert_ne by assumption. reflexivity.
Qed.

(** Reading a map one bucket of which was rewritten. *)
Lemma read_update_bucket (f g : ref -> jsobj string) o i r :
  NoDup (keys o) -> NoDup (map snd o) -> get o i = Some r ->
  (forall r', r' <> r -> g r' = f r') ->
  map (fun kb => (fst kb, g (snd kb))) o
  = set (map (fun kb => (fst kb, f (snd kb))) o) i (g r).
Proof.
  intros Hk Hr Hi Hf. induction o as [|[k0 r0] o IH]; simpl in *; [discriminate|].
  apply NoDup_cons in Hk as [Hk1 Hk2]. apply NoDup_cons in Hr as [Hr1 Hr2].
  destruct (String.eqb_spec i k0) as [->|Hne].
  - simplify_eq. f_equal. apply map_ext_in. intros [k1 r1] Hin. simpl. f_equal.
    apply Hf. intros ->. apply Hr1. apply list_elem_of_In.
    apply (in_map snd) in Hin. exact Hin.
  - rewrite Hf.
    + f_equal. apply IH; assumption.
    + intros ->. apply Hr1. eapply get_Some_values; eassumption.
Qed.

Lemma read_same (f g : ref -> jsobj string) o :
  (forall r, r ∈ map snd o -> g r = f r) ->
  map (fun kb => (fst kb, g (snd kb))) o = map (fun kb => (fst kb, f (snd kb))) o.
Proof.
  intros H. apply map_ext_in. intros [k r] Hin. simpl. f_equal. apply H.
  apply list_elem_of_In. apply (in_map snd) in Hin. exact Hin.
Qed.

Lemma get_read (f : ref -> jsobj string) o i :
  get (map (fun kb => (fst kb, f (snd kb))) o) i = option_map f (get o i).
Proof.
  induction o as [|[k0 r0] o IH]; simpl; [reflexivity|].
  destruct (String.eqb i k0); [reflexivity|assumption].
Qed.


Lemma mixStep_sound h0 h a b i :
  loopInv h0 h a b -> i ∈ keys (mapAt h0 b) ->
  loopInv h0 (mixStep a b h i) a b
  /\ readProps (mixStep a b h i) a
     = match get (readProps h0 b) i with
       | Some bi => set (readProps h a) i (assign (default [] (get (readProps h a) i)) bi)
       | None => readProps h a
       end.
Proof.
  intros (Hb & Hbk & Hne & Hka & Hkb & Hnd & Hal) Hi.
  destruct (get (mapAt h0 b) i) as [bi|] eqn:Ebi;
    [|apply get_None_keys in Ebi; contradiction].
  assert (Hbi0 : bi ∈ bucketRefs h0 b) by (eapply get_Some_values; eassumption).
  assert (Hbi : bi ∈ bucketRefs h b) by (unfold bucketRefs; rewrite Hb; exact Hbi0).
  pose proof Hnd as (Hd1 & Hd2 & Hd3)%NoDup_app.
  unfold readProps at 2. rewrite get_read, Ebi. cbn [option_map].
  unfold mixStep.
  destruct (get (mapAt h a) i) as [ai|] eqn:Eai.
  - (* the bucket exists *)
    rewrite Eai, Hb, Ebi.
    assert (Hai : ai ∈ bucketRefs h a) by (eapply get_Some_values; eassumption).
    assert (Hab : ai <> bi) by (intros ->; exact (Hd2 bi Hai Hbi)).
    split.
    + split; [exact Hb|]. split.
      * intros r Hr. rewrite <- (Hbk r Hr). unfold bucketAt; cbn [buckets].
        rewrite lookup_insert_ne; [reflexivity|].
        intros ->. apply (Hd2 r Hai). unfold bucketRefs. rewrite Hb. exact Hr.
      * split; [exact Hne|]. split; [exact Hka|]. split; [exact Hkb|]. split; [exact Hnd|].
        intros r Hr. cbn [buckets]. destruct (decide (ai = r)) as [->|Hn].
        -- rewrite lookup_insert_eq. eauto.
        -- rewrite lookup_insert_ne by assumption. apply Hal. exact Hr.
    + unfold readProps. rewrite get_read, Eai. cbn [option_map default].
      change (mapAt {| maps := maps h; buckets := ?x |} a) with (mapAt h a).
      rewrite <- (Hbk bi Hbi0).
      rewrite (read_update_bucket (bucketAt h) _ (mapAt h a) i ai Hka Hd1 Eai).
      * rewrite bucketAt_insert_eq. reflexivity.
      * intros r' Hr'. unfold bucketAt; cbn [buckets].
        rewrite lookup_insert_ne by congruence. reflexivity.
  - (* the bucket is created *)
    set (r := fresh (dom (buckets h))).
    assert (Hr : buckets h !! r = None) by (apply not_elem_of_dom, is_fresh).
    assert (Hra : r ∉ bucketRefs h a ++ bucketRefs h b).
    { intros Hin. apply Hal in Hin. rewrite Hr in Hin. destruct Hin; discriminate. }
    assert (Hrb : forall r', r' ∈ bucketRefs h b -> r <> r').
    { intros r' Hr' ->. apply Hra. apply elem_of_app. right. exact Hr'. }
    assert (Hraa : forall r', r' ∈ bucketRefs h a -> r <> r').
    { intros r' Hr' ->. apply Hra. apply elem_of_app. left. exact Hr'. }
    set (h1 := {| maps := <[a:=set (mapAt h a) i r]> (maps h);
                  buckets := <[r:=[]]> (buckets h) |}).
    assert (Ea1 : mapAt h1 a = mapAt h a ++ [(i, r)]).
    { unfold mapAt at 1, h1; cbn [maps]. rewrite lookup_insert_eq. cbn [default].
      apply set_fresh_key. exact Eai. }
    assert (Eb1 : mapAt h1 b = mapAt h b).
    { unfold mapAt, h1; cbn [maps]. rewrite lookup_insert_ne by assumption. reflexivity. }
    rewrite Ea1, Eb1, Hb, Ebi.
    replace (get (mapAt h a ++ [(i, r)]) i) with (Some r)
      by (rewrite <- set_fresh_key by exact Eai; symmetry; apply get_set_eq).
    assert (Er1 : bucketAt h1 r = []).
    { unfold bucketAt, h1; cbn [buckets]. rewrite lookup_insert_eq. reflexivity. }
    assert (Eo1 : forall r', r <> r' -> bucketAt h1 r' = bucketAt h r').
    { intros r' Hn. unfold bucketAt, h1; cbn [buckets].
      rewrite lookup_insert_ne by assumption. reflexivity. }
    rewrite Er1, (Eo1 bi (Hrb bi Hbi)).
    set (h2 := {| maps := maps h1; buckets := <[r:=assign [] (bucketAt h bi)]> (buckets h1) |}).
    assert (Ea2 : mapAt h2 a = mapAt h a ++ [(i, r)]) by exact Ea1.
    assert (Eb2 : mapAt h2 b = mapAt h b) by exact Eb1.
    assert (Er2 : bucketAt h2 r = assign [] (bucketAt h bi)).
    { unfold bucketAt, h2; cbn [buckets]. rewrite lookup_insert_eq. reflexivity. }
    assert (Eo2 : forall r', r <> r' -> bucketAt h2 r' = bucketAt h r').
    { intros r' Hn. unfold bucketAt, h2, h1; cbn [buckets].
      rewrite !lookup_insert_ne by assumption. reflexivity. }
    split.
    + split; [rewrite Eb2; exact Hb|]. split.
      * intros r' Hr'. rewrite <- (Hbk r' Hr'). apply Eo2. apply Hrb.
        unfold bucketRefs. rewrite Hb. exact Hr'.
      * split; [exact Hne|]. unfold bucketRefs. rewrite Ea2, Eb2.
        split.
        { unfold keys. rewrite map_app. cbn [map fst].
          apply NoDup_app. split; [exact Hka|]. split; [|apply NoDup_singleton].
          intros x Hx Hx'. apply list_elem_of_singleton in Hx' as ->.
          apply get_None_keys in Eai. contradiction. }
        split; [exact Hkb|]. split.
        { rewrite map_app. cbn [map snd]. rewrite <- app_assoc. cbn [app].
          apply NoDup_app. split; [exact Hd1|]. split.
          - intros x Hx Hx'. apply elem_of_cons in Hx' as [->|Hx'].
            + exact (Hraa r Hx eq_refl).
            + exact (Hd2 x Hx Hx').
          - apply NoDup_cons. split; [|exact Hd3].
            intros Hx. exact (Hrb r Hx eq_refl). }
        { intros r' Hr'. unfold h2, h1; cbn [buckets].
          destruct (decide (r = r')) as [->|Hn].
          - rewrite lookup_insert_eq. eauto.
          - rewrite !lookup_insert_ne by assumption. apply Hal.
            rewrite map_app in Hr'. cbn [map snd] in Hr'.
            rewrite !elem_of_app in Hr'. rewrite elem_of_app.
            destruct Hr' as [[H|H]|H]; [left; exact H | | right; exact H].
            apply list_elem_of_singleton in H. congruence. }
    + unfold readProps at 1. rewrite Ea2, map_app. cbn [map fst snd].
      unfold readProps. rewrite get_read, Eai. cbn [option_map default].
      rewrite set_fresh_key by (rewrite get_read, Eai; reflexivity).
      rewrite Er2, <- (Hbk bi Hbi0). f_equal.
      apply read_same. intros r' Hr'. apply Eo2. apply Hraa. exact Hr'.
Qed.

Lemma mixLoop_sound h0 a b ks h :
  loopInv h0 h a b -> (forall i, i ∈ ks -> i ∈ keys (mapAt h0 b)) ->
  loopInv h0 (fold_left (mixStep a b) ks h) a b
  /\ readProps (fold_left (mixStep a b) ks h) a
     = fold_left (fun (x : Props) i =>
                    match get (readProps h0 b) i with
                    | Some bi => set x i (assign (default [] (get x i)) bi)
                    | None => x
                    end) ks (readProps h a).
Proof.
  revert h. induction ks as [|i ks IH]; intros h Hinv Hks; cbn [fold_left].
  - split; [assumption|reflexivity].
  - destruct (mixStep_sound h0 h a b i Hinv) as [Hinv' Hread].
    { apply Hks. apply list_elem_of_here. }
    destruct (IH (mixStep a b h i) Hinv') as [Hinv'' Hread'].
    { intros j Hj. apply Hks. apply list_elem_of_further. exact Hj. }
    split; [assumption|]. rewrite Hread', Hread. reflexivity.
Qed.

Lemma keys_readProps h r : keys (readProps h r) = keys (mapAt h r).
Proof. unfold readProps, keys. rewrite map_map. reflexivity. Qed.

(** The merge on references computes the merge on values, in place. *)
Lemma mixPartProps_refines h a b :
  separated h a b ->
  let h' := snd (Store.mixPartProps (Some a) (Some b) h) in
  readProps h' a = mixBuckets (readProps h a) (readProps h b)
  /\ readProps h' b = readProps h b.
Proof.
  intros Hsep. cbn [Store.mixPartProps snd].
  destruct (mixLoop_sound h a b (keys (mapAt h b)) h) as [(Hb & Hbk & _) Hread].
  - split; [reflexivity|]. split; [reflexivity|exact Hsep].
  - auto.
  - split.
    + rewrite Hread. unfold mixBuckets, forIn. rewrite keys_readProps. reflexivity.
    + unfold readProps. rewrite Hb. apply read_same. intros r Hr. apply Hbk. exact Hr.
Qed.
End StoreFacts.

(** ** Claims about the merge *)

(** C1, as amended.  When two property maps are merged, [a] the nearer one
    and [b] the further one, the result has a bucket under exactly the keys
    of [a] and the keys of [b], and in each bucket a property supplied by
    [b] carries the value of [b], also when [a] supplied it too; a property
    of [a] keeps its value only where [b] has none. *)
Theorem C1_merge_further_value_wins (a b : Props) (i p : string) :
  (get (mixBuckets a b) i = None <-> get a i = None /\ get b i = None)
  /\ propOf (mixPartProps (Some a) (Some b)) i p
     = match propOf (Some b) i p with
       | Some v => Some v
       | None => propOf (Some a) i p
       end.
Proof.
  split.
  - apply get_mixBuckets_None.
  - cbn [mixPartProps]. apply propOf_mixBuckets.
Qed.

(** C1 fails as stated: the element 1 declares [color] for the part [label]
    of the element 2 directly, the document declares it in a theme rule, and
    the resolved value is the one of the theme rule of the document, not the
    one of the direct declaration. *)
Lemma C1_direct_value_is_replaced :
  value (propsFromElement chainDom "label" 1 2 false themedWorld)
    = Some (Some [("", [("color", "var(--e0-part-label-color)")])])
  /\ value (propsForPart chainDom 3 "label" 2 false themedWorld)
    = Some (Some [("", [("color", "var(--e1-part-label-color)")])])
  /\ propOf (mixPartProps (Some [("", [("color", "var(--e0-part-label-color)")])])
                          (Some [("", [("color", "var(--e1-part-label-color)")])]))
            "" "color"
     <> propOf (Some [("", [("color", "var(--e0-part-label-color)")])]) "" "color".
Proof.
  split; [vm_compute; reflexivity|].
  split; [vm_compute; reflexivity|].
  vm_compute. discriminate.
Qed.

(** C10.  Merging a present map with an absent one returns the present map
    itself and leaves the store as it is, on either side; merging two
    present maps returns the reference of the first one, whose object then
    holds the merge of the two (for maps that share no bucket). *)
Theorem C10_merge_identity_and_in_place (h : Store.Heap) (a b : Store.ref) :
  Store.mixPartProps (Some a) None h = (Some a, h)
  /\ Store.mixPartProps None (Some b) h = (Some b, h)
  /\ fst (Store.mixPartProps (Some a) (Some b) h) = Some a
  /\ (Store.separated h a b ->
      Store.readProps (snd (Store.mixPartProps (Some a) (Some b) h)) a
      = mixBuckets (Store.readProps h a) (Store.readProps h b)
      /\ Store.readProps (snd (Store.mixPartProps (Some a) (Some b) h)) b
         = Store.readProps h b).
Proof.
  split; [reflexivity|]. split; [reflexivity|]. split; [reflexivity|].
  intros Hsep. apply mixPartProps_refines. exact Hsep.
Qed.

Lemma twoMaps_separated : Store.separated twoMaps 1 2.
Proof.
  split; [discriminate|].
  split; [apply (bool_decide_unpack _); vm_compute; exact I|].
  split; [apply (bool_decide_unpack _); vm_compute; exact I|].
  split; [apply (bool_decide_unpack _); vm_compute; exact I|].
  intros r Hr. vm_compute in Hr.
  repeat (apply elem_of_cons in Hr as [->|Hr]); [vm_compute; eauto ..|].
  apply elem_of_nil in Hr. contradiction.
Defined.

Lemma C10_merge_twoMaps :
  Store.separated twoMaps 1 2
  /\ Store.readProps (snd (Store.mixPartProps (Some 1) (Some 2) twoMaps)) 1
     = [ ("", [("color", "var(--e1-part-label-color)")]);
         (":hover", [("margin", "var(--e1-part-label-margin-hover)")]) ].
Proof.
  split; [exact twoMaps_separated|].
  destruct (C10_merge_identity_and_in_place twoMaps 1 2) as (_ & _ & _ & H).
  destruct (H twoMaps_separated) as [E _].
  etransitivity; [exact E|]. vm_compute. reflexivity.
Defined.

(** ** Computations *)

Section Obeys.
Context (R : World -> World -> Prop) (F O : Prop).
Hypothesis Rrefl : forall w, R w w.
Hypothesis Rtrans : forall w1 w2 w3, R w1 w2 -> R w2 w3 -> R w1 w3.

Lemma obeys_ret {A} (a : A) : obeys R F O (ret a).
Proof. intros w. apply Rrefl. Qed.

Lemma obeys_bind {A B} (m : M A) (k : A -> M B) :
  obeys R F O m -> (forall a, obeys R F O (k a)) -> obeys R F O (bind m k).
Proof.
  intros Hm Hk w. unfold bind. specialize (Hm w).
  destruct (m w) as [a w1|w1|]; [|exact Hm|exact Hm].
  specialize (Hk a w1). destruct (k a w1) as [b w2|w2|].
  - eapply Rtrans; eassumption.
  - destruct Hk as [HF Hk]. split; [exact HF|]. eapply Rtrans; eassumption.
  - exact Hk.
Qed.

Lemma obeys_foldM {A B} (f : B -> A -> M B) (l : list A) (b : B) :
  (forall b x, obeys R F O (f b x)) -> obeys R F O (foldM f l b).
Proof.
  intros Hf. revert b. induction l as [|x l IH]; intros b; cbn [foldM].
  - apply obeys_ret.
  - apply obeys_bind; [apply Hf|]. intros b'. apply IH.
Qed.

Lemma obeys_orThrow {A} (o : option A) : (o = None -> F) -> obeys R F O (orThrow o).
Proof.
  intros H w. destruct o as [a|]; cbn.
  - apply Rrefl.
  - split; [apply H; reflexivity|apply Rrefl].
Qed.

Lemma obeys_total {A} (m : M A) :
  total m -> (forall w a w', m w = Ok a w' -> R w w') -> obeys R F O m.
Proof.
  intros Ht HR w. destruct (Ht w) as (a & w' & E). rewrite E. eapply HR. exact E.
Qed.
End Obeys.

Lemma total_ret {A} (a : A) : total (ret a).
Proof. intros w. eexists _, _. reflexivity. Qed.

Lemma total_bind {A B} (m : M A) (k : A -> M B) :
  total m -> (forall a, total (k a)) -> total (bind m k).
Proof.
  intros Hm Hk w. destruct (Hm w) as (a & w1 & E). unfold bind. rewrite E. apply Hk.
Qed.

Lemma total_foldM {A B} (f : B -> A -> M B) (l : list A) (b : B) :
  (forall b x, total (f b x)) -> total (foldM f l b).
Proof.
  intros Hf. revert b. induction l as [|x l IH]; intros b; cbn [foldM].
  - apply total_ret.
  - apply total_bind; [apply Hf|]. intros b'. apply IH.
Qed.

Lemma total_getWorld : total getWorld.
Proof. intros w. eexists _, _. reflexivity. Qed.

Lemma total_putWorld w0 : total (putWorld w0).
Proof. intros w. eexists _, _. reflexivity. Qed.

(** The cache and the ids never throw and need no recursion bound. *)
Ltac total_step :=
  first [ apply total_ret | apply total_getWorld | apply total_putWorld
        | apply total_bind; [|intros ?]
        | apply total_foldM; intros ? ? ].

Lemma total_partIdForElement e : total (partIdForElement e).
Proof.
  unfold partIdForElement. apply total_bind; [apply total_getWorld|]. intros w.
  destruct (partIds w !! e); repeat total_step.
Qed.

Lemma total_partCssToCustomPropCss e text : total (partCssToCustomPropCss e text).
Proof.
  unfold partCssToCustomPropCss. apply total_foldM. intros acc [t|m cs].
  - apply total_ret.
  - apply total_bind; [apply total_partIdForElement|]. intros id. apply total_ret.
Qed.

Lemma total_initializeStyle e i text : total (initializeStyle e i text).
Proof.
  unfold initializeStyle. apply total_bind; [apply total_partCssToCustomPropCss|].
  intros [[parts|] css]; cbn [fst snd]; repeat total_step.
Qed.

Lemma total_initializeStyles e texts : forall i, total (initializeStyles e i texts).
Proof.
  induction texts as [|t texts IH]; intros i; cbn [initializeStyles].
  - apply total_ret.
  - apply total_bind; [apply total_initializeStyle|]. intros _. apply IH.
Qed.

Lemma total_initializeParts e : total (initializeParts e).
Proof.
  unfold initializeParts. apply total_bind; [apply total_getWorld|]. intros w.
  apply total_bind; [apply total_putWorld|]. intros _.
  apply total_bind; [apply total_initializeStyles|]. intros _.
  apply total_bind; [apply total_getWorld|]. intros w'.
  destruct (default None (cssParts w' !! e)); repeat total_step.
Qed.

Lemma total_ensurePartData e : total (ensurePartData e).
Proof.
  unfold ensurePartData. apply total_bind; [apply total_getWorld|]. intros w.
  destruct (cssParts w !! e); [apply total_ret|apply total_initializeParts].
Qed.

Lemma total_partDataForElement e : total (partDataForElement e).
Proof.
  unfold partDataForElement. apply total_bind; [apply total_ensurePartData|]. intros _.
  repeat total_step.
Qed.

(** ** Attribute grammar: the shape of partmap entries *)

(** An entry of [partInfoFromPartmap] with a string [forward] has a string
    [name]. *)
Lemma partInfoFromPartmap_name attr info f :
  info ∈ partInfoFromPartmap attr -> info_forward info = JStr f ->
  exists n, info_name info = JStr n.
Proof.
  unfold partInfoFromPartmap. intros Hin Hf.
  apply list_elem_of_In, in_flat_map in Hin as (p & _ & Hin). unfold partmapEntry in Hin.
  destruct (partmapMatch p) as [m|]; [|destruct Hin].
  destruct Hin as [<-|[]]. cbn [info_forward info_name] in *.
  destruct (cap 1 m) as [c1|]; [|discriminate]. cbn [ofCapture] in *.
  unfold orElse. destruct (cap 2 m) as [[|c s]|]; cbn; eauto.
Qed.

(** ** The resolution engine, generically in what its steps preserve *)

Section Engine.
Context (dom : Dom) (R : World -> World -> Prop) (F O : Prop).
Hypothesis Rrefl : forall w, R w w.
Hypothesis Rtrans : forall w1 w2 w3, R w1 w2 -> R w2 w3 -> R w1 w3.
Hypothesis partData_obeys : forall e, obeys R F O (partDataForElement e).
Hypothesis partId_obeys : forall e, obeys R F O (partIdForElement e).
Hypothesis matching_obeys : forall e sel, obeys R F O (isMatchingPossible dom e sel).

Lemma obeys_foldM_in {A B} (f : B -> A -> M B) (l : list A) (b : B) :
  (forall b x, x ∈ l -> obeys R F O (f b x)) -> obeys R F O (foldM f l b).
Proof.
  revert b. induction l as [|x l IH]; intros b Hf; cbn [foldM].
  - apply obeys_ret. exact Rrefl.
  - apply obeys_bind; [exact Rtrans| apply Hf; apply list_elem_of_here |].
    intros b'. apply IH. intros b0 y Hy. apply Hf. apply list_elem_of_further. exact Hy.
Qed.

Lemma obeys_propsFromElement name c e rt :
  obeys R F O (propsFromElement dom name c e rt).
Proof.
  unfold propsFromElement. apply obeys_bind; [exact Rtrans|apply partData_obeys|].
  intros [parts|]; [|apply obeys_ret; exact Rrefl].
  apply obeys_bind; [exact Rtrans|apply partId_obeys|]. intros id.
  apply obeys_foldM; [exact Rrefl|exact Rtrans|]. intros props part.
  destruct (_ && _); [|apply obeys_ret; exact Rrefl].
  apply obeys_bind; [exact Rtrans|apply matching_obeys|].
  intros [|]; apply obeys_ret; exact Rrefl.
Qed.

(** The resolution obeys what its steps obey; the recursion bound is not
    reached when it exceeds the depth of the element. *)
Lemma obeys_propsForPart (depth : Element -> nat) :
  (O \/ forall e, container dom e <> e -> depth (container dom e) < depth e) ->
  forall fuel name e rt,
    (O \/ depth e < fuel) -> obeys R F O (propsForPart dom fuel name e rt).
Proof.
  intros Hwf fuel. induction fuel as [|fuel IH]; intros name e rt Hfuel.
  - intros w. cbn. destruct Hfuel as [H|H]; [exact H|lia].
  - cbn [propsForPart]. unfold propsForPartBody.
    destruct (Nat.eqb_spec (container dom e) e) as [Heq|Hne].
    + apply obeys_ret. exact Rrefl.
    + assert (Hup : O \/ depth (container dom e) < fuel).
      { destruct Hfuel as [H|H]; [left; exact H|].
        destruct Hwf as [H'|H']; [left; exact H'|]. right. specialize (H' e Hne). lia. }
      apply obeys_bind; [exact Rtrans|apply obeys_propsFromElement|]. intros props.
      apply obeys_bind; [exact Rtrans|apply IH; exact Hup|]. intros themeProps.
      destruct rt; [apply obeys_ret; exact Rrefl|].
      apply obeys_foldM_in. intros acc info Hin.
      destruct (looseEqStr name (info_forward info) || _) eqn:Happlies;
        [|apply obeys_ret; exact Rrefl].
      assert (Hname : exists n, info_name info = JStr n).
      { destruct (info_forward info) as [| |f] eqn:Ef; try discriminate Happlies.
        eapply partInfoFromPartmap_name; eassumption. }
      destruct Hname as [n ->].
      apply obeys_bind; [exact Rtrans|apply IH; exact Hup|]. intros forwarded.
      apply obeys_ret. exact Rrefl.
Qed.

Hypothesis ensure_obeys : forall e, obeys R F O (ensurePartData e).

Lemma obeys_cssForElementDom (depth : Element -> nat) :
  (O \/ forall e, container dom e <> e -> depth (container dom e) < depth e) ->
  (forall e, shadowParts dom e = None -> F) ->
  forall fuel e, (O \/ depth e < fuel) -> obeys R F O (cssForElementDom dom fuel e).
Proof.
  intros Hwf Hshadow fuel e Hfuel. unfold cssForElementDom.
  apply obeys_bind; [exact Rtrans|apply ensure_obeys|]. intros _.
  apply obeys_bind; [exact Rtrans|apply partId_obeys|]. intros _.
  apply obeys_bind; [exact Rtrans|apply obeys_orThrow; [exact Rrefl|apply Hshadow]|].
  intros partAttrs. apply obeys_foldM; [exact Rrefl|exact Rtrans|]. intros css attr.
  apply obeys_bind; [exact Rtrans| |intros rule; apply obeys_ret; exact Rrefl].
  unfold ruleForPartInfo. apply obeys_foldM; [exact Rrefl|exact Rtrans|]. intros text info.
  destruct (info_name info); try (apply obeys_ret; exact Rrefl).
  destruct (truthy (info_forward info)); [apply obeys_ret; exact Rrefl|].
  apply obeys_bind; [exact Rtrans|apply obeys_propsForPart with (depth := depth); assumption|].
  intros [props|]; apply obeys_ret; exact Rrefl.
Qed.
End Engine.

(** ** Termination *)

Lemma bind_ext {A B} (m : M A) (k1 k2 : A -> M B) w :
  (forall a w', k1 a w' = k2 a w') -> bind m k1 w = bind m k2 w.
Proof. intros H. unfold bind. destruct (m w); [apply H|reflexivity|reflexivity]. Qed.

Lemma foldM_ext {A B} (f g : B -> A -> M B) (l : list A) :
  (forall b x w, f b x w = g b x w) -> forall b w, foldM f l b w = foldM g l b w.
Proof.
  intros H. induction l as [|x l IH]; intros b w; cbn [foldM]; [reflexivity|].
  unfold bind. rewrite H. destruct (g b x w); [apply IH|reflexivity|reflexivity].
Qed.

(** Past the depth of the element, one more unit of the bound changes nothing. *)
Lemma propsForPart_more_fuel (dom : Dom) (depth : Element -> nat) :
  (forall e, container dom e <> e -> depth (container dom e) < depth e) ->
  forall fuel name e rt w,
    depth e < fuel ->
    propsForPart dom (S fuel) name e rt w = propsForPart dom fuel name e rt w.
Proof.
  intros Hwf fuel. induction fuel as [|fuel IH]; intros name e rt w Hfuel; [lia|].
  change (propsForPartBody dom (propsForPart dom (S fuel)) name e rt w
          = propsForPartBody dom (propsForPart dom fuel) name e rt w).
  unfold propsForPartBody.
  destruct (Nat.eqb_spec (container dom e) e) as [Heq|Hne]; [reflexivity|].
  assert (Hup : depth (container dom e) < fuel) by (specialize (Hwf e Hne); lia).
  apply bind_ext. intros props w1. unfold bind at 1 3. rewrite IH by exact Hup.
  destruct (propsForPart dom fuel name (container dom e) true w1) as [themeProps w2| |];
    [|reflexivity|reflexivity].
  destruct rt; [reflexivity|].
  apply foldM_ext. intros acc info w3.
  destruct (looseEqStr name (info_forward info) || _); [|reflexivity].
  destruct (info_name info); try reflexivity.
  unfold bind. rewrite IH by exact Hup. reflexivity.
Qed.

Lemma propsForPart_enough_fuel (dom : Dom) (depth : Element -> nat) :
  (forall e, container dom e <> e -> depth (container dom e) < depth e) ->
  forall fuel name e rt w,
    depth e < fuel ->
    propsForPart dom fuel name e rt w = propsForPart dom (S (depth e)) name e rt w.
Proof.
  intros Hwf fuel name e rt w Hfuel.
  induction fuel as [|fuel IH]; [lia|].
  destruct (decide (depth e < fuel)) as [Hlt|Hge].
  - rewrite (propsForPart_more_fuel dom depth Hwf) by exact Hlt. apply IH. exact Hlt.
  - replace fuel with (depth e) by lia. reflexivity.
Qed.

(** C9.  In a tree of scopes, where the container of a node that is not
    its own container lies strictly nearer to the top, the resolution of a
    part name returns once the recursion bound exceeds the depth of the
    node, with a result that no longer depends on the bound; and a node that
    is its own container resolves to nothing at once. *)
Theorem C9_resolution_terminates (dom : Dom) (depth : Element -> nat)
    (name : string) (element : Element) (requireTheme : bool) (w : World) :
  (forall e, container dom e <> e -> depth (container dom e) < depth e) ->
  (forall fuel, depth element < fuel ->
     propsForPart dom fuel name element requireTheme w <> OutOfFuel
     /\ propsForPart dom fuel name element requireTheme w
        = propsForPart dom (S (depth element)) name element requireTheme w)
  /\ (container dom element = element ->
      forall fuel, propsForPart dom (S fuel) name element requireTheme w = Ok None w).
Proof.
  intros Hwf. split.
  - intros fuel Hfuel. split.
    + pose proof (obeys_propsForPart dom anyWorld True False
                    (fun _ => I) (fun _ _ _ _ _ => I)) as H.
      specialize (H (fun e => obeys_total anyWorld True False _
                              (total_partDataForElement e) (fun _ _ _ _ => I))).
      specialize (H (fun e => obeys_total anyWorld True False _
                              (total_partIdForElement e) (fun _ _ _ _ => I))).
      assert (Hm : forall e sel, obeys anyWorld True False (isMatchingPossible dom e sel)).
      { intros e sel w0. unfold isMatchingPossible, bind, getWorld, putWorld, orThrow.
        destruct (matches dom e _); cbn; [exact I|split; exact I]. }
      specialize (H Hm depth (or_intror Hwf) fuel name element requireTheme
                    (or_intror Hfuel) w).
      intros E. rewrite E in H. exact H.
    + apply propsForPart_enough_fuel; assumption.
  - intros Htop fuel. cbn [propsForPart]. unfold propsForPartBody.
    rewrite Htop, Nat.eqb_refl. reflexivity.
Qed.

(** The chain of scopes of [chainDom] has the depth of its numbering, and
    three levels are enough for the element 2. *)
Lemma C9_chain_resolution_returns :
  propsForPart chainDom 3 "label" 2 false themedWorld <> OutOfFuel.
Proof.
  refine (proj1 (proj1 (C9_resolution_terminates chainDom (fun e => e)
                          "label" 2 false themedWorld _) 3 _)).
  - intros e. cbn. lia.
  - lia.
Defined.

(** ** Faults *)

(** The pre-filter hands the pruned selector to [element.matches] whatever
    it is, and answers what the call answers. *)
Lemma isMatchingPossible_run (dom : Dom) (e : Element) (sel : string) (w : World) :
  isMatchingPossible dom e sel w
  = let pruned := constSelector (constClasses dom e) (constAttributes dom e) sel in
    match matches dom e pruned with
    | Some b => Ok b (logQuery w e pruned)
    | None => Fault (logQuery w e pruned)
    end.
Proof.
  unfold isMatchingPossible, bind, getWorld, putWorld, orThrow.
  destruct (matches dom e _); reflexivity.
Qed.

(** C8, at the example of the documentation of [partCssToCustomPropCss].
    The rule [.foo::part(bar) { color: red }] of the element 1 has a
    selector that is one class.  For an element 2 below it whose class
    declares no constant classes, the pre-filter prunes the selector to
    the empty string and hands that to the selector-matching primitive,
    which throws on it, as it does in the DOM; the resolution of [bar] for
    the element ends with that fault, whatever else the document is. *)
Theorem C8_class_selected_rule_throws (dom : Dom) (fuel : nat) :
  container dom 2 = 1 ->
  constClasses dom 2 = CCUndefined ->
  matches dom 2 "" = None ->
  constSelector (constClasses dom 2) (constAttributes dom 2) ".foo" = ""
  /\ exists w',
       propsForPart dom (S fuel) "bar" 2 false documentedWorld = Fault w'
       /\ queries w' = [(2, "")].
Proof.
  intros Hc Hcc Hm.
  assert (Hsel : constSelector (constClasses dom 2) (constAttributes dom 2) ".foo" = "").
  { rewrite Hcc. destruct (constAttributes dom 2); vm_compute; reflexivity. }
  split; [exact Hsel|].
  cbn [propsForPart]. unfold propsForPartBody. rewrite Hc. cbn [Nat.eqb].
  unfold bind at 1. unfold propsFromElement, bind at 1.
  destruct (partDataForElement 1 documentedWorld) as [parts w1|w1|] eqn:E1;
    vm_compute in E1; [|discriminate..].
  injection E1 as <- <-. unfold bind at 1.
  match goal with |- context [partIdForElement 1 ?w] =>
    destruct (partIdForElement 1 w) as [id w2|w2|] eqn:E2 end;
    vm_compute in E2; [|discriminate..].
  injection E2 as <- <-.
  cbn [foldM part_name part_isTheme part_selector String.eqb Ascii.eqb Bool.eqb negb andb orb].
  unfold bind at 1. unfold bind at 1. rewrite isMatchingPossible_run. cbn zeta.
  rewrite Hsel, Hm. eexists. split; reflexivity.
Qed.

(** In [chainDom], whose matcher throws on the empty selector and where no
    class declares constants. *)
Lemma C8_documented_rule_throws_in_a_chain :
  container chainDom 2 = 1
  /\ constClasses chainDom 2 = CCUndefined
  /\ matches chainDom 2 "" = None
  /\ constSelector (constClasses chainDom 2) (constAttributes chainDom 2) ".foo" = ""
  /\ exists w',
       propsForPart chainDom 3 "bar" 2 false documentedWorld = Fault w'
       /\ queries w' = [(2, "")].
Proof.
  split; [reflexivity|]. split; [reflexivity|]. split; [reflexivity|].
  exact (C8_class_selected_rule_throws chainDom 2 eq_refl eq_refl eq_refl).
Defined.

(** ** The part-data cache *)

Lemma onlyAt_refl e w : onlyAt e w w.
Proof. repeat split; auto. Qed.

Lemma onlyAt_trans e w1 w2 w3 : onlyAt e w1 w2 -> onlyAt e w2 w3 -> onlyAt e w1 w3.
Proof.
  intros (A1 & A2 & A3 & A4 & A5) (B1 & B2 & B3 & B4 & B5).
  repeat split.
  - intros e' H. rewrite B1, A1 by exact H. reflexivity.
  - intros e' H. rewrite B2, A2 by exact H. reflexivity.
  - auto.
  - congruence.
  - congruence.
Qed.

(** A step that leaves the cache, the style text and the scan log alone. *)
Lemma cacheStable_same_cache w w' :
  cssParts w' = cssParts w -> styles w' = styles w -> scans w' = scans w ->
  (forall e id, partIds w !! e = Some id -> partIds w' !! e = Some id) ->
  cacheStable w w'.
Proof.
  intros Hc Hs Hl Hi. unfold cacheStable, scanInv. rewrite Hc, Hs, Hl.
  split; [auto|]. split; [auto|]. split; [auto|]. split; [exact Hi|]. auto.
Qed.

Lemma cacheStable_refl w : cacheStable w w.
Proof. apply cacheStable_same_cache; auto. Qed.

Lemma cacheStable_trans w1 w2 w3 :
  cacheStable w1 w2 -> cacheStable w2 w3 -> cacheStable w1 w3.
Proof.
  intros (A1 & A2 & A3 & A4 & A5) (B1 & B2 & B3 & B4 & B5).
  assert (K : forall e, cssParts w1 !! e <> None -> cssParts w2 !! e <> None).
  { intros e H. destruct (cssParts w1 !! e) as [r|] eqn:E; [|congruence].
    rewrite (A1 e r E). discriminate. }
  split; [auto|]. split; [|split; [|split; [auto|auto]]].
  - intros e H. rewrite B2, A2 by auto. reflexivity.
  - intros e H. rewrite B3, A3 by auto. reflexivity.
Qed.

(** Assigning an id touches the ids only, and no id already assigned. *)
Lemma partIdForElement_run e w :
  partIdForElement e w
  = match partIds w !! e with
    | Some id => Ok id w
    | None => Ok (partId w) (setIds w (<[e := partId w]> (partIds w)) (S (partId w)))
    end.
Proof.
  unfold partIdForElement, bind, getWorld. destruct (partIds w !! e); reflexivity.
Qed.

Lemma partIds_insert_stable (ids : gmap Element nat) e n e' id :
  ids !! e = None -> ids !! e' = Some id -> <[e := n]> ids !! e' = Some id.
Proof.
  intros Hn H. rewrite lookup_insert_ne; [exact H|]. intros ->. congruence.
Qed.

Lemma partIdForElement_onlyAt e0 e F O : obeys (onlyAt e0) F O (partIdForElement e).
Proof.
  intros w. rewrite partIdForElement_run. destruct (partIds w !! e) eqn:E.
  - apply onlyAt_refl.
  - repeat split; auto. intros e' id H. cbn. eapply partIds_insert_stable; eassumption.
Qed.

Lemma partIdForElement_cacheStable e F O : obeys cacheStable F O (partIdForElement e).
Proof.
  intros w. rewrite partIdForElement_run. destruct (partIds w !! e) eqn:E.
  - apply cacheStable_refl.
  - apply cacheStable_same_cache; try reflexivity.
    intros e' id H. cbn. eapply partIds_insert_stable; eassumption.
Qed.

Lemma isMatchingPossible_cacheStable dom e sel O :
  obeys cacheStable True O (isMatchingPossible dom e sel).
Proof.
  intros w. rewrite isMatchingPossible_run. cbn zeta.
  destruct (matches dom e _); [|split; [exact I|]];
    apply cacheStable_same_cache; auto.
Qed.

Lemma partCssToCustomPropCss_onlyAt e text F O :
  obeys (onlyAt e) F O (partCssToCustomPropCss e text).
Proof.
  unfold partCssToCustomPropCss.
  apply obeys_foldM; [apply onlyAt_refl|apply onlyAt_trans|].
  intros acc [t|m cs].
  - apply obeys_ret. apply onlyAt_refl.
  - apply obeys_bind; [apply onlyAt_trans|apply partIdForElement_onlyAt|].
    intros id. apply obeys_ret. apply onlyAt_refl.
Qed.

Lemma initializeStyle_onlyAt e i text F O : obeys (onlyAt e) F O (initializeStyle e i text).
Proof.
  unfold initializeStyle.
  apply obeys_bind; [apply onlyAt_trans|apply partCssToCustomPropCss_onlyAt|].
  intros [[parts|] css]; cbn [fst snd]; [|apply obeys_ret; apply onlyAt_refl].
  intros w. cbn. unfold setParts. repeat split; auto; cbn.
  - intros e' H. rewrite lookup_insert_ne by congruence. reflexivity.
  - intros e' H. rewrite lookup_insert_ne by congruence. reflexivity.
Qed.

Lemma initializeStyles_onlyAt e texts F O :
  forall i, obeys (onlyAt e) F O (initializeStyles e i texts).
Proof.
  induction texts as [|t texts IH]; intros i; cbn [initializeStyles].
  - apply obeys_ret. apply onlyAt_refl.
  - apply obeys_bind; [apply onlyAt_trans|apply initializeStyle_onlyAt|].
    intros _. apply IH.
Qed.

(** A run of [initializeParts]: it is logged, it leaves part data on the
    element, and it touches no other element. *)
Lemma initializeParts_run e w :
  exists w',
    initializeParts e w = Ok tt w'
    /\ scans w' = e :: scans w
    /\ cssParts w' !! e <> None
    /\ (forall e', e' <> e -> cssParts w' !! e' = cssParts w !! e')
    /\ (forall e', e' <> e -> styles w' !! e' = styles w !! e')
    /\ (forall e' id, partIds w !! e' = Some id -> partIds w' !! e' = Some id).
Proof.
  unfold initializeParts, bind at 1 2, getWorld, putWorld.
  set (texts := default [] (styles w !! e)).
  destruct (total_initializeStyles e texts 0 (logScan w e)) as ([] & w1 & E1).
  pose proof (initializeStyles_onlyAt e texts True True 0 (logScan w e)) as H1.
  rewrite E1 in H1. destruct H1 as (A1 & A2 & A3 & A4 & A5).
  unfold bind. rewrite E1.
  destruct (cssParts w1 !! e) as [[l|]|] eqn:E; cbn.
  - exists w1. rewrite E. repeat split; auto.
  - eexists. split; [reflexivity|]. unfold setParts; cbn. rewrite lookup_insert_eq.
    repeat split; auto; try discriminate.
    intros e' H. rewrite lookup_insert_ne by congruence. auto.
  - eexists. split; [reflexivity|]. unfold setParts; cbn. rewrite lookup_insert_eq.
    repeat split; auto; try discriminate.
    intros e' H. rewrite lookup_insert_ne by congruence. auto.
Qed.

Lemma ensurePartData_run e w :
  ensurePartData e w
  = match cssParts w !! e with
    | Some _ => Ok tt w
    | None => initializeParts e w
    end.
Proof.
  unfold ensurePartData, bind, getWorld. destruct (cssParts w !! e); reflexivity.
Qed.

Lemma countScans_cons_ne e e' l : e' <> e -> countScans e (e' :: l) = countScans e l.
Proof. intros H. cbn. destruct (Nat.eqb_spec e' e); [contradiction|reflexivity]. Qed.

Lemma countScans_cons_eq e l : countScans e (e :: l) = S (countScans e l).
Proof. cbn. rewrite Nat.eqb_refl. reflexivity. Qed.

Lemma ensurePartData_cacheStable e F O : obeys cacheStable F O (ensurePartData e).
Proof.
  intros w. rewrite ensurePartData_run.
  destruct (cssParts w !! e) eqn:E; [apply cacheStable_refl|].
  destruct (initializeParts_run e w) as (w' & -> & Hs & Hc & Hp & Hst & Hid).
  assert (Hne : forall e0, cssParts w !! e0 <> None -> e0 <> e) by (intros e0 H ->; congruence).
  repeat split.
  - intros e0 r H. rewrite Hp; [exact H|]. apply Hne. congruence.
  - intros e0 H. apply Hst. apply Hne. exact H.
  - intros e0 H. rewrite Hs. apply countScans_cons_ne.
    intros Heq. apply (Hne e0 H). congruence.
  - exact Hid.
  - destruct (H e0) as [H1 H2]. rewrite Hs. destruct (decide (e0 = e)) as [->|Hn].
    + rewrite countScans_cons_eq, (H2 E). lia.
    + rewrite countScans_cons_ne by congruence. exact H1.
  - intros H0. destruct (H e0) as [H1 H2]. rewrite Hs. destruct (decide (e0 = e)) as [->|Hn].
    + contradiction.
    + rewrite countScans_cons_ne by congruence. apply H2. rewrite <- Hp by exact Hn. exact H0.
Qed.

Lemma partDataForElement_cacheStable e F O : obeys cacheStable F O (partDataForElement e).
Proof.
  unfold partDataForElement.
  apply obeys_bind; [apply cacheStable_trans|apply ensurePartData_cacheStable|].
  intros _ w. cbn. apply cacheStable_refl.
Qed.

(** A scope that has part data is served from it: the stored value comes
    back and the state is not touched. *)
Lemma partDataForElement_cached e r w :
  cssParts w !! e = Some r -> partDataForElement e w = Ok r w.
Proof.
  intros H. unfold partDataForElement, bind. rewrite ensurePartData_run, H.
  cbn. rewrite H. reflexivity.
Qed.




Lemma reachable_trans dom w1 w2 w3 :
  reachable dom w1 w2 -> reachable dom w2 w3 -> reachable dom w1 w3.
Proof.
  intros H1 H2. induction H2 as [|wa wb c _ IH E]; [exact H1|].
  eapply reachable_step; eassumption.
Qed.

(** *** What the cache holds *)


(** The declarations found in a style text do not depend on the state. *)
Lemma partCssToCustomPropCss_parts e text w :
  exists css w',
    partCssToCustomPropCss e text w
    = Ok (match declsOf text with [] => None | ds => Some ds end, css) w'
    /\ cssParts w' = cssParts w /\ styles w' = styles w.
Proof.
  unfold partCssToCustomPropCss, declsOf.
  assert (G : forall sgs acc css w,
    exists css' w',
      foldM (fun (acc : option (list PartDeclaration) * string) sg =>
               match sg with
               | Text t => ret (fst acc, snd acc +:+ t)
               | Match _ cs =>
                   bind (partIdForElement e)
                     (fun id => ret (Some (default [] (fst acc) ++ [declOfMatch cs]),
                                     snd acc +:+ ruleText id (declOfMatch cs)))
               end) sgs (acc, css) w
      = Ok (match flat_map (fun sg => match sg with
                                      | Match _ cs => [declOfMatch cs]
                                      | Text _ => []
                                      end) sgs with
            | [] => acc
            | ds => Some (default [] acc ++ ds)
            end, css') w'
      /\ cssParts w' = cssParts w /\ styles w' = styles w).
  { induction sgs as [|[t|m cs] sgs IH]; intros acc css w0; cbn [foldM flat_map].
    - eexists _, _. split; [reflexivity|]. auto.
    - unfold bind at 1, ret at 1. cbn [fst snd app]. apply IH.
    - unfold bind at 1 2. rewrite partIdForElement_run.
      destruct (partIds w0 !! e) as [id|]; cbn [fst snd ret].
      + destruct (IH (Some (default [] acc ++ [declOfMatch cs]))
                     (css +:+ ruleText id (declOfMatch cs)) w0) as (css' & w' & E & H).
        exists css', w'. rewrite E. split; [|exact H]. f_equal. f_equal.
        cbn [app]. destruct (flat_map _ sgs); cbn.
        * reflexivity.
        * rewrite <- app_assoc. reflexivity.
      + match goal with |- context [foldM _ sgs (?a, ?c) ?ww] =>
          destruct (IH a c ww) as (css' & w' & E & H1 & H2) end.
        exists css', w'. rewrite E. split; [|split; [exact H1|exact H2]]. f_equal. f_equal.
        cbn [app]. destruct (flat_map _ sgs); cbn.
        * reflexivity.
        * rewrite <- app_assoc. reflexivity. }
  destruct (G (segments cssRe text) None "" w) as (css' & w' & E & H).
  exists css', w'. rewrite E. split; [|exact H].
  destruct (flat_map _ _); reflexivity.
Qed.







(** ** Theme isolation *)

Section Related.
Context (keep : Element -> string -> bool).

Lemma sameView_refl w : sameView keep w w.
Proof.
  repeat split. intros e. destruct (cssParts w !! e) as [[l|]|]; cbn; auto.
Qed.

















End Related.




(** ** Strings *)

Section StringFacts.
Implicit Types (s t u : string).

Lemma str_app_cons c s t : String c s +:+ t = String c (s +:+ t).
Proof. reflexivity. Qed.

Lemma str_app_nil_l s : "" +:+ s = s.
Proof. reflexivity. Qed.

Lemma str_app_nil_r s : s +:+ "" = s.
Proof.
  induction s as [|c s IH]; [reflexivity|]. rewrite str_app_cons, IH. reflexivity.
Qed.

Lemma str_app_assoc s t u : (s +:+ t) +:+ u = s +:+ (t +:+ u).
Proof.
  induction s as [|c s IH]; [reflexivity|]. rewrite !str_app_cons, IH. reflexivity.
Qed.

Lemma str_length_app s t : String.length (s +:+ t) = String.length s + String.length t.
Proof.
  induction s as [|c s IH]; [reflexivity|]. rewrite str_app_cons. cbn [String.length].
  rewrite IH. reflexivity.
Qed.

(** A replacement string without [$] is inserted as it is. *)
Lemma getSubstitution_plain m b a repl :
  contains "$" repl = false -> getSubstitution m b a repl = repl.
Proof.
  induction repl as [|c r IH]; [reflexivity|].
  cbn [contains]. intros H. apply orb_false_elim in H as [Hc Hr].
  destruct (Ascii.eqb_spec "$"%char c) as [<-|Hne]; [discriminate Hc|].
  assert (E : getSubstitution m b a (String c r) = String c (getSubstitution m b a r)).
  { destruct c as [[] [] [] [] [] [] [] []]; try reflexivity. congruence. }
  rewrite E, IH by exact Hr. reflexivity.
Qed.

Lemma replaceChar_from_plain repl before s :
  contains "$" repl = false ->
  replaceChar_from "*" repl before s = before +:+ Spec.substWildcard repl s.
Proof.
  intros Hrepl. revert before. induction s as [|d s IH]; intros before; cbn.
  - symmetry. apply str_app_nil_r.
  - unfold ascii_eqb. destruct (Ascii.eqb d "*").
    + rewrite getSubstitution_plain by exact Hrepl. reflexivity.
    + rewrite IH, str_app_assoc. reflexivity.
Qed.

(** [local.replace('*', name)] for a name without [$]. *)
Lemma replaceChar_plain name local :
  contains "$" name = false -> replaceChar "*" name local = Spec.substWildcard name local.
Proof. intros H. unfold replaceChar. rewrite replaceChar_from_plain by exact H. reflexivity. Qed.
End StringFacts.

(** ** Forwarding *)

(** The loop over the references of the node, in the words of the
    specification. *)
Lemma forwarding_loop (self : string -> Element -> bool -> M (option Props))
    (name : string) (c : Element) (infos : list PartInfo) :
  contains "$" name = false ->
  (forall info f, info ∈ infos -> info_forward info = JStr f ->
                  exists n, info_name info = JStr n) ->
  forall props w,
    foldM
      (fun props info =>
         let catchAll :=
           match info_forward info with
           | JStr f => truthy (JStr f) && contains "*" f
           | _ => false
           end in
         if looseEqStr name (info_forward info) || catchAll
         then
           match info_name info with
           | JStr n =>
               let ancestorName := if catchAll then replaceChar "*" name n else n in
               bind (self ancestorName c false)
                    (fun forwarded => ret (mixPartProps props forwarded))
           | _ => throw
           end
         else ret props)
      infos props w
    = foldM
        (fun props ref =>
           if Spec.forwards name (fst ref)
           then bind (self (Spec.renamed name (fst ref) (snd ref)) c false)
                     (fun forwarded => ret (mixPartProps props forwarded))
           else ret props)
        (Spec.references infos) props w.
Proof.
  intros Hname. induction infos as [|info infos IH]; intros Hinfos props w; [reflexivity|].
  assert (IH' := IH (fun i f Hi => Hinfos i f (list_elem_of_further _ _ _ Hi))).
  pose proof (Hinfos info) as Hinfo. specialize (fun f => Hinfo f (list_elem_of_here _ _)).
  cbn [foldM Spec.references flat_map].
  destruct (info_forward info) as [| |f] eqn:Ef.
  - cbn. apply IH'.
  - cbn. apply IH'.
  - destruct (Hinfo f eq_refl) as [n ->]. cbn [app foldM fst snd].
    assert (Hc : truthy (JStr f) && contains "*" f = contains "*" f).
    { destruct f; reflexivity. }
    rewrite Hc. unfold Spec.forwards, Spec.renamed. cbn [looseEqStr].
    rewrite (String.eqb_sym name f).
    destruct (String.eqb f name || contains "*" f).
    + destruct (contains "*" f); [rewrite replaceChar_plain by exact Hname|];
        apply bind_ext; intros props' w'; apply IH'.
    + unfold bind at 1 2, ret at 1 2. apply IH'.
Qed.

Lemma bind_ret_r {A} (m : M A) w : bind m (fun a => ret a) w = m w.
Proof. unfold bind. destruct (m w); reflexivity. Qed.

(** C3, as amended.  When [requireTheme] is false, the resolution of a
    name for a node reads the [partmap] attribute of the node itself, not of
    its container.  For every parsed reference whose [forward] equals the
    requested name or contains the wildcard marker, it resolves the renamed
    name (the first wildcard of the reference's local name replaced by the
    requested name, for a requested name without [$]) for the container, one
    level further up, and merges the result.  In particular an attribute
    [partmap="* btn-*"] on the node makes a request for the part [foo] also
    resolve the part [btn-foo] of the container. *)
Theorem C3_forwarding_reads_the_partmap_of_the_node
    (dom : Dom) (fuel : nat) (name : string) (element : Element) (w : World) :
  container dom element <> element ->
  contains "$" name = false ->
  propsForPart dom (S fuel) name element false w
  = bind (propsFromElement dom name (container dom element) element false)
      (fun props =>
         bind (propsForPart dom fuel name (container dom element) true)
           (fun themeProps =>
              foldM
                (fun props ref =>
                   if Spec.forwards name (fst ref)
                   then
                     bind (propsForPart dom fuel (Spec.renamed name (fst ref) (snd ref))
                                        (container dom element) false)
                          (fun forwarded => ret (mixPartProps props forwarded))
                   else ret props)
                (Spec.references (partInfoFromPartmap (partmapOf dom element)))
                (mixPartProps props themeProps))) w
  /\ (partmapOf dom element = Some "* btn-*" ->
      propsForPart dom (S fuel) name element false w
      = bind (propsFromElement dom name (container dom element) element false)
          (fun props =>
             bind (propsForPart dom fuel name (container dom element) true)
               (fun themeProps =>
                  bind (propsForPart dom fuel ("btn-" +:+ name)
                                     (container dom element) false)
                       (fun forwarded =>
                          ret (mixPartProps (mixPartProps props themeProps) forwarded)))) w).
Proof.
  intros Htop Hname.
  assert (E : propsForPart dom (S fuel) name element false w
    = bind (propsFromElement dom name (container dom element) element false)
      (fun props =>
         bind (propsForPart dom fuel name (container dom element) true)
           (fun themeProps =>
              foldM
                (fun props ref =>
                   if Spec.forwards name (fst ref)
                   then
                     bind (propsForPart dom fuel (Spec.renamed name (fst ref) (snd ref))
                                        (container dom element) false)
                          (fun forwarded => ret (mixPartProps props forwarded))
                   else ret props)
                (Spec.references (partInfoFromPartmap (partmapOf dom element)))
                (mixPartProps props themeProps))) w).
  { cbn [propsForPart]. unfold propsForPartBody.
    destruct (Nat.eqb_spec (container dom element) element) as [Heq|_]; [contradiction|].
    apply bind_ext. intros props w1. apply bind_ext. intros themeProps w2.
    apply forwarding_loop; [exact Hname|].
    intros info f. apply partInfoFromPartmap_name. }
  split; [exact E|].
  intros Hmap. rewrite E, Hmap.
  apply bind_ext. intros props w1. apply bind_ext. intros themeProps w2.
  change (Spec.references (partInfoFromPartmap (Some "* btn-*")))
    with (Spec.references [mkPartInfo (JStr "btn-*") (JStr "*")]).
  cbn [Spec.references flat_map info_forward info_name app foldM fst snd].
  assert (Hf : Spec.forwards name "*" = true) by exact (orb_true_r _).
  assert (Hr : Spec.renamed name "*" "btn-*" = "btn-" +:+ name).
  { change (Spec.renamed name "*" "btn-*") with ("btn-" +:+ (name +:+ "")).
    rewrite str_app_nil_r. reflexivity. }
  rewrite Hf, Hr. apply bind_ret_r.
Qed.

(** With [partmap="* btn-*"] on the element 3, the request for [foo]
    resolves [btn-foo] for its container. *)
Lemma C3_wildcard_on_the_node :
  container (forwardingDom 3) 3 <> 3
  /\ contains "$" "foo" = false
  /\ partmapOf (forwardingDom 3) 3 = Some "* btn-*"
  /\ propsForPart (forwardingDom 3) 4 "foo" 3 false buttonWorld
     = bind (propsFromElement (forwardingDom 3) "foo" 2 3 false)
         (fun props =>
            bind (propsForPart (forwardingDom 3) 3 "foo" 2 true)
              (fun themeProps =>
                 bind (propsForPart (forwardingDom 3) 3 "btn-foo" 2 false)
                      (fun forwarded =>
                         ret (mixPartProps (mixPartProps props themeProps) forwarded))))
         buttonWorld.
Proof.
  split; [discriminate|]. split; [reflexivity|]. split; [reflexivity|].
  apply (proj2 (C3_forwarding_reads_the_partmap_of_the_node
                  (forwardingDom 3) 3 "foo" 3 buttonWorld
                  ltac:(discriminate) eq_refl)).
  reflexivity.
Defined.

(** C3 fails as stated: with [partmap="* btn-*"] on the container of the
    node (the element 2) and none on the node (the element 3), the request
    for [foo] forwards nothing, although [btn-foo] resolves for the
    container; with the attribute on the node itself it does. *)
Lemma C3_partmap_of_the_container_is_not_read :
  partmapOf (forwardingDom 2) (container (forwardingDom 2) 3) = Some "* btn-*"
  /\ value (propsForPart (forwardingDom 2) 4 "btn-foo" 2 false buttonWorld)
     = Some (Some [("", [("color", "var(--e0-part-btn-foo-color)")])])
  /\ value (propsForPart (forwardingDom 2) 4 "foo" 3 false buttonWorld) = Some None
  /\ value (propsForPart (forwardingDom 3) 4 "foo" 3 false buttonWorld)
     = Some (Some [("", [("color", "var(--e0-part-btn-foo-color)")])]).
Proof.
  split; [reflexivity|]. split; [vm_compute; reflexivity|].
  split; vm_compute; reflexivity.
Qed.

(** ** The matcher *)

Section MatcherFacts.
Context {A : Type}.
Implicit Types (k : string -> captures -> option A) (P : ascii -> bool).

Lemma starLoop_chr P k :
  forall fuel s cs,
    String.length s <= fuel -> starLoop (rmatch (Chr P)) k fuel s cs = starChr P s cs k.
Proof.
  induction fuel as [|fuel IH]; intros s cs H.
  - destruct s; [reflexivity|cbn in H; lia].
  - cbn [starLoop rmatch]. destruct s as [|c s']; [reflexivity|].
    cbn [starChr]. destruct (P c); [|reflexivity].
    cbn [String.length] in H |- *.
    rewrite (proj2 (Nat.ltb_lt _ _)) by lia. rewrite IH by lia. reflexivity.
Qed.

(** A greedy [*] over a character class. *)
Lemma rmatch_star_chr P s cs k : rmatch (Star (Chr P)) s cs k = starChr P s cs k.
Proof. cbn [rmatch]. apply starLoop_chr. lia. Qed.

(** A greedy [+] over a character class. *)
Lemma rmatch_plus_chr P s cs k :
  rmatch (Plus (Chr P)) s cs k
  = match s with
    | String c s' => if P c then starChr P s' cs k else None
    | "" => None
    end.
Proof.
  unfold Plus. cbn [rmatch]. destruct s as [|c s']; [reflexivity|].
  destruct (P c); [|reflexivity]. apply starLoop_chr. lia.
Qed.

(** The longest run is tried first. *)
Lemma starChr_greedy P s cs k x :
  k (dropWhile P s) cs = Some x -> starChr P s cs k = Some x.
Proof.
  induction s as [|c s IH]; cbn [starChr dropWhile]; [auto|].
  destruct (P c); [|auto]. intros H. rewrite (IH H). reflexivity.
Qed.

(** No stop of the run is accepted. *)
Lemma starChr_none P s cs k :
  (forall t, stop P s t -> k t cs = None) -> starChr P s cs k = None.
Proof.
  induction s as [|c s IH]; intros H; cbn [starChr].
  - apply H. constructor.
  - destruct (P c) eqn:Ec.
    + rewrite IH; [apply H; constructor|].
      intros t Ht. apply H. constructor; assumption.
    + apply H. constructor.
Qed.

(** The run backs up to the last stop that is accepted. *)
Lemma starChr_stop P w t cs k x :
  allChars P w = true -> k t cs = Some x ->
  (forall c t', t = String c t' -> P c = true ->
                forall u, stop P t' u -> k u cs = None) ->
  starChr P (w +:+ t) cs k = Some x.
Proof.
  intros Hw Hk Hlater. induction w as [|c w IH].
  - change ("" +:+ t) with t. destruct t as [|c t']; cbn [starChr]; [exact Hk|].
    destruct (P c) eqn:Ec; [|exact Hk].
    rewrite starChr_none; [exact Hk|]. apply (Hlater c t' eq_refl Ec).
  - cbn [allChars] in Hw. apply andb_prop in Hw as [Hc Hw].
    change (String c w +:+ t) with (String c (w +:+ t)). cbn [starChr].
    rewrite Hc, (IH Hw). reflexivity.
Qed.
End MatcherFacts.

Section ScanFacts.
Implicit Types (r : regex) (s t : string).

Lemma takeN_app s t : takeN (String.length (s +:+ t) - String.length t) (s +:+ t) = s.
Proof.
  rewrite str_length_app. replace (_ + _ - _) with (String.length s) by lia.
  induction s as [|c s IH]; cbn [String.length].
  - destruct t; reflexivity.
  - change (String c s +:+ t) with (String c (s +:+ t)). cbn [takeN]. rewrite IH. reflexivity.
Qed.

Lemma takeWhile_dropWhile P s : takeWhile P s +:+ dropWhile P s = s.
Proof.
  induction s as [|c s IH]; [reflexivity|]. cbn [takeWhile dropWhile].
  destruct (P c); [|reflexivity].
  change (String c (takeWhile P s) +:+ dropWhile P s)
    with (String c (takeWhile P s +:+ dropWhile P s)).
  rewrite IH. reflexivity.
Qed.

(** A match at the start of the input is the leftmost one. *)
Lemma search_from_hit r skipped s m cs rest :
  execAt r s = Some (m, cs, rest) -> search_from r skipped s = Some (skipped, m, cs, rest).
Proof. intros H. destruct s; cbn [search_from]; rewrite H; reflexivity. Qed.

(** Without a match at the start, the search moves on by one character. *)
Lemma search_from_miss r skipped c s :
  execAt r (String c s) = None ->
  search_from r skipped (String c s) = search_from r (skipped +:+ String c "") s.
Proof. intros H. cbn [search_from]. rewrite H. reflexivity. Qed.

(** A match that consumes something: the input is cut around it and the
    scan goes on behind it. *)
Lemma segments_loop_match fuel r s skipped m cs rest :
  search r s = Some (skipped, m, cs, rest) -> m <> "" ->
  segments_loop (S fuel) r s = Text skipped :: Match m cs :: segments_loop fuel r rest.
Proof.
  intros H Hm. cbn [segments_loop]. rewrite H. destruct m; [contradiction|reflexivity].
Qed.

Lemma segments_loop_none fuel r s :
  search r s = None -> segments_loop (S fuel) r s = [Text s].
Proof. intros H. cbn [segments_loop]. rewrite H. reflexivity. Qed.
End ScanFacts.

(** ** Custom-property names *)

Section NameFacts.
Implicit Types (s e : string).

Let notColon (c : ascii) : bool := negb (ascii_eqb c ":").

Lemma execAt_colon c s :
  execAt colonRe (String c s) = if ascii_eqb c ":" then Some (":", [], s) else None.
Proof.
  unfold execAt, colonRe, ascii_eqb. cbn [rmatch stripPrefix]. unfold ascii_eqb.
  rewrite (Ascii.eqb_sym ":" c). destruct (Ascii.eqb_spec c ":") as [->|Hne]; [|reflexivity].
  cbn [String.length]. replace (S (String.length s) - String.length s) with 1 by lia.
  reflexivity.
Qed.

Lemma search_colon s : forall skipped,
  search_from colonRe skipped s
  = match dropWhile notColon s with
    | "" => None
    | String _ rest => Some (skipped +:+ takeWhile notColon s, ":", [], rest)
    end.
Proof.
  induction s as [|c s IH]; intros skipped; [reflexivity|].
  cbn [search_from takeWhile dropWhile]. rewrite execAt_colon. unfold notColon at 1 3.
  destruct (ascii_eqb c ":"); cbn [negb].
  - rewrite str_app_nil_r. reflexivity.
  - rewrite IH. destruct (dropWhile notColon s); [reflexivity|].
    rewrite str_app_assoc. reflexivity.
Qed.

Lemma dropWhile_length P s : String.length (dropWhile P s) <= String.length s.
Proof.
  induction s as [|c s IH]; cbn [dropWhile String.length]; [lia|].
  destruct (P c); cbn [String.length]; lia.
Qed.

Lemma filterChars_takeWhile P s :
  filterChars P s
  = takeWhile P s +:+ match dropWhile P s with
                      | "" => ""
                      | String _ rest => filterChars P rest
                      end.
Proof.
  induction s as [|c s IH]; [reflexivity|]. cbn [filterChars takeWhile dropWhile].
  destruct (P c) eqn:Ec.
  - rewrite IH. reflexivity.
  - cbn [filterChars]. reflexivity.
Qed.

(** [endSelector.replace(/\:/g, '')] removes the colons. *)
Lemma replaceAll_colon e : replaceAll colonRe (fun _ _ => "") e = withoutColons e.
Proof.
  unfold replaceAll, segments, withoutColons. fold notColon.
  assert (G : forall fuel s, String.length s < fuel ->
    concatAll (map (fun sg => match sg with Text t => t | Match _ _ => "" end)
                   (segments_loop fuel colonRe s)) = filterChars notColon s).
  { induction fuel as [|fuel IH]; intros s Hs; [lia|].
    rewrite (filterChars_takeWhile notColon s).
    pose proof (search_colon s "") as Hsearch. pose proof (dropWhile_length notColon s) as Hlen.
    destruct (dropWhile notColon s) as [|c rest] eqn:Ed.
    - rewrite (segments_loop_none fuel colonRe s Hsearch). cbn [map concatAll].
      rewrite !str_app_nil_r. rewrite <- (takeWhile_dropWhile notColon s) at 1.
      rewrite Ed. apply str_app_nil_r.
    - rewrite (segments_loop_match fuel colonRe s _ _ _ _ Hsearch) by discriminate.
      cbn [map concatAll]. rewrite IH by (cbn [String.length] in Hlen; lia).
      reflexivity. }
  apply G. lia.
Qed.

(** The suffix that [varForPart] adds for an end selector. *)
Lemma varForPart_suffix id name prop e :
  varForPart id name prop e
  = "--e" +:+ ofNat id +:+ "-part-" +:+ name +:+ "-" +:+ prop +:+
    match e with
    | "" => ""
    | _ => "-" +:+ withoutColons e
    end.
Proof. unfold varForPart. destruct e; [reflexivity|]. rewrite replaceAll_colon. reflexivity. Qed.

(** Two end selectors give the same name exactly when they are both empty
    or both not, and are the same once their colons are removed. *)
Lemma varForPart_same_name id name prop e1 e2 :
  varForPart id name prop e1 = varForPart id name prop e2
  <-> ((e1 = "" <-> e2 = "") /\ withoutColons e1 = withoutColons e2).
Proof.
  rewrite !varForPart_suffix. split.
  - intros H. repeat apply String.app_inj in H.
    destruct e1 as [|c1 e1], e2 as [|c2 e2]; try discriminate H.
    + split; [tauto|reflexivity].
    + injection H as H. split; [|exact H]. split; discriminate.
  - intros [Hempty H]. destruct e1 as [|c1 e1], e2 as [|c2 e2].
    + reflexivity.
    + destruct Hempty as [Hempty _]. discriminate (Hempty eq_refl).
    + destruct Hempty as [_ Hempty]. discriminate (Hempty eq_refl).
    + rewrite H. reflexivity.
Qed.
End NameFacts.

(** The text a loop over the keys of an object appends. *)
Lemma forIn_append {V} (o : jsobj V) (line : string -> V -> string) (init : string) :
  forIn o (fun acc p v => acc +:+ line p v) init
  = init +:+ concatAll (map (fun p => match get o p with
                                      | Some v => line p v
                                      | None => ""
                                      end) (keys o)).
Proof.
  unfold forIn. generalize (keys o) as ks. intros ks. revert init.
  induction ks as [|k ks IH]; intros init; cbn [fold_left map concatAll].
  - symmetry. apply str_app_nil_r.
  - rewrite IH. destruct (get o k).
    + apply str_app_assoc.
    + reflexivity.
Qed.

(** What [addPartProps] leaves under a property of the bucket of the
    declaration. *)
Lemma propOf_addPartProps props d id name p :
  propOf (Some (addPartProps props d id name)) (part_endSelector d) p
  = match get (part_props d) p with
    | Some _ => Some ("var(" +:+ varForPart id name p (part_endSelector d) +:+ ")")
    | None => propOf (Some (default [] props)) (part_endSelector d) p
    end.
Proof.
  unfold addPartProps, propOf. rewrite get_set_eq.
  rewrite (get_forIn_set (fun p _ => "var(" +:+ varForPart id name p (part_endSelector d) +:+ ")")).
  destruct (get (part_props d) p); [reflexivity|].
  destruct (get (default [] props) (part_endSelector d)); reflexivity.
Qed.

(** C7, as amended.  The name of a custom property is a function of the
    scope id, the part name, the property name and the end selector, and
    the same function serves both sides: the rule the Transformer writes for
    a declaration sets, for each of its properties, the variable named by
    [varForPart], and the Resolution Engine refers to that variable for the
    same declaration.  Two declarations that differ only in the end
    selector get distinct names exactly when the end selectors still differ
    once their colons are removed, or one of them is empty and the other is
    not. *)
Theorem C7_names_are_synthesized_alike (id : nat) (d : PartDeclaration)
    (props : option Props) (name prop e1 e2 : string) :
  ruleText id d
  = lf +:+ match part_selector d with "" => "*" | sel => sel end
    +:+ " {" +:+ lftab
    +:+ trim (concatAll
                (map (fun p =>
                        match get (part_props d) p with
                        | Some v =>
                            lftab +:+ varForPart id (part_name d) p (part_endSelector d)
                            +:+ ": " +:+ v +:+ ";"
                        | None => ""
                        end)
                     (keys (part_props d))))
    +:+ lf +:+ "}"
  /\ (forall p,
        get (part_props d) p <> None ->
        propOf (Some (addPartProps props d id (part_name d))) (part_endSelector d) p
        = Some ("var(" +:+ varForPart id (part_name d) p (part_endSelector d) +:+ ")"))
  /\ (varForPart id name prop e1 = varForPart id name prop e2
      <-> ((e1 = "" <-> e2 = "") /\ withoutColons e1 = withoutColons e2)).
Proof.
  split; [|split].
  - unfold ruleText.
    rewrite (forIn_append (part_props d)
               (fun p v => lftab +:+ varForPart id (part_name d) p (part_endSelector d)
                           +:+ ": " +:+ v +:+ ";")).
    reflexivity.
  - intros p Hp. rewrite propOf_addPartProps.
    destruct (get (part_props d) p); [reflexivity|congruence].
  - apply varForPart_same_name.
Qed.

(** The variable of [color] in the rule of [labelTheme] is the one the
    engine refers to. *)
Lemma C7_label_color_variable :
  get (part_props labelTheme) "color" <> None
  /\ propOf (Some (addPartProps None labelTheme 1 "label")) "" "color"
     = Some "var(--e1-part-label-color)"
  /\ ruleText 1 labelTheme
     = lf +:+ "x-a {" +:+ lftab +:+ "--e1-part-label-color: blue;" +:+ lf +:+ "}".
Proof.
  split; [discriminate|]. split; [|vm_compute; reflexivity].
  exact (proj1 (proj2 (C7_names_are_synthesized_alike 1 labelTheme None "" "" "" ""))
           "color" ltac:(discriminate)).
Defined.

(** C7 fails as stated: the end selectors [:before] and [::before] differ
    and give the same name. *)
Lemma C7_colons_do_not_tell_names_apart :
  ":before" <> "::before"
  /\ varForPart 1 "label" "color" ":before" = varForPart 1 "label" "color" "::before".
Proof. split; [discriminate|vm_compute; reflexivity]. Qed.

(** ** Runs of a character class *)

Section RunFacts.
Context {A : Type}.
Implicit Types (k : string -> captures -> option A) (P : ascii -> bool) (s : string).

Lemma takeN_takeWhile P s :
  takeN (String.length s - String.length (dropWhile P s)) s = takeWhile P s.
Proof.
  rewrite <- (takeWhile_dropWhile P s) at 1 3. apply takeN_app.
Qed.

(** A capturing [( [P]+ )] takes the longest run when what follows accepts it. *)
Lemma rmatch_run_hit i P s cs k x :
  startsWith P s = true ->
  k (dropWhile P s) ((i, takeWhile P s) :: cs) = Some x ->
  rmatch (Grp i (Plus (Chr P))) s cs k = Some x.
Proof.
  intros Hs Hk. cbn [rmatch]. fold (Plus (Chr P)). rewrite rmatch_plus_chr.
  destruct s as [|c s']; [discriminate|]. cbn [startsWith] in Hs. rewrite Hs.
  apply starChr_greedy.
  replace (dropWhile P s') with (dropWhile P (String c s'))
    by (cbn [dropWhile]; rewrite Hs; reflexivity).
  rewrite takeN_takeWhile. exact Hk.
Qed.

Lemma rmatch_run_miss i P s cs k :
  startsWith P s = false -> rmatch (Grp i (Plus (Chr P))) s cs k = None.
Proof.
  intros Hs. cbn [rmatch]. fold (Plus (Chr P)). rewrite rmatch_plus_chr.
  destruct s as [|c s']; [reflexivity|]. cbn [startsWith] in Hs. rewrite Hs. reflexivity.
Qed.

(** The same without a capture. *)
Lemma rmatch_plus_hit P s cs k x :
  startsWith P s = true -> k (dropWhile P s) cs = Some x ->
  rmatch (Plus (Chr P)) s cs k = Some x.
Proof.
  intros Hs Hk. rewrite rmatch_plus_chr.
  destruct s as [|c s']; [discriminate|]. cbn [startsWith] in Hs. rewrite Hs.
  apply starChr_greedy. cbn [dropWhile] in Hk. rewrite Hs in Hk. exact Hk.
Qed.

Lemma rmatch_plus_miss P s cs k :
  startsWith P s = false -> rmatch (Plus (Chr P)) s cs k = None.
Proof.
  intros Hs. rewrite rmatch_plus_chr.
  destruct s as [|c s']; [reflexivity|]. cbn [startsWith] in Hs. rewrite Hs. reflexivity.
Qed.

(** Every stop of a run either starts with a character of the class or is
    where the run ends. *)
Lemma stop_cases P s t :
  stop P s t -> startsWith P t = true \/ t = dropWhile P s.
Proof.
  induction 1 as [s|c s t Hc _ IH].
  - destruct s as [|c s]; [right; reflexivity|]. cbn [startsWith dropWhile].
    destruct (P c); [left; reflexivity|right; reflexivity].
  - cbn [dropWhile]. rewrite Hc. exact IH.
Qed.

Lemma dropWhile_startsWith P s : startsWith P (dropWhile P s) = false.
Proof.
  induction s as [|c s IH]; [reflexivity|]. cbn [dropWhile].
  destruct (P c) eqn:Ec; [exact IH|]. cbn [startsWith]. exact Ec.
Qed.
End RunFacts.

(** ** The grammar of [partmap] entries *)

Section PartmapFacts.
Implicit Types (s p : string).

Lemma rmatch_seq {A} r1 r2 s cs (k : string -> captures -> option A) :
  rmatch (Seq r1 r2) s cs k = rmatch r1 s cs (fun s1 cs1 => rmatch r2 s1 cs1 k).
Proof. reflexivity. Qed.

Lemma rmatch_alt {A} r1 r2 s cs (k : string -> captures -> option A) :
  rmatch (Alt r1 r2) s cs k
  = match rmatch r1 s cs k with
    | Some x => Some x
    | None => rmatch r2 s cs k
    end.
Proof. reflexivity. Qed.

Lemma rmatch_eps {A} s cs (k : string -> captures -> option A) :
  rmatch Eps s cs k = k s cs.
Proof. reflexivity. Qed.

(** Trailing white space and the end of the pattern. *)
Lemma partmapRe_tail {A} s cs (k : string -> captures -> option A) x :
  k (dropWhile isSpace s) cs = Some x ->
  rmatch (Seq (Star ws) Eps) s cs k = Some x.
Proof.
  intros H. rewrite rmatch_seq. unfold ws. rewrite rmatch_star_chr.
  apply starChr_greedy. exact H.
Qed.

(** The optional second token. *)
Lemma partmapRe_second {A} s cs (k : string -> captures -> option A) :
  (forall t cs', exists x, k t cs' = Some x) ->
  exists cs' x,
    rmatch (Seq (Opt (Seq (Plus ws) (Grp 2 (Plus notWs)))) (Seq (Star ws) Eps)) s cs k
    = Some x
    /\ (exists t, k t cs' = Some x)
    /\ cs' = (if startsWith isSpace s && startsWith notSpace (dropWhile isSpace s)
              then [(2, takeWhile notSpace (dropWhile isSpace s))] else []) ++ cs.
Proof.
  intros Hk. rewrite rmatch_seq. unfold Opt. rewrite rmatch_alt, rmatch_seq.
  destruct (startsWith isSpace s) eqn:Hs; cbn [andb].
  - destruct (startsWith notSpace (dropWhile isSpace s)) eqn:H3.
    + destruct (Hk (dropWhile isSpace (dropWhile notSpace (dropWhile isSpace s)))
                   ((2, takeWhile notSpace (dropWhile isSpace s)) :: cs)) as [x Hx].
      exists ((2, takeWhile notSpace (dropWhile isSpace s)) :: cs), x.
      unfold ws at 1. rewrite (rmatch_plus_hit isSpace s cs _ x Hs).
      * split; [reflexivity|]. split; [eexists; exact Hx|reflexivity].
      * unfold notWs. apply rmatch_run_hit; [exact H3|]. apply partmapRe_tail. exact Hx.
    + destruct (Hk (dropWhile isSpace s) cs) as [x Hx]. exists cs, x.
      assert (Hnone : rmatch (Plus ws) s cs
                (fun s1 cs1 => rmatch (Grp 2 (Plus notWs)) s1 cs1
                   (fun s2 cs2 => rmatch (Seq (Star ws) Eps) s2 cs2 k)) = None).
      { unfold ws at 1. rewrite rmatch_plus_chr. destruct s as [|c s']; [reflexivity|].
        cbn [startsWith] in Hs. rewrite Hs. apply starChr_none. intros t Ht.
        unfold notWs. apply rmatch_run_miss.
        destruct (stop_cases isSpace s' t Ht) as [Ht' | ->].
        - destruct t as [|d t]; [reflexivity|]. cbn [startsWith] in Ht' |- *.
          unfold notSpace. rewrite Ht'. reflexivity.
        - cbn [dropWhile] in H3. rewrite Hs in H3. exact H3. }
      rewrite Hnone, rmatch_eps. rewrite (partmapRe_tail s cs k x Hx).
      split; [reflexivity|]. split; [eexists; exact Hx|reflexivity].
  - destruct (Hk (dropWhile isSpace s) cs) as [x Hx]. exists cs, x.
    unfold ws at 1. rewrite (rmatch_plus_miss isSpace s cs _ Hs), rmatch_eps.
    rewrite (partmapRe_tail s cs k x Hx).
    split; [reflexivity|]. split; [eexists; exact Hx|reflexivity].
Qed.
End PartmapFacts.

Section PartmapEntries.
Implicit Types (s p : string).

Lemma startsWith_neither s :
  startsWith notSpace s = false -> startsWith isSpace s = false -> s = "".
Proof.
  destruct s as [|c s]; [reflexivity|]. cbn [startsWith]. unfold notSpace.
  destruct (isSpace c); discriminate.
Qed.

Lemma startsWith_takeWhile P s :
  startsWith P s = true -> exists c t, takeWhile P s = String c t.
Proof.
  destruct s as [|c s]; [discriminate|]. cbn [startsWith takeWhile]. intros ->. eauto.
Qed.

(** What the pattern of [partmap] entries captures at the start of a string. *)
Lemma execAt_partmapRe s :
  match leadingTokens s with
  | Some (t1, o2) =>
      exists m cs rest,
        execAt partmapRe s = Some (m, cs, rest) /\ cap 1 cs = Some t1 /\ cap 2 cs = o2
  | None => execAt partmapRe s = None
  end.
Proof.
  unfold leadingTokens, execAt, partmapRe, Cat. cbn [fold_right].
  rewrite rmatch_seq. unfold ws at 1. rewrite rmatch_star_chr.
  set (s1 := dropWhile isSpace s).
  set (kf := fun (rest : string) (cs : captures) =>
               Some (takeN (String.length s - String.length rest) s, cs, rest)).
  destruct (startsWith notSpace s1) eqn:Hs1.
  - set (s2 := dropWhile notSpace s1).
    destruct (partmapRe_second s2 [(1, takeWhile notSpace s1)] kf) as (cs' & x & E & [t Hx] & Hcs).
    { intros t cs'. eexists. reflexivity. }
    unfold kf in Hx. injection Hx as <-.
    eexists _, cs', t. split; [|split].
    + apply starChr_greedy. fold s1. rewrite rmatch_seq. unfold notWs at 1.
      apply rmatch_run_hit; [exact Hs1|]. exact E.
    + rewrite Hcs. destruct (_ && _); reflexivity.
    + rewrite Hcs. destruct (startsWith isSpace s2) eqn:H2; cbn [andb].
      * destruct (startsWith notSpace (dropWhile isSpace s2)); reflexivity.
      * assert (Es2 : s2 = "").
        { apply startsWith_neither; [apply dropWhile_startsWith|exact H2]. }
        rewrite Es2. reflexivity.
  - unfold ws at 1. rewrite rmatch_star_chr.
    apply starChr_none. intros t Ht. rewrite rmatch_seq. unfold notWs at 1.
    apply rmatch_run_miss. destruct (stop_cases isSpace s t Ht) as [Ht' | ->].
    + destruct t as [|d t]; [reflexivity|]. cbn [startsWith] in Ht' |- *.
      unfold notSpace. rewrite Ht'. reflexivity.
    + exact Hs1.
Qed.

Lemma leadingTokens_tail c s : leadingTokens (String c s) = None -> leadingTokens s = None.
Proof.
  unfold leadingTokens. cbn [dropWhile]. destruct (isSpace c) eqn:Ec; [auto|].
  cbn [startsWith]. unfold notSpace at 1. rewrite Ec. discriminate.
Qed.

Lemma search_partmapRe s : forall skipped,
  match leadingTokens s with
  | Some (t1, o2) =>
      exists m cs rest,
        search_from partmapRe skipped s = Some (skipped, m, cs, rest)
        /\ cap 1 cs = Some t1 /\ cap 2 cs = o2
  | None => search_from partmapRe skipped s = None
  end.
Proof.
  induction s as [|c s IH]; intros skipped.
  - reflexivity.
  - pose proof (execAt_partmapRe (String c s)) as H.
    destruct (leadingTokens (String c s)) as [[t1 o2]|] eqn:E.
    + destruct H as (m & cs & rest & H & H1 & H2). exists m, cs, rest.
      split; [apply search_from_hit; exact H|]. auto.
    + rewrite search_from_miss by exact H. specialize (IH (skipped +:+ String c "")).
      rewrite (leadingTokens_tail c s E) in IH. exact IH.
Qed.

(** The entry pushed for a piece that is not empty, by its tokens. *)
Lemma partmapEntry_leadingTokens p :
  p <> "" ->
  partmapEntry p
  = match leadingTokens p with
    | Some (t1, Some t2) => [mkPartInfo (JStr t2) (JStr t1)]
    | Some (t1, None) => [mkPartInfo (JStr t1) (JStr t1)]
    | None => []
    end.
Proof.
  intros Hp. unfold partmapEntry, partmapMatch. destruct p as [|c p]; [contradiction|].
  pose proof (search_partmapRe (String c p) "") as H. unfold search.
  pose proof (eq_refl (leadingTokens (String c p))) as E. unfold leadingTokens at 2 in E.
  destruct (leadingTokens (String c p)) as [[t1 o2]|].
  - destruct H as (m & cs & rest & -> & H1 & H2). rewrite H1, H2. cbn [ofCapture].
    destruct o2 as [t2|]; [|reflexivity].
    destruct (startsWith notSpace (dropWhile isSpace (String c p))); [|discriminate].
    injection E as _ E.
    destruct (startsWith notSpace _) eqn:H3 in E; [|discriminate].
    injection E as ->. destruct (startsWith_takeWhile _ _ H3) as (d & t & ->).
    reflexivity.
  - rewrite H. reflexivity.
Qed.

(** The tokens of a string, one at a time. *)
Lemma tokens_from_run s : forall cur,
  Spec.tokens_from cur s
  = match cur +:+ takeWhile notSpace s with
    | "" => Spec.tokens_from "" (dropWhile notSpace s)
    | t => t :: Spec.tokens_from "" (dropWhile notSpace s)
    end.
Proof.
  induction s as [|c s IH]; intros cur.
  - cbn [Spec.tokens_from takeWhile dropWhile]. rewrite str_app_nil_r.
    destruct cur; reflexivity.
  - cbn [Spec.tokens_from takeWhile dropWhile].
    change (notSpace c) with (negb (isSpace c)).
    destruct (isSpace c) eqn:Ec; cbn [negb].
    + rewrite str_app_nil_r. cbn [Spec.tokens_from]. rewrite Ec. destruct cur; reflexivity.
    + rewrite IH, str_app_assoc. reflexivity.
Qed.

Lemma tokens_skip s : Spec.tokens s = Spec.tokens (dropWhile isSpace s).
Proof.
  unfold Spec.tokens. induction s as [|c s IH]; [reflexivity|].
  cbn [dropWhile]. destruct (isSpace c) eqn:Ec; [|reflexivity].
  cbn [Spec.tokens_from]. rewrite Ec. exact IH.
Qed.

Lemma tokens_next s :
  Spec.tokens s
  = if startsWith notSpace (dropWhile isSpace s)
    then takeWhile notSpace (dropWhile isSpace s)
         :: Spec.tokens (dropWhile notSpace (dropWhile isSpace s))
    else [].
Proof.
  rewrite tokens_skip. set (s1 := dropWhile isSpace s).
  destruct (startsWith notSpace s1) eqn:H1.
  - unfold Spec.tokens. rewrite tokens_from_run.
    destruct (startsWith_takeWhile _ _ H1) as (c & t & ->). reflexivity.
  - assert (E : s1 = "").
    { apply startsWith_neither; [exact H1|apply dropWhile_startsWith]. }
    rewrite E. reflexivity.
Qed.

(** The reference of an entry in the words of the specification, by its
    tokens. *)
Lemma partmapReference_leadingTokens p :
  Spec.partmapReference p
  = match leadingTokens p with
    | Some (t1, Some t2) => [mkPartInfo (JStr t2) (JStr t1)]
    | Some (t1, None) => [mkPartInfo (JStr t1) (JStr t1)]
    | None => []
    end.
Proof.
  unfold Spec.partmapReference, leadingTokens. rewrite tokens_next.
  destruct (startsWith notSpace (dropWhile isSpace p)); [|reflexivity].
  rewrite tokens_next.
  destruct (startsWith notSpace _); reflexivity.
Qed.
End PartmapEntries.

Lemma splitChar_from_length sep s : forall cur,
  List.length (splitChar_from sep cur s) = S (Spec.countChar sep s).
Proof.
  induction s as [|c s IH]; intros cur; [reflexivity|].
  cbn [splitChar_from Spec.countChar]. destruct (ascii_eqb c sep); cbn [List.length].
  - rewrite IH. reflexivity.
  - apply IH.
Qed.

(** C5, as amended.  A part attribute gives one reference with [forward]
    null for each of its comma-separated entries, the name being the
    trimmed entry; nothing is dropped, so an empty or blank entry gives a
    reference with an empty name.  A partmap attribute gives, for each entry
    that is not empty, what its tokens say: [forward] is the first token and
    [name] the second one, or the first one when there is no second; an
    entry of white space only gives nothing.  An attribute that is absent
    or empty gives no reference. *)
Theorem C5_attribute_grammars (attr entry : string) :
  partInfoFromAttr None = []
  /\ partInfoFromAttr (Some "") = []
  /\ partInfoFromPartmap None = []
  /\ partInfoFromPartmap (Some "") = []
  /\ (attr <> "" ->
      partInfoFromAttr (Some attr)
      = map (fun e => mkPartInfo (JStr (trim e)) JNull) (splitChar "," attr)
      /\ List.length (partInfoFromAttr (Some attr)) = S (Spec.countChar "," attr)
      /\ partInfoFromPartmap (Some attr) = flat_map partmapEntry (splitChar "," attr))
  /\ (entry <> "" -> partmapEntry entry = Spec.partmapReference entry).
Proof.
  repeat (split; [reflexivity|]). split.
  - intros Hattr. destruct attr as [|c attr]; [contradiction|].
    split; [reflexivity|]. split; [|reflexivity].
    unfold partInfoFromAttr, pieces. rewrite List.length_map. apply splitChar_from_length.
  - intros Hentry. rewrite partmapEntry_leadingTokens by exact Hentry.
    symmetry. apply partmapReference_leadingTokens.
Qed.

(** Two entries, and an entry of two tokens between white space. *)
Lemma C5_two_entries_two_tokens :
  "a, b" <> "" /\ " src  dst " <> ""
  /\ partInfoFromAttr (Some "a, b")
     = [mkPartInfo (JStr "a") JNull; mkPartInfo (JStr "b") JNull]
  /\ partmapEntry " src  dst " = [mkPartInfo (JStr "dst") (JStr "src")].
Proof.
  split; [discriminate|]. split; [discriminate|].
  pose proof (C5_attribute_grammars "a, b" " src  dst ") as (_ & _ & _ & _ & H1 & H2).
  split.
  - rewrite (proj1 (H1 ltac:(discriminate))). reflexivity.
  - rewrite (H2 ltac:(discriminate)). reflexivity.
Defined.

(** C5 fails as stated: the empty entry of [a,,b] is not dropped; it gives
    a reference with an empty name in a part attribute, and a reference
    without a name in a partmap attribute. *)
Lemma C5_empty_entry_is_kept :
  partInfoFromAttr (Some "a,,b")
  = [mkPartInfo (JStr "a") JNull; mkPartInfo (JStr "") JNull; mkPartInfo (JStr "b") JNull]
  /\ partInfoFromPartmap (Some "a,,b")
     = [mkPartInfo (JStr "a") (JStr "a"); mkPartInfo JUndefined JUndefined;
        mkPartInfo (JStr "b") (JStr "b")].
Proof. split; vm_compute; reflexivity. Qed.

(** ** The selector pre-filter *)

Section CharFacts.
Implicit Types (P Q : ascii -> bool) (s t w : string).

Lemma allChars_app P s t : allChars P (s +:+ t) = allChars P s && allChars P t.
Proof.
  induction s as [|c s IH]; [reflexivity|].
  rewrite str_app_cons. cbn [allChars]. rewrite IH, andb_assoc. reflexivity.
Qed.

Lemma allChars_impl P Q s :
  (forall c, P c = true -> Q c = true) -> allChars P s = true -> allChars Q s = true.
Proof.
  intros H. induction s as [|c s IH]; [reflexivity|]. cbn [allChars].
  intros [Hc Hs]%andb_prop. rewrite (H c Hc), (IH Hs). reflexivity.
Qed.

Lemma dropWhile_app P w t :
  allChars P w = true -> startsWith P t = false -> dropWhile P (w +:+ t) = t.
Proof.
  intros Hw Ht. induction w as [|c w IH].
  - change ("" +:+ t) with t. destruct t as [|c t]; [reflexivity|].
    cbn [dropWhile]. cbn [startsWith] in Ht. rewrite Ht. reflexivity.
  - cbn [allChars] in Hw. apply andb_prop in Hw as [Hc Hw].
    rewrite str_app_cons. cbn [dropWhile]. rewrite Hc. apply IH. exact Hw.
Qed.

Lemma takeWhile_app P w t :
  allChars P w = true -> startsWith P t = false -> takeWhile P (w +:+ t) = w.
Proof.
  intros Hw Ht. induction w as [|c w IH].
  - change ("" +:+ t) with t. destruct t as [|c t]; [reflexivity|].
    cbn [takeWhile]. cbn [startsWith] in Ht. rewrite Ht. reflexivity.
  - cbn [allChars] in Hw. apply andb_prop in Hw as [Hc Hw].
    rewrite str_app_cons. cbn [takeWhile]. rewrite Hc, (IH Hw). reflexivity.
Qed.

Lemma startsWith_app P s t :
  s <> "" -> startsWith P (s +:+ t) = startsWith P s.
Proof. destruct s; [contradiction|reflexivity]. Qed.

(** A stop of a run is a suffix of the input. *)
Lemma stop_allChars P Q s t : stop P s t -> allChars Q s = true -> allChars Q t = true.
Proof.
  induction 1 as [s|c s t _ _ IH]; [auto|]. cbn [allChars].
  intros [_ Hs]%andb_prop. apply IH. exact Hs.
Qed.

Lemma stop_length P s t : stop P s t -> String.length (dropWhile P s) <= String.length t.
Proof.
  induction 1 as [s|c s t Hc _ IH]; [apply dropWhile_length|].
  cbn [dropWhile]. rewrite Hc. exact IH.
Qed.
End CharFacts.

Section SearchFacts.
Implicit Types (r : regex) (s t : string).

(** The search moves over characters no match starts with. *)
Lemma search_from_skip r (canStart : ascii -> bool) pre s :
  (forall c t, canStart c = false -> execAt r (String c t) = None) ->
  allChars (fun c => negb (canStart c)) pre = true ->
  forall skipped,
    search_from r skipped (pre +:+ s) = search_from r (skipped +:+ pre) s.
Proof.
  intros Hr. induction pre as [|c pre IH]; intros Hpre skipped.
  - rewrite str_app_nil_r. reflexivity.
  - cbn [allChars] in Hpre. apply andb_prop in Hpre as [Hc Hpre].
    apply negb_true_iff in Hc. rewrite str_app_cons.
    rewrite search_from_miss by (apply Hr; exact Hc).
    rewrite (IH Hpre). rewrite str_app_assoc. reflexivity.
Qed.

(** A match on a continuation that gives back what is left. *)
Lemma execAt_intro r m rest cs :
  (forall (k : string -> captures -> option (string * captures * string)) x,
     k rest cs = Some x -> rmatch r (m +:+ rest) [] k = Some x) ->
  execAt r (m +:+ rest) = Some (m, cs, rest).
Proof. intros H. unfold execAt. apply H. rewrite takeN_app. reflexivity. Qed.

Lemma rmatch_grp {A} i r s cs (k : string -> captures -> option A) :
  rmatch (Grp i r) s cs k
  = rmatch r s cs
      (fun s1 cs1 => k s1 ((i, takeN (String.length s - String.length s1) s) :: cs1)).
Proof. reflexivity. Qed.

Lemma rmatch_lit_hit {A} l s cs (k : string -> captures -> option A) :
  rmatch (Lit l) (l +:+ s) cs k = k s cs.
Proof.
  cbn [rmatch]. assert (E : stripPrefix l (l +:+ s) = Some s).
  { induction l as [|c l IH]; [destruct s; reflexivity|].
    rewrite str_app_cons. cbn [stripPrefix]. unfold ascii_eqb.
    rewrite Ascii.eqb_refl. exact IH. }
  rewrite E. reflexivity.
Qed.

Lemma rmatch_lit_miss {A} a l s cs (k : string -> captures -> option A) :
  startsWith (ascii_eqb a) s = false -> rmatch (Lit (String a l)) s cs k = None.
Proof.
  intros H. cbn [rmatch]. destruct s as [|b s]; [reflexivity|].
  cbn [stripPrefix]. cbn [startsWith] in H. rewrite H. reflexivity.
Qed.
End SearchFacts.

Section ComponentFacts.
Implicit Types (c : Spec.component) (comps : list Spec.component) (n a v : string).

(** The characters a component matched by [constSelectorRe] starts with. *)
Let canStart (x : ascii) : bool :=
  ascii_eqb x "." || ascii_eqb x ":" || ascii_eqb x "[".

Let inName (x : ascii) : bool := negb (isNameStop x).
Let notEq (x : ascii) : bool := negb (ascii_eqb x "=").
Let notBracket (x : ascii) : bool := negb (ascii_eqb x "]").
Let plain (x : ascii) : bool := notEq x && notBracket x.
Let inCluster (x : ascii) : bool := negb (isCombinator x).

Lemma isName_inv n :
  Spec.isName n = true -> n <> "" /\ allChars Spec.nameChar n = true.
Proof. destruct n; [discriminate|]. intros H. split; [discriminate|exact H]. Qed.

Lemma isValue_inv v :
  Spec.isValue v = true -> v <> "" /\ allChars Spec.valueChar v = true.
Proof. destruct v; [discriminate|]. intros H. split; [discriminate|exact H]. Qed.

Lemma nameChar_inName x : Spec.nameChar x = true -> inName x = true.
Proof. unfold Spec.nameChar, inName. intros H. repeat apply andb_prop in H as [H ?]. assumption. Qed.

Lemma nameChar_notEq x : Spec.nameChar x = true -> notEq x = true.
Proof. unfold Spec.nameChar, notEq. intros H. repeat apply andb_prop in H as [H ?]. assumption. Qed.

Lemma nameChar_plain x : Spec.nameChar x = true -> plain x = true.
Proof.
  unfold Spec.nameChar, plain, notEq, notBracket. intros H.
  repeat apply andb_prop in H as [H ?]. apply andb_true_intro. split; assumption.
Qed.

Lemma nameChar_notCombinator x : Spec.nameChar x = true -> inCluster x = true.
Proof. unfold Spec.nameChar. intros H. repeat apply andb_prop in H as [H ?]. assumption. Qed.

Lemma nameChar_cannot_start x : Spec.nameChar x = true -> negb (canStart x) = true.
Proof.
  intros H%nameChar_inName. unfold inName, isNameStop in H. unfold canStart.
  apply negb_true_iff in H. apply negb_true_iff.
  apply orb_false_iff in H as [H H4]. apply orb_false_iff in H as [H H3].
  apply orb_false_iff in H as [H1 H2]. rewrite H1, H3, H4. reflexivity.
Qed.

Lemma valueChar_notBracket x : Spec.valueChar x = true -> notBracket x = true.
Proof. unfold Spec.valueChar, notBracket. intros [_ H]%andb_prop. exact H. Qed.

Lemma valueChar_notCombinator x : Spec.valueChar x = true -> inCluster x = true.
Proof. unfold Spec.valueChar. intros [H _]%andb_prop. exact H. Qed.

(** Every component starts with one of [#], [.], [:] and [[]. *)
Lemma renderComponent_starts c :
  exists x t, Spec.renderComponent c = String x t /\ isNameStop x = true.
Proof.
  destruct c as [n|n|[|] n|a [v|]]; cbn [Spec.renderComponent];
    rewrite str_app_cons; eexists _, _; (split; [reflexivity|reflexivity]).
Qed.

Lemma renderComponents_stop comps : startsWith inName (Spec.renderComponents comps) = false.
Proof.
  destruct comps as [|c comps]; [reflexivity|]. cbn [Spec.renderComponents].
  destruct (renderComponent_starts c) as (x & t & -> & Hx).
  rewrite str_app_cons. cbn [startsWith]. unfold inName. rewrite Hx. reflexivity.
Qed.

(** Without attribute tests, the text of components has no [=] and no [\]]. *)
Lemma renderComponents_plain comps :
  Spec.wfComponents comps = true ->
  List.forallb (fun c' => negb (Spec.isAttr c')) comps = true ->
  allChars plain (Spec.renderComponents comps) = true.
Proof.
  induction comps as [|c comps IH]; [reflexivity|].
  cbn [Spec.wfComponents List.forallb Spec.renderComponents].
  intros [[Hc _]%andb_prop Hcs]%andb_prop [Hna Hnas]%andb_prop.
  rewrite allChars_app, (IH Hcs Hnas), andb_true_r.
  destruct c as [n|n|[|] n|a o]; [| | | |discriminate];
    cbn [Spec.wfComponent] in Hc; apply isName_inv in Hc as [_ Hc];
    cbn [Spec.renderComponent]; rewrite allChars_app;
    rewrite (allChars_impl _ _ _ nameChar_plain Hc); reflexivity.
Qed.

(** No component starts with another character. *)
Lemma execAt_constSelectorRe_miss x t :
  canStart x = false -> execAt constSelectorRe (String x t) = None.
Proof.
  unfold canStart. intros H.
  apply orb_false_iff in H as [H H3]. apply orb_false_iff in H as [H1 H2].
  unfold ascii_eqb in H1, H2, H3. rewrite Ascii.eqb_sym in H1, H2, H3.
  unfold execAt, constSelectorRe, Cat. cbn [fold_right].
  rewrite rmatch_alt, rmatch_seq, rmatch_grp, !rmatch_alt.
  rewrite !rmatch_lit_miss by (cbn [startsWith]; unfold ascii_eqb; assumption).
  rewrite rmatch_seq, rmatch_lit_miss by (cbn [startsWith]; unfold ascii_eqb; assumption).
  reflexivity.
Qed.

Lemma execAt_constSelectorRe_empty : execAt constSelectorRe "" = None.
Proof. reflexivity. Qed.

Lemma startsWith_allChars (P : ascii -> bool) s :
  s <> "" -> allChars P s = true -> startsWith P s = true.
Proof.
  destruct s as [|x s]; [contradiction|]. cbn [allChars startsWith].
  intros _ [H _]%andb_prop. exact H.
Qed.

Lemma takeN_one x t :
  takeN (String.length (String x t) - String.length t) (String x t) = String x "".
Proof. apply (takeN_app (String x "") t). Qed.

Lemma takeN_two x y t :
  takeN (String.length (String x (String y t)) - String.length t) (String x (String y t))
  = String x (String y "").
Proof. apply (takeN_app (String x (String y "")) t). Qed.

(** The name behind [.], [:] or [::] runs up to the next component. *)
Lemma name_run {A} n rest cs (k : string -> captures -> option A) y :
  Spec.isName n = true -> startsWith inName rest = false ->
  k rest ((2, n) :: cs) = Some y ->
  rmatch (Grp 2 (Plus (Chr (fun x => negb (isNameStop x))))) (n +:+ rest) cs k = Some y.
Proof.
  intros [Hn Hchars]%isName_inv Hrest Hk.
  pose proof (allChars_impl _ _ _ nameChar_inName Hchars) as Hrun.
  apply rmatch_run_hit.
  - rewrite startsWith_app by exact Hn. apply startsWith_allChars; assumption.
  - fold inName. rewrite dropWhile_app, takeWhile_app by assumption. exact Hk.
Qed.

(** A class component. *)
Lemma execAt_class n rest :
  Spec.isName n = true -> startsWith inName rest = false ->
  execAt constSelectorRe (Spec.renderComponent (Spec.Class n) +:+ rest)
  = Some (Spec.renderComponent (Spec.Class n), [(2, n); (1, ".")], rest).
Proof.
  intros Hn Hrest. apply execAt_intro. intros k x Hk.
  cbn [Spec.renderComponent]. rewrite str_app_assoc, str_app_cons, str_app_nil_l.
  unfold constSelectorRe. rewrite rmatch_alt, rmatch_seq, rmatch_grp, rmatch_alt.
  rewrite (rmatch_lit_hit "." (n +:+ rest)), takeN_one.
  rewrite (name_run n rest _ k x Hn Hrest Hk). reflexivity.
Qed.

(** A pseudo-class. *)
Lemma execAt_pseudo_class n rest :
  Spec.isName n = true -> startsWith inName rest = false ->
  execAt constSelectorRe (Spec.renderComponent (Spec.Pseudo false n) +:+ rest)
  = Some (Spec.renderComponent (Spec.Pseudo false n), [(2, n); (1, ":")], rest).
Proof.
  intros Hn Hrest. apply execAt_intro. intros k x Hk.
  cbn [Spec.renderComponent]. rewrite str_app_assoc, str_app_cons, str_app_nil_l.
  unfold constSelectorRe. rewrite rmatch_alt, rmatch_seq, rmatch_grp, !rmatch_alt.
  rewrite rmatch_lit_miss by reflexivity.
  rewrite (rmatch_lit_hit ":" (n +:+ rest)), takeN_one.
  rewrite (name_run n rest _ k x Hn Hrest Hk). reflexivity.
Qed.

(** A pseudo-element: the prefix [:] is tried first and fails on the
    second colon. *)
Lemma execAt_pseudo_element n rest :
  Spec.isName n = true -> startsWith inName rest = false ->
  execAt constSelectorRe (Spec.renderComponent (Spec.Pseudo true n) +:+ rest)
  = Some (Spec.renderComponent (Spec.Pseudo true n), [(2, n); (1, "::")], rest).
Proof.
  intros Hn Hrest. apply execAt_intro. intros k x Hk.
  cbn [Spec.renderComponent]. rewrite str_app_assoc, !str_app_cons, str_app_nil_l.
  unfold constSelectorRe. rewrite rmatch_alt, rmatch_seq, rmatch_grp, !rmatch_alt.
  rewrite rmatch_lit_miss by reflexivity.
  rewrite (rmatch_lit_hit ":" (String ":" (n +:+ rest))).
  rewrite rmatch_run_miss by reflexivity.
  rewrite (rmatch_lit_hit "::" (n +:+ rest)), takeN_two.
  rewrite (name_run n rest _ k x Hn Hrest Hk). reflexivity.
Qed.

(** An attribute test with a value. *)
Lemma execAt_attr_value a v rest :
  Spec.isName a = true -> Spec.isValue v = true ->
  execAt constSelectorRe (Spec.renderComponent (Spec.Attr a (Some v)) +:+ rest)
  = Some (Spec.renderComponent (Spec.Attr a (Some v)), [(3, a)], rest).
Proof.
  intros [Ha Hachars]%isName_inv [Hv Hvchars]%isValue_inv.
  apply execAt_intro. intros k x Hk.
  pose proof (allChars_impl _ _ _ nameChar_notEq Hachars) as Harun.
  pose proof (allChars_impl _ _ _ valueChar_notBracket Hvchars) as Hvrun.
  cbn [Spec.renderComponent]. rewrite !str_app_assoc, !str_app_cons, !str_app_nil_l.
  unfold constSelectorRe, Cat, notChar. cbn [fold_right].
  rewrite rmatch_alt, rmatch_seq, rmatch_grp, !rmatch_alt.
  rewrite !rmatch_lit_miss by reflexivity.
  rewrite rmatch_seq, (rmatch_lit_hit "[" (a +:+ String "=" (v +:+ String "]" rest))).
  rewrite rmatch_seq.
  rewrite (rmatch_run_hit 3 notEq (a +:+ String "=" (v +:+ String "]" rest)) [] _ x);
    [reflexivity| |].
  - rewrite startsWith_app by exact Ha. apply startsWith_allChars; assumption.
  - rewrite dropWhile_app, takeWhile_app by (assumption || reflexivity).
    rewrite rmatch_seq. unfold Opt. rewrite rmatch_alt, rmatch_seq.
    rewrite (rmatch_lit_hit "=" (v +:+ String "]" rest)).
    rewrite (rmatch_plus_hit notBracket (v +:+ String "]" rest) _ _ x); [reflexivity| |].
    + rewrite startsWith_app by exact Hv. apply startsWith_allChars; assumption.
    + rewrite dropWhile_app by (assumption || reflexivity).
      rewrite rmatch_seq, (rmatch_lit_hit "]" rest), rmatch_eps. exact Hk.
Qed.

(** A test for the presence of an attribute, when nothing behind it has
    a [=] or a [\]]: the run of the name backs up to the bracket. *)
Lemma execAt_attr_presence a rest :
  Spec.isName a = true -> allChars plain rest = true ->
  execAt constSelectorRe (Spec.renderComponent (Spec.Attr a None) +:+ rest)
  = Some (Spec.renderComponent (Spec.Attr a None), [(3, a)], rest).
Proof.
  intros [Ha Hachars]%isName_inv Hrest.
  apply execAt_intro. intros k x Hk.
  pose proof (allChars_impl _ _ _ nameChar_notEq Hachars) as Harun.
  cbn [Spec.renderComponent]. rewrite !str_app_assoc, !str_app_cons, !str_app_nil_l.
  unfold constSelectorRe, Cat, notChar. cbn [fold_right].
  rewrite rmatch_alt, rmatch_seq, rmatch_grp, !rmatch_alt.
  rewrite !rmatch_lit_miss by reflexivity.
  rewrite rmatch_seq, (rmatch_lit_hit "[" (a +:+ String "]" rest)).
  rewrite rmatch_seq, rmatch_grp, rmatch_plus_chr.
  destruct a as [|a0 a]; [contradiction|]. rewrite str_app_cons.
  cbn [allChars] in Harun. apply andb_prop in Harun as [Ha0 Harun].
  cbv beta delta [notEq] in Ha0. cbv beta. rewrite Ha0.
  apply starChr_stop; [exact Harun| |].
  - change (String a0 (a +:+ String "]" rest)) with (String a0 a +:+ String "]" rest).
    rewrite takeN_app.
    rewrite rmatch_seq. unfold Opt. rewrite rmatch_alt, rmatch_seq.
    rewrite rmatch_lit_miss by reflexivity.
    rewrite rmatch_eps, rmatch_seq, (rmatch_lit_hit "]" rest), rmatch_eps. exact Hk.
  - intros c t' [= <- <-] _ u Hu.
    pose proof (stop_allChars _ _ _ _ Hu Hrest) as Hplain.
    assert (Hfst : forall y, startsWith (ascii_eqb y) u = true -> plain y = true).
    { destruct u as [|z u]; [discriminate|]. cbn [startsWith allChars] in *.
      apply andb_prop in Hplain as [Hz _]. intros y Hy.
      unfold ascii_eqb in Hy. apply Ascii.eqb_eq in Hy. subst y. exact Hz. }
    rewrite rmatch_seq. unfold Opt. rewrite rmatch_alt, rmatch_seq.
    rewrite rmatch_lit_miss.
    + rewrite rmatch_eps, rmatch_seq. apply rmatch_lit_miss.
      destruct (startsWith (ascii_eqb "]") u) eqn:E; [|reflexivity].
      apply Hfst in E. discriminate.
    + destruct (startsWith (ascii_eqb "=") u) eqn:E; [|reflexivity].
      apply Hfst in E. discriminate.
Qed.

Lemma classic_id c : (exists n, c = Spec.Id n) \/ (forall n, c <> Spec.Id n).
Proof. destruct c; [left; eexists; reflexivity|right; discriminate..]. Qed.

Section Clusters.
Variables (cc : ConstClasses) (ca : option (list string)).

(** A component other than an id is matched as a whole, and the callback
    keeps it exactly when it is a constant of the last cluster. *)
Lemma execAt_component c comps :
  Spec.wfComponents (c :: comps) = true ->
  (forall n, c <> Spec.Id n) ->
  exists caps,
    execAt constSelectorRe (Spec.renderComponent c +:+ Spec.renderComponents comps)
    = Some (Spec.renderComponent c, caps, Spec.renderComponents comps)
    /\ forall isLast,
         keepComponent cc ca isLast caps = Spec.kept cc ca (truthy isLast) c.
Proof.
  cbn [Spec.wfComponents]. intros [[Hc Hafter]%andb_prop Hcs]%andb_prop Hid.
  destruct c as [n|n|[|] n|a [v|]]; cbn [Spec.wfComponent] in Hc.
  - destruct (Hid n eq_refl).
  - exists [(2, n); (1, ".")]. split.
    + apply execAt_class; [exact Hc|apply renderComponents_stop].
    + intros isLast. unfold keepComponent, Spec.kept, Spec.constantClass.
      cbn. rewrite orb_false_r. destruct cc; reflexivity.
  - exists [(2, n); (1, "::")]. split.
    + apply execAt_pseudo_element; [exact Hc|apply renderComponents_stop].
    + intros isLast. unfold keepComponent, Spec.kept. cbn. apply andb_false_r.
  - exists [(2, n); (1, ":")]. split.
    + apply execAt_pseudo_class; [exact Hc|apply renderComponents_stop].
    + intros isLast. unfold keepComponent, Spec.kept. cbn. apply andb_false_r.
  - apply andb_prop in Hc as [Ha Hv]. exists [(3, a)]. split.
    + apply execAt_attr_value; assumption.
    + intros isLast. unfold keepComponent, Spec.kept, Spec.constantAttribute.
      destruct a as [|a0 a]; [discriminate|]. cbn. destruct ca; reflexivity.
  - exists [(3, a)]. split.
    + apply execAt_attr_presence; [exact Hc|].
      apply renderComponents_plain; assumption.
    + intros isLast. unfold keepComponent, Spec.kept, Spec.constantAttribute.
      destruct a as [|a0 a]; [discriminate|]. cbn. destruct ca; reflexivity.
Qed.

Lemma search_constSelectorRe_none pre :
  allChars (fun x => negb (canStart x)) pre = true ->
  search constSelectorRe pre = None.
Proof.
  intros Hpre. unfold search. rewrite <- (str_app_nil_r pre).
  rewrite (search_from_skip constSelectorRe canStart pre "");
    [reflexivity|apply execAt_constSelectorRe_miss|exact Hpre].
Qed.

(** The scan of one cluster: what stands before the components and the
    ids are passed over, every other component goes through the callback. *)
Lemma cluster_loop (isLast : jsval) :
  forall comps pre fuel,
    Spec.wfComponents comps = true ->
    allChars (fun x => negb (canStart x)) pre = true ->
    List.length comps <= fuel ->
    concatAll
      (map (fun sg => match sg with
                      | Text t => t
                      | Match m cs => if keepComponent cc ca isLast cs then m else ""
                      end)
           (segments_loop fuel constSelectorRe (pre +:+ Spec.renderComponents comps)))
    = pre +:+ Spec.renderComponents (List.filter (Spec.kept cc ca (truthy isLast)) comps).
Proof.
  induction comps as [|c comps IH]; intros pre fuel Hwf Hpre Hfuel.
  - cbn [Spec.renderComponents List.filter]. rewrite str_app_nil_r.
    destruct fuel as [|fuel].
    + cbn [segments_loop map concatAll]. apply str_app_nil_r.
    + rewrite segments_loop_none by (apply search_constSelectorRe_none; exact Hpre).
      cbn [map concatAll]. apply str_app_nil_r.
  - pose proof Hwf as Hwf'. cbn [Spec.wfComponents] in Hwf'.
    apply andb_prop in Hwf' as [[Hc _]%andb_prop Hcs].
    cbn [Spec.renderComponents].
    destruct (classic_id c) as [[n ->]|Hid].
    + cbn [List.filter Spec.kept Spec.renderComponents].
      rewrite <- !str_app_assoc. apply IH; [exact Hcs| |cbn [List.length] in Hfuel; lia].
      cbn [Spec.wfComponent] in Hc. apply isName_inv in Hc as [_ Hc].
      cbn [Spec.renderComponent]. rewrite !allChars_app, Hpre.
      rewrite (allChars_impl _ _ _ nameChar_cannot_start Hc). reflexivity.
    + destruct (execAt_component c comps Hwf Hid) as (caps & Hexec & Hkeep).
      destruct fuel as [|fuel]; [cbn [List.length] in Hfuel; lia|].
      rewrite (segments_loop_match fuel constSelectorRe _ pre
                 (Spec.renderComponent c) caps (Spec.renderComponents comps)).
      * cbn [map concatAll]. rewrite Hkeep.
        specialize (IH "" fuel Hcs eq_refl). rewrite !str_app_nil_l in IH.
        rewrite IH by (cbn [List.length] in Hfuel; lia).
        cbn [List.filter]. destruct (Spec.kept cc ca (truthy isLast) c).
        -- reflexivity.
        -- rewrite str_app_nil_l. reflexivity.
      * unfold search.
        rewrite (search_from_skip constSelectorRe canStart pre _
                   execAt_constSelectorRe_miss Hpre).
        rewrite str_app_nil_l. apply search_from_hit. exact Hexec.
      * destruct (renderComponent_starts c) as (x & t & -> & _). discriminate.
Qed.
End Clusters.

(** ** Clusters and combinators *)


Lemma headChar_inCluster x : Spec.headChar x = true -> inCluster x = true.
Proof.
  unfold Spec.headChar. intros [H|H]%orb_prop.
  - apply nameChar_notCombinator. exact H.
  - unfold ascii_eqb in H. apply Ascii.eqb_eq in H. subst x. reflexivity.
Qed.

Lemma headChar_cannot_start x : Spec.headChar x = true -> negb (canStart x) = true.
Proof.
  unfold Spec.headChar. intros [H|H]%orb_prop.
  - apply nameChar_cannot_start. exact H.
  - unfold ascii_eqb in H. apply Ascii.eqb_eq in H. subst x. reflexivity.
Qed.

Lemma renderComponent_inCluster c :
  Spec.wfComponent c = true -> allChars inCluster (Spec.renderComponent c) = true.
Proof.
  destruct c as [n|n|[|] n|a [v|]]; cbn [Spec.wfComponent Spec.renderComponent]; intros H.
  1-4: apply isName_inv in H as [_ H]; rewrite allChars_app;
       rewrite (allChars_impl _ _ _ nameChar_notCombinator H); reflexivity.
  - apply andb_prop in H as [[_ Ha]%isName_inv [_ Hv]%isValue_inv].
    rewrite !allChars_app.
    rewrite (allChars_impl _ _ _ nameChar_notCombinator Ha).
    rewrite (allChars_impl _ _ _ valueChar_notCombinator Hv). reflexivity.
  - apply isName_inv in H as [_ H]. rewrite !allChars_app.
    rewrite (allChars_impl _ _ _ nameChar_notCombinator H). reflexivity.
Qed.

Lemma renderComponents_inCluster comps :
  Spec.wfComponents comps = true -> allChars inCluster (Spec.renderComponents comps) = true.
Proof.
  induction comps as [|c comps IH]; [reflexivity|].
  cbn [Spec.wfComponents Spec.renderComponents].
  intros [[Hc _]%andb_prop Hcs]%andb_prop.
  rewrite allChars_app, (renderComponent_inCluster c Hc), (IH Hcs). reflexivity.
Qed.

Lemma renderComponents_length comps :
  List.length comps <= String.length (Spec.renderComponents comps).
Proof.
  induction comps as [|c comps IH]; [reflexivity|].
  cbn [Spec.renderComponents List.length]. rewrite str_length_app.
  destruct (renderComponent_starts c) as (x & t & -> & _). cbn [String.length]. lia.
Qed.

Lemma wfCluster_inv (cl : Spec.cluster) :
  Spec.wfCluster cl = true ->
  allChars Spec.headChar (Spec.cl_head cl) = true
  /\ Spec.wfComponents (Spec.cl_comps cl) = true
  /\ Spec.renderCluster cl <> ""
  /\ allChars inCluster (Spec.renderCluster cl) = true.
Proof.
  unfold Spec.wfCluster. intros [[Hh Hc]%andb_prop Hne]%andb_prop.
  repeat split; try assumption.
  - intros E. rewrite E in Hne. discriminate.
  - unfold Spec.renderCluster. rewrite allChars_app.
    rewrite (allChars_impl _ _ _ headChar_inCluster Hh).
    rewrite (renderComponents_inCluster _ Hc). reflexivity.
Qed.

(** No cluster starts with a combinator. *)
Lemma execAt_selectorSeqRe_miss x t :
  inCluster x = false -> execAt selectorSeqRe (String x t) = None.
Proof.
  intros H. unfold execAt, selectorSeqRe, notCombinator.
  rewrite rmatch_alt, rmatch_grp, rmatch_seq.
  rewrite !rmatch_plus_miss by exact H. reflexivity.
Qed.

Lemma takeN_all s : takeN (String.length s) s = s.
Proof. induction s as [|x s IH]; [reflexivity|]. cbn [String.length takeN]. rewrite IH. reflexivity. Qed.

(** The cluster at the end of the selector is captured. *)
Lemma execAt_selectorSeqRe_last s :
  s <> "" -> allChars inCluster s = true ->
  execAt selectorSeqRe s = Some (s, [(1, s)], "").
Proof.
  intros Hs Hchars. rewrite <- (str_app_nil_r s) at 1.
  apply execAt_intro. intros k x Hk.
  unfold selectorSeqRe, notCombinator.
  rewrite rmatch_alt, rmatch_grp, rmatch_seq, str_app_nil_r.
  rewrite (rmatch_plus_hit inCluster s [] _ x); [reflexivity| |].
  - apply startsWith_allChars; assumption.
  - rewrite <- (str_app_nil_r s) at 1.
    rewrite dropWhile_app by (assumption || reflexivity).
    cbn [rmatch String.length]. rewrite Nat.sub_0_r, takeN_all. exact Hk.
Qed.

(** A cluster before a combinator is matched without a capture: the first
    alternative finds no end of input at any place the run can stop. *)
Lemma execAt_selectorSeqRe_inner s rest :
  s <> "" -> allChars inCluster s = true -> startsWith inCluster rest = false ->
  rest <> "" ->
  execAt selectorSeqRe (s +:+ rest) = Some (s, [], rest).
Proof.
  intros Hs Hchars Hrest Hne. apply execAt_intro. intros k x Hk.
  unfold selectorSeqRe, notCombinator. rewrite rmatch_alt, rmatch_grp, rmatch_seq.
  assert (Hfirst : forall B (k' : string -> captures -> option B),
            rmatch (Plus (Chr inCluster)) (s +:+ rest) []
              (fun s1 cs1 => rmatch Eos s1 cs1 k') = None).
  { intros B k'. rewrite rmatch_plus_chr.
    destruct s as [|c s]; [contradiction|]. rewrite str_app_cons.
    cbn [allChars] in Hchars. apply andb_prop in Hchars as [Hc Hchars]. rewrite Hc.
    apply starChr_none. intros t Ht. apply stop_length in Ht.
    rewrite dropWhile_app in Ht by assumption.
    destruct t as [|y t]; [|reflexivity].
    destruct rest; [contradiction|cbn [String.length] in Ht; lia]. }
  fold inCluster. rewrite Hfirst.
  apply rmatch_plus_hit.
  - rewrite startsWith_app by exact Hs. apply startsWith_allChars; assumption.
  - rewrite dropWhile_app by assumption. exact Hk.
Qed.

Section Selectors.
Variables (cc : ConstClasses) (ca : option (list string)).

(** The inner [replace] on the text of one cluster. *)
Lemma replaceAll_cluster (isLast : jsval) (cl : Spec.cluster) :
  Spec.wfCluster cl = true ->
  replaceAll constSelectorRe
    (fun m cs' => if keepComponent cc ca isLast cs' then m else "")
    (Spec.renderCluster cl)
  = Spec.renderCluster (Spec.pruneCluster cc ca (truthy isLast) cl).
Proof.
  intros (Hh & Hc & _ & _)%wfCluster_inv.
  unfold replaceAll, segments, Spec.renderCluster, Spec.pruneCluster.
  cbn [Spec.cl_head Spec.cl_comps].
  apply cluster_loop; [exact Hc| |].
  - apply (allChars_impl _ _ _ headChar_cannot_start Hh).
  - rewrite str_length_app. pose proof (renderComponents_length (Spec.cl_comps cl)). lia.
Qed.

(** What follows a cluster: nothing, or a combinator. *)
Lemma wfSelector_rest (sel : Spec.selector) :
  Spec.wfSelector false sel = true ->
  sel = [] \/
  (Spec.renderSelector sel <> ""
   /\ startsWith inCluster (Spec.renderSelector sel) = false
   /\ match sel with [] => true | _ => false end = false).
Proof.
  destruct sel as [|[sep cl] sel]; [left; reflexivity|right].
  cbn [Spec.wfSelector orb] in H.
  apply andb_prop in H as [[[Hsep Hne]%andb_prop _]%andb_prop _].
  cbn [Spec.renderSelector]. destruct sep as [|x sep]; [discriminate|].
  rewrite str_app_cons. cbn [allChars] in Hsep. apply andb_prop in Hsep as [Hx _].
  repeat split; [discriminate|]. cbn [startsWith]. unfold inCluster. rewrite Hx. reflexivity.
Qed.

Lemma search_selectorSeqRe_none pre :
  allChars isCombinator pre = true -> search selectorSeqRe pre = None.
Proof.
  intros Hpre. unfold search. rewrite <- (str_app_nil_r pre).
  rewrite (search_from_skip selectorSeqRe inCluster pre "");
    [reflexivity|apply execAt_selectorSeqRe_miss|].
  apply (allChars_impl isCombinator); [|exact Hpre].
  intros x Hx. unfold inCluster. rewrite Hx. reflexivity.
Qed.

(** The outer [replace]: combinators are passed over and every cluster
    goes through the inner [replace], the last one with its capture. *)
Lemma selector_loop :
  forall (sel : Spec.selector) first pre fuel,
    Spec.wfSelector first sel = true ->
    allChars isCombinator pre = true ->
    List.length sel <= fuel ->
    concatAll
      (map (fun sg =>
              match sg with
              | Text t => t
              | Match sequence cs =>
                  replaceAll constSelectorRe
                    (fun m cs' =>
                       if keepComponent cc ca (ofCapture (cap 1 cs)) cs' then m else "")
                    sequence
              end)
           (segments_loop fuel selectorSeqRe (pre +:+ Spec.renderSelector sel)))
    = pre +:+ Spec.renderSelector (Spec.pruneSelector cc ca sel).
Proof.
  induction sel as [|[sep cl] sel IH]; intros first pre fuel Hwf Hpre Hfuel.
  - cbn [Spec.renderSelector Spec.pruneSelector]. rewrite str_app_nil_r.
    destruct fuel as [|fuel].
    + cbn [segments_loop map concatAll]. apply str_app_nil_r.
    + rewrite segments_loop_none by (apply search_selectorSeqRe_none; exact Hpre).
      cbn [map concatAll]. apply str_app_nil_r.
  - cbn [Spec.wfSelector] in Hwf.
    apply andb_prop in Hwf as [[[Hsep _]%andb_prop Hcl]%andb_prop Hsel].
    pose proof (wfCluster_inv cl Hcl) as (_ & _ & Hne & Hchars).
    destruct fuel as [|fuel]; [cbn [List.length] in Hfuel; lia|].
    cbn [Spec.renderSelector Spec.pruneSelector]. rewrite <- !str_app_assoc.
    assert (Hskip : allChars (fun x => negb (inCluster x)) (pre +:+ sep) = true).
    { rewrite allChars_app. apply andb_true_intro.
      split; (eapply (allChars_impl isCombinator); [|eassumption]);
        intros x Hx; unfold inCluster; rewrite Hx; reflexivity. }
    destruct (wfSelector_rest sel Hsel) as [->|(Hrest & Hstart & Hlast)].
    + cbn [Spec.renderSelector Spec.pruneSelector]. rewrite !str_app_nil_r.
      rewrite (segments_loop_match fuel selectorSeqRe _ (pre +:+ sep)
                 (Spec.renderCluster cl) [(1, Spec.renderCluster cl)] "").
      * cbn [map concatAll cap Nat.eqb ofCapture].
        rewrite (replaceAll_cluster _ cl Hcl).
        replace (truthy (JStr (Spec.renderCluster cl))) with true
          by (destruct (Spec.renderCluster cl); [contradiction|reflexivity]).
        replace (segments_loop fuel selectorSeqRe "") with [Text ""]
          by (destruct fuel; reflexivity).
        cbn [map concatAll]. rewrite !str_app_nil_r. reflexivity.
      * unfold search. rewrite <- (str_app_nil_r (Spec.renderCluster cl)) at 1.
        rewrite (search_from_skip selectorSeqRe inCluster (pre +:+ sep) _
                   execAt_selectorSeqRe_miss Hskip).
        rewrite str_app_nil_l, str_app_nil_r. apply search_from_hit.
        apply execAt_selectorSeqRe_last; assumption.
      * exact Hne.
    + rewrite Hlast. rewrite !str_app_assoc.
      rewrite <- (str_app_assoc pre sep).
      rewrite (segments_loop_match fuel selectorSeqRe _ (pre +:+ sep)
                 (Spec.renderCluster cl) [] (Spec.renderSelector sel)).
      * cbn [map concatAll cap ofCapture].
        rewrite (replaceAll_cluster _ cl Hcl). cbn [truthy].
        specialize (IH false "" fuel Hsel eq_refl). rewrite !str_app_nil_l in IH.
        rewrite IH by (cbn [List.length] in Hfuel; lia).
        rewrite !str_app_assoc. reflexivity.
      * unfold search.
        rewrite (search_from_skip selectorSeqRe inCluster (pre +:+ sep) _
                   execAt_selectorSeqRe_miss Hskip).
        rewrite str_app_nil_l. apply search_from_hit.
        apply execAt_selectorSeqRe_inner; assumption.
      * exact Hne.
Qed.

Lemma renderSelector_length (sel : Spec.selector) :
  forall first, Spec.wfSelector first sel = true ->
                List.length sel <= String.length (Spec.renderSelector sel).
Proof.
  induction sel as [|[sep cl] sel IH]; intros first Hwf; [reflexivity|].
  cbn [Spec.wfSelector] in Hwf.
  apply andb_prop in Hwf as [[_ Hcl]%andb_prop Hsel].
  apply wfCluster_inv in Hcl as (_ & _ & Hne & _).
  cbn [Spec.renderSelector List.length]. rewrite !str_length_app.
  pose proof (IH false Hsel).
  destruct (Spec.renderCluster cl); [contradiction|]. cbn [String.length]. lia.
Qed.

(** The pre-filter on the text of a selector is the pruning of its
    structure. *)
Lemma constSelector_prunes (sel : Spec.selector) :
  Spec.wfSelector true sel = true ->
  constSelector cc ca (Spec.renderSelector sel)
  = Spec.renderSelector (Spec.pruneSelector cc ca sel).
Proof.
  intros Hwf. unfold constSelector, replaceAll, segments.
  rewrite <- (str_app_nil_l (Spec.renderSelector (Spec.pruneSelector cc ca sel))).
  rewrite <- (str_app_nil_l (Spec.renderSelector sel)) at 2.
  apply (selector_loop sel true "" _ Hwf eq_refl).
  pose proof (renderSelector_length sel true Hwf). lia.
Qed.
End Selectors.
End ComponentFacts.

(** C2, as amended.  For a selector made of clusters, each a head (a type
    selector, [*] or nothing) followed by id, class, pseudo-class,
    pseudo-element and attribute components with plain names, where a test
    for the presence of an attribute is the last attribute test of its
    cluster: the pre-filter strips every class, pseudo-class, pseudo-element
    and attribute component of every cluster, except that in the last
    cluster it keeps the classes listed in the constant classes of the scope
    (every class when these are the marker [true]) and the attribute tests,
    with or without a value, whose attribute is listed in its constant
    attributes; heads, ids and combinators stay as they are.  The selector
    pruned so is the one handed to the selector-matching primitive. *)
Theorem C2_prefilter_keeps_constants_of_the_last_cluster (dom : Dom) (element : Element)
    (sel : Spec.selector) (w : World) :
  Spec.wfSelector true sel = true ->
  constSelector (constClasses dom element) (constAttributes dom element)
    (Spec.renderSelector sel)
  = Spec.renderSelector
      (Spec.pruneSelector (constClasses dom element) (constAttributes dom element) sel)
  /\ isMatchingPossible dom element (Spec.renderSelector sel) w
     = let pruned :=
         Spec.renderSelector
           (Spec.pruneSelector (constClasses dom element) (constAttributes dom element) sel) in
       match matches dom element pruned with
       | Some b => Ok b (logQuery w element pruned)
       | None => Fault (logQuery w element pruned)
       end.
Proof.
  intros Hwf. rewrite isMatchingPossible_run. cbn zeta.
  rewrite (constSelector_prunes _ _ sel Hwf). split; reflexivity.
Qed.

(** The selector [.dark x-foo#main.big.open[disabled]:hover] for a scope
    with the constant class [big] and the constant attribute [disabled]. *)
Lemma C2_sample_selector_is_pruned :
  Spec.wfSelector true sampleSelector = true
  /\ constSelector (CCList ["big"]) (Some ["disabled"]) (Spec.renderSelector sampleSelector)
     = " x-foo#main.big[disabled]"
  /\ isMatchingPossible constantsDom 2 (Spec.renderSelector sampleSelector) emptyWorld
     = Ok true (logQuery emptyWorld 2 " x-foo#main.big[disabled]").
Proof.
  split; [reflexivity|].
  exact (C2_prefilter_keeps_constants_of_the_last_cluster
           constantsDom 2 sampleSelector emptyWorld eq_refl).
Defined.

(** C2 fails as stated: for that scope and that selector the constants
    [.big] and [[disabled]] of the last cluster are what stays, the other
    class and the pseudo-class of the last cluster are stripped, and so is
    the class of the first cluster; the pruning as stated would give
    [.dark x-foo#main.open:hover]. *)
Lemma C2_constants_stay_and_the_rest_goes :
  Spec.renderSelector sampleSelector = ".dark x-foo#main.big.open[disabled]:hover"
  /\ constSelector (CCList ["big"]) (Some ["disabled"])
       ".dark x-foo#main.big.open[disabled]:hover"
     = " x-foo#main.big[disabled]"
  /\ Spec.renderSelector
       (Spec.statedPruneSelector (CCList ["big"]) (Some ["disabled"]) sampleSelector)
     = ".dark x-foo#main.open:hover"
  /\ constSelector (CCList ["big"]) (Some ["disabled"]) (Spec.renderSelector sampleSelector)
     <> Spec.renderSelector
          (Spec.statedPruneSelector (CCList ["big"]) (Some ["disabled"]) sampleSelector).
Proof.
  split; [reflexivity|]. split; [vm_compute; reflexivity|].
  split; [reflexivity|]. vm_compute. discriminate.
Qed.

(* ================================================================== *)
(** * Further properties of the library *)
(* ================================================================== *)

Import Mixin Laws Pages.

(** ** Scope ids *)

Section ScopeIds.
Implicit Types (w : World) (e : Element).

Lemma idsKept_refl w : idsKept w w.
Proof. split; auto. Qed.

Lemma idsKept_trans w1 w2 w3 : idsKept w1 w2 -> idsKept w2 w3 -> idsKept w1 w3.
Proof. intros [A1 A2] [B1 B2]. split; auto. Qed.

(** A step that leaves the ids and the counter alone. *)
Lemma idsKept_same w w' :
  partIds w' = partIds w -> partId w' = partId w -> idsKept w w'.
Proof.
  intros E1 E2. split.
  - intros [H1 H2]. split.
    + intros e i. rewrite E1, E2. apply H1.
    + intros e1 e2 i. rewrite E1. apply H2.
  - intros e i. rewrite E1. auto.
Qed.

Lemma partIdForElement_idsKept e F O : obeys idsKept F O (partIdForElement e).
Proof.
  intros w. rewrite partIdForElement_run. destruct (partIds w !! e) as [id|] eqn:E.
  - apply idsKept_refl.
  - split.
    + intros [H1 H2]. split; cbn.
      * intros e' i. destruct (decide (e' = e)) as [->|Hne].
        -- rewrite lookup_insert_eq. intros [= <-]. lia.
        -- rewrite lookup_insert_ne by congruence. intros Hi%H1. lia.
      * intros e1 e2 i.
        destruct (decide (e1 = e)) as [->|Hne1]; destruct (decide (e2 = e)) as [->|Hne2];
          rewrite ?lookup_insert_eq, ?lookup_insert_ne by congruence; try reflexivity.
        -- intros [= <-] Hi%H1. lia.
        -- intros Hi%H1 [= <-]. lia.
        -- apply H2.
    + intros e' i Hi. cbn. apply partIds_insert_stable; assumption.
Qed.

Lemma partCssToCustomPropCss_idsKept e text F O :
  obeys idsKept F O (partCssToCustomPropCss e text).
Proof.
  unfold partCssToCustomPropCss.
  apply obeys_foldM; [apply idsKept_refl|apply idsKept_trans|]. intros acc [t|m cs].
  - apply obeys_ret. apply idsKept_refl.
  - apply obeys_bind; [apply idsKept_trans|apply partIdForElement_idsKept|].
    intros id. apply obeys_ret. apply idsKept_refl.
Qed.

Lemma initializeStyles_idsKept e texts F O :
  forall i, obeys idsKept F O (initializeStyles e i texts).
Proof.
  induction texts as [|t texts IH]; intros i; cbn [initializeStyles].
  - apply obeys_ret. apply idsKept_refl.
  - apply obeys_bind; [apply idsKept_trans| |intros _; apply IH].
    unfold initializeStyle.
    apply obeys_bind; [apply idsKept_trans|apply partCssToCustomPropCss_idsKept|].
    intros [[parts|] css]; cbn [fst snd]; [|apply obeys_ret; apply idsKept_refl].
    intros w. cbn. apply idsKept_same; reflexivity.
Qed.

Lemma ensurePartData_idsKept e F O : obeys idsKept F O (ensurePartData e).
Proof.
  intros w. rewrite ensurePartData_run. destruct (cssParts w !! e); [apply idsKept_refl|].
  unfold initializeParts, bind, getWorld, putWorld.
  pose proof (initializeStyles_idsKept e (default [] (styles w !! e)) F O 0 (logScan w e)) as H.
  assert (H0 : idsKept w (logScan w e)) by (apply idsKept_same; reflexivity).
  destruct (initializeStyles e 0 _ (logScan w e)) as [[] w1|w1|].
  - destruct (default None (cssParts w1 !! e)); cbn.
    + eapply idsKept_trans; [exact H0|exact H].
    + eapply idsKept_trans; [exact H0|].
      eapply idsKept_trans; [exact H|]. apply idsKept_same; reflexivity.
  - destruct H as [HF H]. split; [exact HF|]. eapply idsKept_trans; [exact H0|exact H].
  - exact H.
Qed.

Lemma partDataForElement_idsKept e F O : obeys idsKept F O (partDataForElement e).
Proof.
  unfold partDataForElement.
  apply obeys_bind; [apply idsKept_trans|apply ensurePartData_idsKept|]. intros _.
  apply obeys_bind; [apply idsKept_trans|intros w; apply idsKept_refl|]. intros w1.
  apply obeys_ret. apply idsKept_refl.
Qed.

Lemma isMatchingPossible_idsKept dom e sel : obeys idsKept True True (isMatchingPossible dom e sel).
Proof.
  intros w. rewrite isMatchingPossible_run. cbn zeta.
  destruct (matches dom e _); [|split; [exact I|]]; apply idsKept_same; reflexivity.
Qed.

Lemma exec_idsKept dom c w w' : exec dom c w = Some w' -> idsKept w w'.
Proof.
  assert (Hafter : forall A (m : M A), obeys idsKept True True m ->
                     after (m w) = Some w' -> idsKept w w').
  { intros A m Hm E. specialize (Hm w). destruct (m w) as [a w1|w1|]; cbn in E.
    - injection E as <-. exact Hm.
    - injection E as <-. apply Hm.
    - discriminate. }
  destruct c as [e|e|e|name c e rt|fuel name e rt|fuel e]; cbn [exec]; apply Hafter.
  - apply ensurePartData_idsKept.
  - apply partDataForElement_idsKept.
  - apply partIdForElement_idsKept.
  - apply obeys_propsFromElement;
      [apply idsKept_refl|apply idsKept_trans|intros; apply partDataForElement_idsKept
      |intros; apply partIdForElement_idsKept|intros; apply isMatchingPossible_idsKept].
  - apply obeys_propsForPart with (depth := fun _ => 0);
      [apply idsKept_refl|apply idsKept_trans|intros; apply partDataForElement_idsKept
      |intros; apply partIdForElement_idsKept|intros; apply isMatchingPossible_idsKept
      |left; exact I|left; exact I].
  - apply obeys_cssForElementDom with (depth := fun _ => 0);
      [apply idsKept_refl|apply idsKept_trans|intros; apply partDataForElement_idsKept
      |intros; apply partIdForElement_idsKept|intros; apply isMatchingPossible_idsKept
      |intros; apply ensurePartData_idsKept|left; exact I|intros; exact I|left; exact I].
Qed.

Lemma reachable_idsKept dom w w' : reachable dom w w' -> idsKept w w'.
Proof.
  induction 1 as [|w1 w2 c _ IH Hc]; [apply idsKept_refl|].
  eapply idsKept_trans; [exact IH|]. eapply exec_idsKept. exact Hc.
Qed.

(** Scope ids never collide.  In every state the calls of the library
    lead to, from a state where the ids given out lie below the counter
    and differ from one another: two different elements get two different
    ids, whether these were given out before or are given out now, and an
    element keeps the id it has. *)
Theorem scope_ids_are_distinct_and_stable (dom : Dom) (w0 w : World) (e1 e2 : Element) :
  idsFresh w0 -> reachable dom w0 w -> e1 <> e2 ->
  exists i1 i2 w1 w2,
    partIdForElement e1 w = Ok i1 w1
    /\ partIdForElement e2 w1 = Ok i2 w2
    /\ i1 <> i2
    /\ (forall w3, reachable dom w2 w3 ->
         partIdForElement e1 w3 = Ok i1 w3 /\ partIdForElement e2 w3 = Ok i2 w3).
Proof.
  intros Hfresh Hreach Hne.
  pose proof (proj1 (reachable_idsKept dom w0 w Hreach) Hfresh) as Hw.
  destruct (total_partIdForElement e1 w) as (i1 & w1 & E1).
  destruct (total_partIdForElement e2 w1) as (i2 & w2 & E2).
  exists i1, i2, w1, w2. split; [exact E1|]. split; [exact E2|].
  pose proof (partIdForElement_idsKept e1 True True w) as K1. rewrite E1 in K1.
  pose proof (partIdForElement_idsKept e2 True True w1) as K2. rewrite E2 in K2.
  assert (H1 : partIds w1 !! e1 = Some i1).
  { rewrite partIdForElement_run in E1. destruct (partIds w !! e1) eqn:E.
    - injection E1 as <- <-. exact E.
    - injection E1 as <- <-. cbn. apply lookup_insert_eq. }
  assert (H2 : partIds w2 !! e2 = Some i2).
  { rewrite partIdForElement_run in E2. destruct (partIds w1 !! e2) eqn:E.
    - injection E2 as <- <-. exact E.
    - injection E2 as <- <-. cbn. apply lookup_insert_eq. }
  pose proof (proj2 K2 e1 i1 H1) as H1'.
  pose proof (proj1 K2 (proj1 K1 Hw)) as [_ Hinj].
  split.
  - intros <-. apply Hne. exact (Hinj e1 e2 i1 H1' H2).
  - intros w3 Hw3. pose proof (proj2 (reachable_idsKept dom w2 w3 Hw3)) as Hkeep.
    rewrite !partIdForElement_run, (Hkeep e1 i1 H1'), (Hkeep e2 i2 H2). split; reflexivity.
Qed.

(** On a page where nothing was used yet. *)
Lemma scope_ids_of_two_elements :
  idsFresh emptyWorld /\ reachable chainDom emptyWorld emptyWorld /\ 1 <> 2
  /\ exists i1 i2 w1 w2,
       partIdForElement 1 emptyWorld = Ok i1 w1
       /\ partIdForElement 2 w1 = Ok i2 w2
       /\ i1 <> i2
       /\ (forall w3, reachable chainDom w2 w3 ->
            partIdForElement 1 w3 = Ok i1 w3 /\ partIdForElement 2 w3 = Ok i2 w3).
Proof.
  assert (Hfresh : idsFresh emptyWorld).
  { split; [intros e i|intros e1 e2 i]; cbn; rewrite lookup_empty; discriminate. }
  split; [exact Hfresh|]. split; [constructor|]. split; [lia|].
  apply (scope_ids_are_distinct_and_stable chainDom emptyWorld emptyWorld 1 2 Hfresh);
    [constructor|lia].
Defined.
End ScopeIds.

(** ** Names of custom properties *)

Section VariableNames.
Implicit Types (id : nat) (name prop endSelector : string).

Lemma pretty_N_char_digit x : isDigit (pretty_N_char x) = true.
Proof. unfold pretty_N_char. repeat case_match; reflexivity. Qed.

Lemma pretty_N_go_digits x :
  forall s, allChars isDigit s = true -> allChars isDigit (pretty_N_go x s) = true.
Proof.
  induction (N.lt_wf_0 x) as [x _ IH]. intros s Hs.
  destruct (decide (0 < x)%N) as [Hx|Hx].
  - rewrite pretty_N_go_step by exact Hx. apply IH.
    + apply N.div_lt; [exact Hx|reflexivity].
    + cbn [allChars]. rewrite pretty_N_char_digit, Hs. reflexivity.
  - replace x with 0%N by lia. rewrite pretty_N_go_0. exact Hs.
Qed.

(** The decimal rendering of a number has digits only. *)
Lemma ofNat_digits id : allChars isDigit (ofNat id) = true.
Proof.
  unfold ofNat, pretty, pretty_nat, pretty, pretty_N.
  destruct (decide (N.of_nat id = 0%N)); [reflexivity|].
  apply pretty_N_go_digits. reflexivity.
Qed.

(** Two runs of digits that end before a character that is no digit. *)
Lemma digits_prefix (x y : string) (c d : ascii) (r t : string) :
  allChars isDigit x = true -> allChars isDigit y = true ->
  isDigit c = false -> isDigit d = false ->
  x +:+ String c r = y +:+ String d t -> x = y.
Proof.
  revert y. induction x as [|a x IH]; intros [|b y] Hx Hy Hc Hd E.
  - reflexivity.
  - rewrite str_app_nil_l, str_app_cons in E. injection E as -> _.
    cbn [allChars] in Hy. rewrite Hc in Hy. discriminate.
  - rewrite str_app_nil_l, str_app_cons in E. injection E as -> _.
    cbn [allChars] in Hx. rewrite Hd in Hx. discriminate.
  - rewrite !str_app_cons in E. injection E as -> E.
    cbn [allChars] in Hx, Hy. apply andb_prop in Hx as [_ Hx]. apply andb_prop in Hy as [_ Hy].
    rewrite (IH y Hx Hy Hc Hd E). reflexivity.
Qed.

(** The variables of different scopes never collide: whatever the part
    names, the property names and the end selectors are, the names
    synthesized for two different scope ids differ. *)
Theorem varForPart_tells_scopes_apart (id1 id2 : nat)
    (name1 prop1 end1 name2 prop2 end2 : string) :
  id1 <> id2 ->
  varForPart id1 name1 prop1 end1 <> varForPart id2 name2 prop2 end2.
Proof.
  intros Hne E. apply Hne. unfold varForPart in E.
  rewrite !str_app_cons, str_app_nil_l in E. injection E as E.
  apply digits_prefix in E; try apply ofNat_digits; try reflexivity.
  unfold ofNat in E. apply (inj pretty) in E. exact E.
Qed.

Lemma varForPart_scopes_1_and_12 :
  1 <> 12
  /\ varForPart 1 "2-part-a" "color" "" <> varForPart 12 "a" "color" "".
Proof.
  split; [lia|]. apply varForPart_tells_scopes_apart. lia.
Defined.

(** The name does not tell where the part name ends and the property
    name starts: the part [a-b] with the property [c] and the part [a]
    with the property [b-c] of one scope share their variable. *)
Theorem varForPart_hyphen_is_ambiguous (id : nat) (a b c endSelector : string) :
  varForPart id (a +:+ "-" +:+ b) c endSelector
  = varForPart id a (b +:+ "-" +:+ c) endSelector.
Proof.
  unfold varForPart. rewrite !str_app_assoc. reflexivity.
Qed.
End VariableNames.

(** ** Style texts without part rules *)

Section PlainStyles.
Implicit Types (s t u : string) (e : Element) (w : World).

Lemma hasDoubleColon_cons c s :
  hasDoubleColon (String c s)
  = (ascii_eqb c ":" && startsWith (ascii_eqb ":") s) || hasDoubleColon s.
Proof.
  destruct s as [|d s].
  - destruct c as [[] [] [] [] [] [] [] []]; reflexivity.
  - destruct c as [[] [] [] [] [] [] [] []]; try reflexivity.
    destruct d as [[] [] [] [] [] [] [] []]; reflexivity.
Qed.

Lemma hasDoubleColon_stop (P : ascii -> bool) s t :
  stop P s t -> hasDoubleColon s = false -> hasDoubleColon t = false.
Proof.
  induction 1 as [s|c s t _ _ IH]; [auto|].
  rewrite hasDoubleColon_cons. intros [_ H]%orb_false_iff. apply IH. exact H.
Qed.

Lemma rmatch_doubleColon_miss {A} s cs (k : string -> captures -> option A) :
  hasDoubleColon s = false -> rmatch (Lit "::") s cs k = None.
Proof.
  intros H. destruct s as [|a s].
  - reflexivity.
  - rewrite hasDoubleColon_cons in H. apply orb_false_iff in H as [H _].
    cbn [rmatch stripPrefix]. unfold ascii_eqb in *. rewrite Ascii.eqb_sym.
    destruct (Ascii.eqb a ":") eqn:Ea; [|reflexivity].
    cbn [andb] in H. destruct s as [|b s]; [reflexivity|].
    cbn [startsWith] in H. cbn [stripPrefix]. unfold ascii_eqb. rewrite H. reflexivity.
Qed.

(** The rule pattern needs a [::] to match. *)
Lemma execAt_cssRe_miss s : hasDoubleColon s = false -> execAt cssRe s = None.
Proof.
  intros H. unfold execAt, cssRe, Cat. cbn [fold_right].
  rewrite rmatch_seq. unfold ws at 1. rewrite rmatch_star_chr.
  apply starChr_none. intros t Ht.
  rewrite rmatch_seq, rmatch_grp, rmatch_star_chr.
  apply starChr_none. intros u Hu.
  rewrite rmatch_seq, rmatch_grp, rmatch_seq.
  apply rmatch_doubleColon_miss.
  eapply hasDoubleColon_stop; [exact Hu|]. eapply hasDoubleColon_stop; eassumption.
Qed.

Lemma search_cssRe_miss s :
  hasDoubleColon s = false -> forall skipped, search_from cssRe skipped s = None.
Proof.
  induction s as [|c s IH]; intros H skipped.
  - reflexivity.
  - rewrite search_from_miss by (apply execAt_cssRe_miss; exact H).
    apply IH. rewrite hasDoubleColon_cons in H. apply orb_false_iff in H as [_ H]. exact H.
Qed.

Lemma segments_cssRe_plain s :
  hasDoubleColon s = false -> segments cssRe s = [Text s].
Proof.
  intros H. unfold segments. apply segments_loop_none. apply search_cssRe_miss. exact H.
Qed.

Lemma partCssToCustomPropCss_plain e s w :
  hasDoubleColon s = false -> partCssToCustomPropCss e s w = Ok (None, s) w.
Proof.
  intros H. unfold partCssToCustomPropCss. rewrite (segments_cssRe_plain _ H).
  cbn [foldM]. unfold bind, ret. cbn [fst snd]. rewrite str_app_nil_l. reflexivity.
Qed.

(** A style text without [::] goes through the transformer as it is:
    there are no parts, the text that comes back is the text that went in,
    and the scope gets no id. *)
Theorem partCssToCustomPropCss_leaves_plain_css (e : Element) (cssText : string) (w : World) :
  hasDoubleColon cssText = false ->
  partCssToCustomPropCss e cssText w = Ok (None, cssText) w.
Proof.
  intros H. unfold partCssToCustomPropCss.
  assert (Hseg : segments cssRe cssText = [Text cssText]).
  { unfold segments. apply segments_loop_none. apply search_cssRe_miss. exact H. }
  rewrite Hseg. cbn [foldM]. unfold bind, ret. cbn [fst snd].
  rewrite str_app_nil_l. reflexivity.
Qed.

Lemma partCssToCustomPropCss_plain_rule :
  hasDoubleColon ".box:hover { color: red; }" = false
  /\ partCssToCustomPropCss 1 ".box:hover { color: red; }" emptyWorld
     = Ok (None, ".box:hover { color: red; }") emptyWorld.
Proof.
  split; [reflexivity|]. apply partCssToCustomPropCss_leaves_plain_css. reflexivity.
Defined.

Lemma initializeStyles_plain e texts :
  Forall (fun t => hasDoubleColon t = false) texts ->
  forall i w, initializeStyles e i texts w = Ok tt w.
Proof.
  induction 1 as [|t texts Ht _ IH]; intros i w; cbn [initializeStyles]; [reflexivity|].
  unfold bind at 1. unfold initializeStyle, bind at 1.
  rewrite (partCssToCustomPropCss_plain e t w Ht). cbn [fst]. unfold ret.
  apply IH.
Qed.

(** The first lookup of a scope whose style texts have no [::] stores the
    [null] marker and does nothing else: the style texts stay as they
    are and no id is given out. *)
Theorem ensurePartData_of_plain_styles (e : Element) (w : World) :
  cssParts w !! e = None ->
  Forall (fun t => hasDoubleColon t = false) (default [] (styles w !! e)) ->
  ensurePartData e w
  = Ok tt (setParts (logScan w e) (styles w) (<[e := None]> (cssParts w)))
  /\ forall w', ensurePartData e w = Ok tt w' ->
       partDataForElement e w' = Ok None w'
       /\ styles w' = styles w /\ partIds w' = partIds w /\ partId w' = partId w.
Proof.
  intros Hnone Hplain.
  assert (E : ensurePartData e w
              = Ok tt (setParts (logScan w e) (styles w) (<[e := None]> (cssParts w)))).
  { rewrite ensurePartData_run, Hnone. unfold initializeParts, bind, getWorld, putWorld.
    rewrite (initializeStyles_plain e _ Hplain). cbn [cssParts logScan].
    rewrite Hnone. reflexivity. }
  split; [exact E|]. intros w' E'. rewrite E in E'. injection E' as <-.
  split; [|repeat split].
  apply partDataForElement_cached. cbn. apply lookup_insert_eq.
Qed.

Lemma ensurePartData_of_a_plain_style :
  cssParts plainWorld !! 1 = None
  /\ Forall (fun t => hasDoubleColon t = false) (default [] (styles plainWorld !! 1))
  /\ ensurePartData 1 plainWorld
     = Ok tt (setParts (logScan plainWorld 1) (styles plainWorld)
                (<[1 := None]> (cssParts plainWorld))).
Proof.
  assert (H1 : cssParts plainWorld !! 1 = None) by reflexivity.
  assert (H2 : Forall (fun t => hasDoubleColon t = false)
                 (default [] (styles plainWorld !! 1))).
  { unfold plainWorld, withStyles. cbn [styles].
    rewrite list_to_map_cons, lookup_insert_eq. repeat constructor. }
  split; [exact H1|]. split; [exact H2|].
  exact (proj1 (ensurePartData_of_plain_styles 1 plainWorld H1 H2)).
Defined.
End PlainStyles.

(** ** What a replacement can do to a text *)

Section ReplaceFacts.
Implicit Types (r : regex) (s t m rest : string).

Lemma stripPrefix_Some l s t : stripPrefix l s = Some t -> s = l +:+ t.
Proof.
  revert s. induction l as [|a l IH]; intros s H.
  - cbn in H. injection H as <-. rewrite str_app_nil_l. reflexivity.
  - destruct s as [|b s]; [discriminate|]. cbn [stripPrefix] in H.
    unfold ascii_eqb in H. destruct (Ascii.eqb a b) eqn:E; [|discriminate].
    apply Ascii.eqb_eq in E. subst b. rewrite str_app_cons, (IH s H). reflexivity.
Qed.

(** The iterations of a [*] call the continuation on what is left of the
    input when the pattern under it does. *)
Lemma starLoop_suffix {A}
    (step : string -> captures -> (string -> captures -> option A) -> option A) :
  (forall s cs k x, step s cs k = Some x ->
     exists pre s' cs', s = pre +:+ s' /\ k s' cs' = Some x) ->
  forall fuel s cs k x,
    starLoop step k fuel s cs = Some x ->
    exists pre s' cs', s = pre +:+ s' /\ k s' cs' = Some x.
Proof.
  intros Hstep. induction fuel as [|fuel IH]; intros s cs k x H; cbn [starLoop] in H.
  - exists "", s, cs. rewrite str_app_nil_l. split; [reflexivity|exact H].
  - destruct (step s cs _) as [y|] eqn:E.
    + injection H as ->. apply Hstep in E as (pre & s1 & cs1 & -> & E).
      destruct (Nat.ltb _ _); [|discriminate].
      apply IH in E as (pre' & s' & cs' & -> & E).
      exists (pre +:+ pre'), s', cs'. rewrite str_app_assoc. split; [reflexivity|exact E].
    + exists "", s, cs. rewrite str_app_nil_l. split; [reflexivity|exact H].
Qed.

(** A match hands what is left of the input to its continuation. *)
Lemma rmatch_suffix {A} r :
  forall s cs (k : string -> captures -> option A) x,
    rmatch r s cs k = Some x ->
    exists pre s' cs', s = pre +:+ s' /\ k s' cs' = Some x.
Proof.
  induction r as [|P|l| |r1 IH1 r2 IH2|r1 IH1 r2 IH2|r1 IH1|i r1 IH1];
    intros s cs k x H; cbn [rmatch] in H.
  - exists "", s, cs. rewrite str_app_nil_l. split; [reflexivity|exact H].
  - destruct s as [|c s]; [discriminate|]. destruct (P c); [|discriminate].
    exists (String c ""), s, cs. split; [reflexivity|exact H].
  - destruct (stripPrefix l s) as [s'|] eqn:E; [|discriminate].
    exists l, s', cs. split; [apply stripPrefix_Some; exact E|exact H].
  - destruct s; [|discriminate]. exists "", "", cs. split; [reflexivity|exact H].
  - apply IH1 in H as (pre & s1 & cs1 & -> & H).
    apply IH2 in H as (pre' & s2 & cs2 & -> & H).
    exists (pre +:+ pre'), s2, cs2. rewrite str_app_assoc. split; [reflexivity|exact H].
  - destruct (rmatch r1 s cs k) as [y|] eqn:E.
    + injection H as ->. apply IH1 in E. exact E.
    + apply IH2 in H. exact H.
  - eapply starLoop_suffix; [|exact H]. intros s0 cs0 k0 x0. apply IH1.
  - apply IH1 in H as (pre & s1 & cs1 & -> & H). eexists pre, s1, _.
    split; [reflexivity|exact H].
Qed.

(** The matched text and the rest make up the input. *)
Lemma execAt_split r s m cs rest : execAt r s = Some (m, cs, rest) -> s = m +:+ rest.
Proof.
  unfold execAt. intros H. apply rmatch_suffix in H as (pre & s' & cs' & -> & H).
  rewrite takeN_app in H. injection H as <- _ <-. reflexivity.
Qed.

Lemma search_from_split r s :
  forall skipped sk m cs rest,
    search_from r skipped s = Some (sk, m, cs, rest) ->
    skipped +:+ s = sk +:+ m +:+ rest.
Proof.
  induction s as [|c s IH]; intros skipped sk m cs rest H; cbn [search_from] in H.
  - destruct (execAt r "") as [[[m' cs'] rest']|] eqn:E; [|discriminate].
    injection H as <- <- <- <-. rewrite (execAt_split _ _ _ _ _ E). reflexivity.
  - destruct (execAt r (String c s)) as [[[m' cs'] rest']|] eqn:E.
    + injection H as <- <- <- <-. rewrite (execAt_split _ _ _ _ _ E). reflexivity.
    + apply IH in H. rewrite <- H, str_app_assoc. reflexivity.
Qed.

(** A replacement with the [g] flag, piece by piece: the texts between
    the matches stay, and each match becomes what the callback makes of
    it.  [Q] holds of the pieces of a text it holds of, and [Rel] goes
    through concatenation. *)
Lemma replaceAll_pieces (Q : string -> Prop) (Rel : string -> string -> Prop)
    r (f : string -> captures -> string) :
  (forall a b, Q (a +:+ b) -> Q a /\ Q b) ->
  (forall t, Rel t t) ->
  (forall a a' b b', Rel a a' -> Rel b b' -> Rel (a +:+ b) (a' +:+ b')) ->
  (forall m cs, Q m -> Rel m (f m cs)) ->
  forall fuel s,
    Q s ->
    Rel s (concatAll (map (fun sg => match sg with Text t => t | Match m cs => f m cs end)
                          (segments_loop fuel r s))).
Proof.
  intros HQ Hrefl Happ Hf. induction fuel as [|fuel IH]; intros s Hs.
  - cbn [segments_loop map concatAll]. rewrite str_app_nil_r. apply Hrefl.
  - cbn [segments_loop]. destruct (search r s) as [[[[sk m] cs] rest]|] eqn:E.
    + unfold search in E. apply search_from_split in E. rewrite str_app_nil_l in E.
      subst s. apply HQ in Hs as [Hsk Hs]. apply HQ in Hs as [Hm Hrest].
      cbn [map concatAll]. apply Happ; [apply Hrefl|]. apply Happ; [apply Hf; exact Hm|].
      destruct m as [|c0 m0].
      * destruct rest as [|c rest].
        -- cbn [map concatAll]. apply Hrefl.
        -- cbn [map concatAll]. change (String c rest) with (String c "" +:+ rest).
           change (String c "" +:+ rest) with (String c "" +:+ rest) in Hrest.
           apply Happ; [apply Hrefl|]. apply IH.
           apply (HQ (String c "") rest). exact Hrest.
      * apply IH. exact Hrest.
    + cbn [map concatAll]. rewrite str_app_nil_r. apply Hrefl.
Qed.

Lemma deletion_refl s : deletion s s.
Proof. induction s; constructor; assumption. Qed.

Lemma deletion_all s : deletion s "".
Proof. induction s; constructor; assumption. Qed.

Lemma deletion_app a a' b b' : deletion a a' -> deletion b b' -> deletion (a +:+ b) (a' +:+ b').
Proof.
  intros Ha Hb. induction Ha as [|c s t _ IH|c s t _ IH].
  - rewrite !str_app_nil_l. exact Hb.
  - rewrite !str_app_cons. constructor. exact IH.
  - rewrite str_app_cons. constructor. exact IH.
Qed.

Lemma deletion_length s t : deletion s t -> String.length t <= String.length s.
Proof. induction 1; cbn [String.length]; lia. Qed.

(** The pre-filter only deletes.  For every selector text and every
    scope, the selector handed to the matcher is the selector with some of
    its characters taken out: nothing is added, nothing is moved, and
    in particular the pruned selector is never longer. *)
Theorem constSelector_only_deletes (cc : ConstClasses) (ca : option (list string))
    (selector : string) :
  deletion selector (constSelector cc ca selector)
  /\ String.length (constSelector cc ca selector) <= String.length selector.
Proof.
  assert (H : deletion selector (constSelector cc ca selector)).
  { unfold constSelector, replaceAll, segments.
    apply (replaceAll_pieces (fun _ => True) deletion);
      [auto|apply deletion_refl|apply deletion_app| |exact I].
    intros m cs _.
    apply (replaceAll_pieces (fun _ => True) deletion);
      [auto|apply deletion_refl|apply deletion_app| |exact I].
    intros m' cs' _. destruct (keepComponent cc ca _ cs');
      [apply deletion_refl|apply deletion_all]. }
  split; [exact H|apply deletion_length; exact H].
Qed.

(** A selector without [.], [:] and [[] has nothing the pre-filter
    looks at: it is handed to the matcher as it is, whatever the scope
    declares constant. *)
Theorem constSelector_keeps_static_selectors (cc : ConstClasses)
    (ca : option (list string)) (selector : string) :
  allChars (fun c => negb (opensComponent c)) selector = true ->
  constSelector cc ca selector = selector.
Proof.
  intros H. unfold constSelector, replaceAll, segments. symmetry.
  apply (replaceAll_pieces
           (fun s => allChars (fun c => negb (opensComponent c)) s = true) eq).
  - intros a b. rewrite allChars_app. apply andb_prop.
  - reflexivity.
  - intros a a' b b' -> ->. reflexivity.
  - intros m cs Hm. symmetry.
    rewrite segments_loop_none by (apply search_constSelectorRe_none; exact Hm).
    cbn [map concatAll]. apply str_app_nil_r.
  - exact H.
Qed.

Lemma constSelector_of_a_static_selector :
  allChars (fun c => negb (opensComponent c)) "x-foo > #main ~ *" = true
  /\ constSelector (CCList ["big"]) (Some ["disabled"]) "x-foo > #main ~ *"
     = "x-foo > #main ~ *".
Proof.
  split; [reflexivity|]. apply constSelector_keeps_static_selectors. reflexivity.
Defined.
End ReplaceFacts.

(** ** Declaration blocks *)

Section Declarations.
Implicit Types (s d cur : string).

Lemma execAt_propSepRe_miss s :
  allChars notSemicolon s = true -> execAt propSepRe s = None.
Proof.
  intros H. unfold execAt, propSepRe, Cat. cbn [fold_right].
  rewrite rmatch_seq. unfold ws at 1. rewrite rmatch_star_chr.
  apply starChr_none. intros t Ht. rewrite rmatch_seq. apply rmatch_lit_miss.
  pose proof (stop_allChars _ _ _ _ Ht H) as Hall.
  destruct t as [|c t]; [reflexivity|]. cbn [startsWith allChars] in *.
  apply andb_prop in Hall as [Hc _]. unfold notSemicolon, ascii_eqb in *.
  rewrite Ascii.eqb_sym. apply negb_true_iff. exact Hc.
Qed.

Lemma split_loop_propSepRe_plain s :
  allChars notSemicolon s = true ->
  forall fuel cur, String.length s < fuel -> split_loop fuel propSepRe cur s = [cur +:+ s].
Proof.
  induction s as [|c s IH]; intros H fuel cur Hfuel.
  - destruct fuel; [cbn in Hfuel; lia|]. cbn [split_loop]. rewrite str_app_nil_r. reflexivity.
  - destruct fuel; [cbn in Hfuel; lia|]. cbn [split_loop].
    rewrite (execAt_propSepRe_miss _ H).
    cbn [allChars] in H. apply andb_prop in H as [_ H].
    rewrite (IH H) by (cbn [String.length] in Hfuel; lia).
    rewrite str_app_assoc. reflexivity.
Qed.

(** A block without a semicolon is one piece. *)
Lemma split_propSepRe_plain s :
  allChars notSemicolon s = true -> split propSepRe s = [s].
Proof.
  intros H. unfold split. destruct s as [|c s]; [reflexivity|].
  rewrite (split_loop_propSepRe_plain _ H) by lia. rewrite str_app_nil_l. reflexivity.
Qed.

Lemma splitChar_from_cons sep cur s : exists x l, splitChar_from sep cur s = x :: l.
Proof.
  revert cur. induction s as [|c s IH]; intros cur; cbn [splitChar_from].
  - eauto.
  - destruct (ascii_eqb c sep); [eauto|apply IH].
Qed.

Lemma join_cons sep a x (l : list string) :
  join sep (a :: x :: l) = a +:+ sep +:+ join sep (x :: l).
Proof. reflexivity. Qed.

(** [split] and [join] on the same separator undo each other. *)
Lemma join_splitChar_from sep s :
  forall cur, join (String sep "") (splitChar_from sep cur s) = cur +:+ s.
Proof.
  induction s as [|c s IH]; intros cur; cbn [splitChar_from].
  - cbn [join]. rewrite str_app_nil_r. reflexivity.
  - destruct (ascii_eqb c sep) eqn:E.
    + unfold ascii_eqb in E. apply Ascii.eqb_eq in E. subst c.
      destruct (splitChar_from_cons sep "" s) as (x & l & El).
      specialize (IH ""). rewrite El in IH |- *.
      rewrite join_cons, IH, str_app_nil_l. reflexivity.
    + rewrite IH, str_app_assoc. reflexivity.
Qed.

(** The pieces of a declaration: what stands before the first colon, and
    pieces that joined again give what follows it. *)
Lemma splitChar_colon s :
  forall cur,
    exists rest,
      splitChar_from ":" cur s = (cur +:+ beforeColon s) :: rest
      /\ join ":" rest = afterColon s.
Proof.
  induction s as [|c s IH]; intros cur; cbn [splitChar_from].
  - exists []. rewrite str_app_nil_r. split; reflexivity.
  - unfold beforeColon, afterColon, notColon in *. cbn [takeWhile dropWhile].
    destruct (ascii_eqb c ":") eqn:E; cbn [negb].
    + exists (splitChar_from ":" "" s). rewrite str_app_nil_r. split; [reflexivity|].
      rewrite join_splitChar_from. apply str_app_nil_l.
    + destruct (IH (cur +:+ String c "")) as (rest & E1 & E2).
      exists rest. rewrite E1, str_app_assoc. split; [reflexivity|exact E2].
Qed.

(** A declaration is cut at its first colon.  A block with one
    declaration (no semicolon) gives one property: its name is what
    stands before the first colon and its value is all that follows that
    colon, further colons included, both trimmed; a declaration without a
    colon gets the empty value; a blank block gives no property, and
    neither does a declaration named [__proto__]. *)
Theorem parseProps_cuts_at_the_first_colon (d : string) :
  allChars notSemicolon d = true ->
  parseProps d
  = match trim d with
    | "" => []
    | decl => put [] (trim (beforeColon decl)) (trim (afterColon decl))
    end.
Proof.
  intros H. unfold parseProps. rewrite (split_propSepRe_plain d H). cbn [fold_left].
  destruct (trim d) as [|c t] eqn:Et; [reflexivity|].
  unfold splitChar. destruct (splitChar_colon (String c t) "") as (rest & -> & E).
  rewrite E, str_app_nil_l. reflexivity.
Qed.

Lemma parseProps_of_a_url_value :
  allChars notSemicolon " background : url(http://x/y.png) " = true
  /\ parseProps " background : url(http://x/y.png) "
     = [("background", "url(http://x/y.png)")].
Proof.
  split; [reflexivity|].
  rewrite (parseProps_cuts_at_the_first_colon " background : url(http://x/y.png) " eq_refl).
  vm_compute. reflexivity.
Defined.
End Declarations.

(** ** Resolved property maps *)

Section ResolvedMaps.
Implicit Types (props : option Props) (d part : PartDeclaration) (bucket p : string).









End ResolvedMaps.

(** ** Merging several maps *)

Section Merging.
Implicit Types (a b c : option Props) (i p : string).

Lemma propOf_mixPartProps a b i p :
  propOf (mixPartProps a b) i p
  = match propOf b i p with Some v => Some v | None => propOf a i p end.
Proof.
  destruct a as [a|], b as [b|]; cbn [mixPartProps].
  - apply propOf_mixBuckets.
  - reflexivity.
  - destruct (propOf (Some b) i p); reflexivity.
  - reflexivity.
Qed.

(** Merges compose.  Whatever way three maps, present or [undefined],
    are merged in a row, the lookups of the result are the same: the last
    map that supplies a property gives its value.  Merging a map into
    itself changes no lookup. *)
Theorem mixPartProps_composes (a b c : option Props) (i p : string) :
  propOf (mixPartProps (mixPartProps a b) c) i p
  = propOf (mixPartProps a (mixPartProps b c)) i p
  /\ propOf (mixPartProps (mixPartProps a b) c) i p
     = match propOf c i p, propOf b i p with
       | Some v, _ => Some v
       | None, Some v => Some v
       | None, None => propOf a i p
       end
  /\ propOf (mixPartProps a a) i p = propOf a i p.
Proof.
  rewrite !propOf_mixPartProps.
  destruct (propOf c i p), (propOf b i p), (propOf a i p); repeat split; reflexivity.
Qed.
End Merging.

(** ** The text of the injected style *)

Section InjectedText.
Variable dom : Dom.

Lemma cssForElementDom_loop_length fuel e :
  forall attrs css0 w css w',
    foldM
      (fun css attr =>
         rule <- ruleForPartInfo dom fuel (partInfoFromAttr (Some attr)) attr e ;;
         ret (css +:+ lftab +:+ rule))
      attrs css0 w = Ok css w' ->
    String.length css0 + 2 * List.length attrs <= String.length css.
Proof.
  induction attrs as [|attr attrs IH]; intros css0 w css w' H; cbn [foldM] in H.
  - injection H as <- _. cbn [List.length]. lia.
  - unfold bind at 1 in H. unfold bind at 1 in H.
    destruct (ruleForPartInfo dom fuel (partInfoFromAttr (Some attr)) attr e w)
      as [rule w1|w1|]; [|discriminate..].
    unfold ret at 1 in H. apply IH in H. rewrite !str_length_app in H.
    cbn [List.length]. change (String.length lftab) with 2 in H. lia.
Qed.


(** The text [cssForElementDom] returns is empty only when the shadow
    root has no node with a [part] attribute: each such node adds a line
    feed and a tab, whether or not a rule follows them.  So the text for
    a shadow root with part nodes is never empty, also when no scope
    styles any of the parts. *)
Theorem cssForElementDom_is_empty_without_part_nodes_only (fuel : nat)
    (element : Element) (w w' : World) (css : string) :
  cssForElementDom dom fuel element w = Ok css w' ->
  exists attrs,
    shadowParts dom element = Some attrs
    /\ 2 * List.length attrs <= String.length css
    /\ (css = "" <-> attrs = []).
Proof.
  unfold cssForElementDom. intros H.
  unfold bind at 1 in H.
  destruct (ensurePartData element w) as [[] w1|w1|]; [|discriminate..].
  unfold bind at 1 in H.
  destruct (partIdForElement element w1) as [id w2|w2|]; [|discriminate..].
  unfold bind at 1 in H.
  destruct (shadowParts dom element) as [attrs|]; [|discriminate].
  exists attrs. split; [reflexivity|]. cbn [orThrow] in H. unfold ret at 1 in H.
  pose proof (cssForElementDom_loop_length fuel element attrs "" w2 css w' H) as Hlen.
  cbn [String.length] in Hlen. split; [lia|]. split.
  - intros ->. cbn [String.length] in Hlen. destruct attrs; [reflexivity|cbn in Hlen; lia].
  - intros ->. cbn [foldM] in H. injection H as <- _. reflexivity.
Qed.

End InjectedText.

(** The shadow root of the element 2 has one node, with [part="label"]. *)
Lemma cssForElementDom_of_an_unstyled_part :
  cssForElementDom labelledDom 3 2 emptyWorld
  = Ok lftab (finalWorldOf (cssForElementDom labelledDom 3 2 emptyWorld))
  /\ exists attrs,
       shadowParts labelledDom 2 = Some attrs
       /\ 2 * List.length attrs <= String.length lftab
       /\ (lftab = "" <-> attrs = []).
Proof.
  assert (E : cssForElementDom labelledDom 3 2 emptyWorld
              = Ok lftab (finalWorldOf (cssForElementDom labelledDom 3 2 emptyWorld)))
    by (vm_compute; reflexivity).
  split; [exact E|].
  exact (cssForElementDom_is_empty_without_part_nodes_only labelledDom 3 2 _ _ _ E).
Defined.

(** ** The attributes the mixin observes *)

Section Observed.
Implicit Types (l result : list string) (x y : string).

Lemma inArray_elem x l : inArray x l = true <-> x ∈ l.
Proof.
  unfold inArray. rewrite existsb_exists. split.
  - intros (y & Hy & E). apply String.eqb_eq in E. subst y. apply list_elem_of_In. exact Hy.
  - intros H. exists x. split; [apply list_elem_of_In; exact H|apply String.eqb_refl].
Qed.

Lemma pushNew_elem result y x : x ∈ pushNew result y <-> x ∈ result \/ x = y.
Proof.
  unfold pushNew. destruct (inArray y result) eqn:E.
  - apply inArray_elem in E. split; [auto|]. intros [H| ->]; assumption.
  - rewrite elem_of_app, list_elem_of_singleton. reflexivity.
Qed.

Lemma pushNew_prefix result y : exists added, pushNew result y = result ++ added.
Proof.
  unfold pushNew. destruct (inArray y result).
  - exists []. rewrite List.app_nil_r. reflexivity.
  - eexists. reflexivity.
Qed.

Lemma pushNew_NoDup result y : NoDup result -> NoDup (pushNew result y).
Proof.
  intros H. unfold pushNew. destruct (inArray y result) eqn:E; [exact H|].
  apply NoDup_app. split; [exact H|]. split; [|apply NoDup_singleton].
  intros x Hx ->%list_elem_of_singleton.
  apply inArray_elem in Hx. congruence.
Qed.

Lemma pushAll_elem ks : forall result x,
  x ∈ fold_left pushNew ks result <-> x ∈ result \/ x ∈ ks.
Proof.
  induction ks as [|k ks IH]; intros result x; cbn [fold_left].
  - rewrite elem_of_nil. tauto.
  - rewrite IH, pushNew_elem, elem_of_cons. tauto.
Qed.

Lemma pushAll_prefix ks : forall result,
  exists added, fold_left pushNew ks result = result ++ added.
Proof.
  induction ks as [|k ks IH]; intros result; cbn [fold_left].
  - exists []. rewrite List.app_nil_r. reflexivity.
  - destruct (pushNew_prefix result k) as (a1 & ->).
    destruct (IH (result ++ a1)) as (a2 & ->).
    exists (a1 ++ a2). rewrite List.app_assoc. reflexivity.
Qed.

Lemma pushAll_NoDup ks : forall result,
  NoDup result -> NoDup (fold_left pushNew ks result).
Proof.
  induction ks as [|k ks IH]; intros result H; cbn [fold_left]; [exact H|].
  apply IH. apply pushNew_NoDup. exact H.
Qed.

Lemma arrayKeys_elem {V} (l : list V) x :
  x ∈ arrayKeys l <-> exists i, i < List.length l /\ x = ofNat i.
Proof.
  unfold arrayKeys. rewrite list_elem_of_fmap. split.
  - intros (i & -> & Hi). apply elem_of_seq in Hi. exists i. split; [lia|reflexivity].
  - intros (i & Hi & ->). exists i. split; [reflexivity|]. apply elem_of_seq. lia.
Qed.

(** What the mixin observes.  The array computed by [observedAttributes]
    starts with the attributes the super class observes, in their order;
    besides these it holds [class], unless the constant classes are the
    marker [true], and the indices [0], [1], ... of the array of constant
    attributes, as strings: the loop over that array is a [for ... in]
    loop, so a constant attribute is observed by its name only if the
    name is there for another reason.  Nothing is added twice.  Once
    computed, the array is what every later call returns. *)
Theorem observedAttributes_holds_indices (superObserved : option (list string))
    (cc : ConstClasses) (ca : option (list string)) :
  let result := computeObserved superObserved cc ca in
  (exists added, result = default [] superObserved ++ added)
  /\ (forall x,
        x ∈ result
        <-> x ∈ default [] superObserved
            \/ (cc <> CCBool true /\ x = "class")
            \/ (exists i, i < List.length (default [] ca) /\ x = ofNat i))
  /\ (NoDup (default [] superObserved) -> NoDup result)
  /\ (forall superObserved' cc' ca',
        observedAttributes (snd (observedAttributes None superObserved cc ca))
          superObserved' cc' ca'
        = (result, Some result)).
Proof.
  unfold observedAttributes, computeObserved. cbv zeta. cbn [snd].
  set (base := default [] superObserved).
  set (withClass := match cc with CCBool true => base | _ => pushNew base "class" end).
  assert (Hclass : forall x, x ∈ withClass <-> x ∈ base \/ (cc <> CCBool true /\ x = "class")).
  { intros x. subst withClass. destruct cc as [|[|]|l]; rewrite ?pushNew_elem;
      try (split; [intros [H|H]; [left; exact H|right; split; [discriminate|exact H]]
                  |intros [H|[_ H]]; [left; exact H|right; exact H]]).
    split; [auto|]. intros [H|[H _]]; [exact H|congruence]. }
  assert (Hpre : exists added, withClass = base ++ added).
  { subst withClass. destruct cc as [|[|]|l]; try apply pushNew_prefix.
    exists []. rewrite List.app_nil_r. reflexivity. }
  assert (Hnd : NoDup base -> NoDup withClass).
  { subst withClass. destruct cc as [|[|]|l]; auto using pushNew_NoDup. }
  assert (Hall : forall l : list string,
            (exists added, fold_left pushNew (arrayKeys l) withClass = base ++ added)
            /\ (forall x, x ∈ fold_left pushNew (arrayKeys l) withClass
                          <-> x ∈ base \/ (cc <> CCBool true /\ x = "class")
                              \/ (exists i, i < List.length l /\ x = ofNat i))
            /\ (NoDup base -> NoDup (fold_left pushNew (arrayKeys l) withClass))).
  { intros l. split; [|split].
    - destruct Hpre as (a1 & E). destruct (pushAll_prefix (arrayKeys l) withClass) as (a2 & ->).
      exists (a1 ++ a2). rewrite E, List.app_assoc. reflexivity.
    - intros x. rewrite pushAll_elem, Hclass, arrayKeys_elem. tauto.
    - intros H. apply pushAll_NoDup. auto. }
  assert (Hnone : forall x, (exists i, i < 0 /\ x = ofNat i) <-> False).
  { intros x. split; [intros (i & Hi & _); lia|tauto]. }
  destruct ca as [[|a l]|].
  - cbn [default List.length].
    split; [exact Hpre|]. split; [|split; [exact Hnd|intros; reflexivity]].
    intros x. specialize (Hclass x). specialize (Hnone x). tauto.
  - destruct (Hall (a :: l)) as (H1 & H2 & H3). cbn [default].
    split; [exact H1|]. split; [exact H2|]. split; [exact H3|intros; reflexivity].
  - cbn [default List.length].
    split; [exact Hpre|]. split; [|split; [exact Hnd|intros; reflexivity]].
    intros x. specialize (Hclass x). specialize (Hnone x). tauto.
Qed.
End Observed.

(** ** The style element of [applyPartTheme] *)

Section Sheets.
Implicit Types (w : World) (e : Element) (p : Page).

Lemma sheetsKept_refl w : sheetsKept w w.
Proof. intros e. reflexivity. Qed.

Lemma sheetsKept_trans w1 w2 w3 : sheetsKept w1 w2 -> sheetsKept w2 w3 -> sheetsKept w1 w3.
Proof. intros H1 H2 e. rewrite H2, H1. reflexivity. Qed.

Lemma sheetsKept_same w w' : styles w' = styles w -> sheetsKept w w'.
Proof. intros E e. rewrite E. reflexivity. Qed.

Lemma initializeStyles_sheetsKept e texts :
  forall i w, exists w', initializeStyles e i texts w = Ok tt w' /\ sheetsKept w w'.
Proof.
  induction texts as [|t texts IH]; intros i w; cbn [initializeStyles].
  - exists w. split; [reflexivity|apply sheetsKept_refl].
  - unfold bind at 1. unfold initializeStyle, bind at 1.
    destruct (partCssToCustomPropCss_parts e t w) as (css & w1 & -> & _ & Hst).
    cbn [fst snd]. destruct (declsOf t) as [|d ds].
    + unfold ret at 1. destruct (IH (S i) w1) as (w' & -> & H). exists w'.
      split; [reflexivity|]. eapply sheetsKept_trans; [apply sheetsKept_same; exact Hst|exact H].
    + unfold bind, getWorld, putWorld.
      destruct (IH (S i) (setParts w1
                  (<[e := <[i := css]> (default [] (styles w1 !! e))]> (styles w1))
                  (<[e := Some (default [] (default None (cssParts w1 !! e)) ++ d :: ds)]>
                     (cssParts w1)))) as (w' & -> & H).
      exists w'. split; [reflexivity|]. eapply sheetsKept_trans; [|exact H].
      intros e'. cbn [styles setParts]. rewrite <- Hst.
      destruct (decide (e' = e)) as [->|Hne].
      * rewrite lookup_insert_eq. cbn [default]. apply length_insert.
      * rewrite lookup_insert_ne by congruence. reflexivity.
Qed.

Lemma ensurePartData_sheetsKept e F O : obeys sheetsKept F O (ensurePartData e).
Proof.
  intros w. rewrite ensurePartData_run. destruct (cssParts w !! e); [apply sheetsKept_refl|].
  unfold initializeParts, bind, getWorld, putWorld.
  destruct (initializeStyles_sheetsKept e (default [] (styles w !! e)) 0 (logScan w e))
    as (w1 & -> & H).
  assert (H0 : sheetsKept w w1).
  { eapply sheetsKept_trans; [|exact H]. apply sheetsKept_same. reflexivity. }
  destruct (default None (cssParts w1 !! e)); cbn; [exact H0|].
  eapply sheetsKept_trans; [exact H0|]. apply sheetsKept_same. reflexivity.
Qed.

Lemma partIdForElement_sheetsKept e F O : obeys sheetsKept F O (partIdForElement e).
Proof.
  intros w. rewrite partIdForElement_run.
  destruct (partIds w !! e); apply sheetsKept_same; reflexivity.
Qed.




(** The first flag that is set, and the flags without it. *)
Lemma firstTrue_count (flags : list bool) :
  match firstTrue flags with
  | Some i =>
      i < List.length flags
      /\ List.length (List.filter (fun b : bool => b) (delete i flags))
         = Nat.pred (List.length (List.filter (fun b : bool => b) flags))
  | None => List.length (List.filter (fun b : bool => b) flags) = 0
  end.
Proof.
  induction flags as [|[|] flags IH]; cbn [firstTrue List.filter List.length].
  - reflexivity.
  - split; [lia|reflexivity].
  - destruct (firstTrue flags) as [i|]; cbn [option_map].
    + destruct IH as [Hi IH]. split; [lia|exact IH].
    + exact IH.
Qed.

Lemma flagsOf_length p e : List.length (flagsOf p e) = List.length (textsOf p e).
Proof. unfold flagsOf. apply length_resize. Qed.

Lemma flagsOf_setSheets p e texts flags :
  List.length flags = List.length texts -> flagsOf (setSheets p e texts flags) e = flags.
Proof.
  intros H. unfold flagsOf, textsOf, setSheets. cbn [world partsAttr styles setParts].
  rewrite !lookup_insert_eq. simpl. rewrite <- H. apply resize_all.
Qed.

Lemma flagsOf_setSheets_ne p e e' texts flags :
  e' <> e -> flagsOf (setSheets p e texts flags) e' = flagsOf p e'.
Proof.
  intros H. unfold flagsOf, textsOf, setSheets. cbn [world partsAttr styles setParts].
  rewrite !lookup_insert_ne by congruence. reflexivity.
Qed.

Lemma flagsOf_setWorld p w e :
  sheetsKept (world p) w -> flagsOf (setWorld p w) e = flagsOf p e.
Proof.
  intros H. unfold flagsOf, textsOf, setWorld. cbn [world partsAttr]. rewrite (H e). reflexivity.
Qed.

Lemma countParts_removeOldStyle p e :
  countParts (removeOldStyle e p) e = Nat.pred (countParts p e).
Proof.
  unfold removeOldStyle, countParts.
  pose proof (firstTrue_count (flagsOf p e)) as H.
  pose proof (flagsOf_length p e) as Hlen.
  destruct (firstTrue (flagsOf p e)) as [i|].
  - destruct H as [Hi H]. rewrite flagsOf_setSheets; [exact H|].
    rewrite !length_delete by (unfold lookup; apply lookup_lt_is_Some; lia). lia.
  - rewrite H. reflexivity.
Qed.

Lemma countParts_setWorld p w e :
  sheetsKept (world p) w -> countParts (setWorld p w) e = countParts p e.
Proof. intros H. unfold countParts. rewrite flagsOf_setWorld by exact H. reflexivity. Qed.
End Sheets.

(** ** Style texts without part rules, among others *)

Section MixedStyles.
Implicit Types (w : World) (e : Element).




(** One step of the scan touches the style element it is at, and only
    when its text has a rule. *)
Lemma initializeStyle_at e j t w :
  exists w',
    initializeStyle e j t w = Ok tt w'
    /\ (forall i, i <> j ->
          default [] (styles w' !! e) !! i = default [] (styles w !! e) !! i)
    /\ (hasDoubleColon t = false -> styles w' = styles w).
Proof.
  unfold initializeStyle, bind at 1.
  destruct (partCssToCustomPropCss_parts e t w) as (css & w1 & E & _ & Hst).
  rewrite E. cbn [fst snd]. destruct (declsOf t) as [|d ds] eqn:Ed.
  - exists w1. split; [reflexivity|]. split; [|intros _; exact Hst].
    intros i _. rewrite Hst. reflexivity.
  - unfold bind, getWorld, putWorld. eexists. split; [reflexivity|]. split.
    + intros i Hi. cbn [styles setParts]. rewrite lookup_insert_eq. simpl.
      rewrite list_lookup_insert_ne by congruence. rewrite Hst. reflexivity.
    + intros Hplain. rewrite (partCssToCustomPropCss_plain e t w Hplain) in E.
      injection E as E _. discriminate.
Qed.

Lemma initializeStyles_at e texts :
  forall j w w' i,
    initializeStyles e j texts w = Ok tt w' ->
    (forall t, j <= i -> texts !! (i - j) = Some t -> hasDoubleColon t = false) ->
    default [] (styles w' !! e) !! i = default [] (styles w !! e) !! i.
Proof.
  induction texts as [|t texts IH]; intros j w w' i E Hplain; cbn [initializeStyles] in E.
  - injection E as <-. reflexivity.
  - unfold bind at 1 in E.
    destruct (initializeStyle_at e j t w) as (w1 & E1 & Hne & Hpl). rewrite E1 in E.
    rewrite (IH (S j) w1 w' i E).
    + destruct (decide (i = j)) as [->|Hij].
      * rewrite Hpl; [reflexivity|]. apply (Hplain t); [lia|].
        rewrite Nat.sub_diag. reflexivity.
      * apply Hne. exact Hij.
    + intros t' Hle Ht'. apply (Hplain t'); [lia|].
      replace (i - j) with (S (i - S j)) by lia. exact Ht'.
Qed.







(** The scan rewrites only style elements with rules.  When the part
    data of an element is looked up, a style element of its root whose
    text has no [::] keeps that text, also when other style elements of the
    root are rewritten; and the root keeps the number of its style
    elements, so that the text stays where it is. *)
Theorem ensurePartData_leaves_plain_styles (e : Element) (w w' : World) (i : nat)
    (text : string) :
  ensurePartData e w = Ok tt w' ->
  default [] (styles w !! e) !! i = Some text ->
  hasDoubleColon text = false ->
  default [] (styles w' !! e) !! i = Some text
  /\ List.length (default [] (styles w' !! e)) = List.length (default [] (styles w !! e)).
Proof.
  intros E Hi Hplain. split.
  - rewrite ensurePartData_run in E. destruct (cssParts w !! e) eqn:Ec.
    + injection E as <-. exact Hi.
    + unfold initializeParts, bind, getWorld, putWorld in E.
      destruct (initializeStyles e 0 (default [] (styles w !! e)) (logScan w e))
        as [[] w1|w1|] eqn:E1; [|discriminate..].
      pose proof (initializeStyles_at e _ 0 _ _ i E1) as H.
      assert (Hw1 : default [] (styles w1 !! e) !! i = Some text).
      { rewrite H; [exact Hi|]. intros t _. rewrite Nat.sub_0_r, Hi.
        intros [= <-]. exact Hplain. }
      destruct (default None (cssParts w1 !! e)); injection E as <-; exact Hw1.
  - pose proof (ensurePartData_sheetsKept e True True w) as K. rewrite E in K.
    exact (K e).
Qed.
End MixedStyles.

(** The second of the three style texts of the element 1 of
    [mixedWorld], which is the plain one. *)
Lemma ensurePartData_of_a_plain_style_among_others :
  ensurePartData 1 mixedWorld = Ok tt (finalWorldOf (ensurePartData 1 mixedWorld))
  /\ default [] (styles mixedWorld !! 1) !! 1 = Some ".box:hover { color: red; }"
  /\ hasDoubleColon ".box:hover { color: red; }" = false
  /\ default [] (styles (finalWorldOf (ensurePartData 1 mixedWorld)) !! 1) !! 1
     = Some ".box:hover { color: red; }"
  /\ List.length (default [] (styles (finalWorldOf (ensurePartData 1 mixedWorld)) !! 1))
     = List.length (default [] (styles mixedWorld !! 1)).
Proof.
  assert (E : ensurePartData 1 mixedWorld
              = Ok tt (finalWorldOf (ensurePartData 1 mixedWorld)))
    by (vm_compute; reflexivity).
  assert (Hi : default [] (styles mixedWorld !! 1) !! 1 = Some ".box:hover { color: red; }")
    by (vm_compute; reflexivity).
  assert (Hp : hasDoubleColon ".box:hover { color: red; }" = false)
    by (vm_compute; reflexivity).
  split; [exact E|]. split; [exact Hi|]. split; [exact Hp|].
  exact (ensurePartData_leaves_plain_styles 1 mixedWorld _ 1 _ E Hi Hp).
Defined.

(** ** [applyPartTheme] *)

Section Applying.
Variable dom : Dom.
Implicit Types (w : World) (e : Element) (p : Page).

Lemma ensurePartData_has_data e w w' :
  ensurePartData e w = Ok tt w' -> cssParts w' !! e <> None.
Proof.
  rewrite ensurePartData_run. destruct (cssParts w !! e) eqn:E.
  - intros [= <-]. rewrite E. discriminate.
  - destruct (initializeParts_run e w) as (w1 & -> & _ & H & _). intros [= <-]. exact H.
Qed.








Lemma world_appendStyle e css p : cssParts (world (appendStyle e css p)) = cssParts (world p).
Proof. reflexivity. Qed.

End Applying.


(** ** Animation frames *)

Section Frames.
Variable dom : Dom.
Implicit Types (e : Element) (p : Page) (queue : list Element).

Lemma removeOldStyle_mixin_state e p :
  lastApplyTime (removeOldStyle e p) = lastApplyTime p
  /\ applied (removeOldStyle e p) = applied p.
Proof. unfold removeOldStyle. destruct (firstTrue _); split; reflexivity. Qed.

(** [applyPartTheme] leaves [_lastApplyTime] alone. *)
Lemma applyPartTheme_mixin_state fuel e p :
  match applyPartTheme dom fuel e p with
  | Done _ p' | Thrown p' =>
      lastApplyTime p' = lastApplyTime p /\ applied p' = e :: applied p
  | Unbounded => True
  end.
Proof.
  unfold applyPartTheme.
  destruct (removeOldStyle_mixin_state e (logApply p e)) as [H1 H2].
  destruct (Nat.eqb _ _); [split; assumption|].
  destruct ((_ ;;; _) _) as [css w|w|]; [|split; assumption|exact I].
  destruct css; split; assumption.
Qed.

Lemma runFrame_applies_once fuel (time : Time) queue :
  forall p p',
    runFrame dom fuel time queue p = Some p' ->
    (forall e,
       count_occ Nat.eq_dec (applied p') e
       = count_occ Nat.eq_dec (applied p) e
         + (if decide (e ∈ queue /\ lastApplyTime p !! e <> Some time) then 1 else 0))
    /\ (forall e,
          lastApplyTime p' !! e
          = if decide (e ∈ queue) then Some time else lastApplyTime p !! e).
Proof.
  induction queue as [|e0 queue IH]; intros p p' H; cbn [runFrame] in H.
  - injection H as <-. split; intros e.
    + destruct (decide _) as [[Hin _]|_]; [|lia]. apply elem_of_nil in Hin. destruct Hin.
    + destruct (decide _) as [Hin|_]; [|reflexivity]. apply elem_of_nil in Hin. destruct Hin.
  - unfold applyPartThemeAt in H.
    destruct (decide (lastApplyTime p !! e0 = Some time)) as [Hlast|Hlast].
    + apply IH in H as [H1 H2]. split; intros e.
      * rewrite H1. f_equal.
        destruct (decide (e ∈ queue /\ _)) as [[Hin Hne]|Hno];
          destruct (decide (e ∈ e0 :: queue /\ _)) as [[Hin' Hne']|Hno']; try reflexivity.
        -- destruct Hno'. split; [apply elem_of_cons; auto|exact Hne].
        -- destruct Hno. split; [|exact Hne'].
           apply elem_of_cons in Hin' as [->|Hin']; [contradiction|exact Hin'].
      * rewrite H2.
        destruct (decide (e ∈ queue)) as [Hin|Hno];
          destruct (decide (e ∈ e0 :: queue)) as [Hin'|Hno']; try reflexivity.
        -- destruct Hno'. apply elem_of_cons; auto.
        -- apply elem_of_cons in Hin' as [->|Hin']; [exact Hlast|contradiction].
    + pose proof (applyPartTheme_mixin_state fuel e0 (setLast p e0 time)) as Hst.
      assert (Hrun : exists p1,
                 runFrame dom fuel time queue p1 = Some p'
                 /\ lastApplyTime p1 = <[e0 := time]> (lastApplyTime p)
                 /\ applied p1 = e0 :: applied p).
      { destruct (applyPartTheme dom fuel e0 (setLast p e0 time)) as [[] p1|p1|];
          [| |discriminate]; exists p1; (split; [exact H|exact Hst]). }
      destruct Hrun as (p1 & Hrun & Hl & Ha). apply IH in Hrun as [H1 H2].
      split; intros e.
      * rewrite H1, Ha, Hl. cbn [count_occ].
        destruct (decide (e = e0)) as [->|Hne].
        -- rewrite lookup_insert_eq. destruct (Nat.eq_dec e0 e0); [|contradiction].
           destruct (decide (e0 ∈ queue /\ _)) as [[_ Hx]|_]; [contradiction|].
           destruct (decide (e0 ∈ e0 :: queue /\ _)) as [_|Hno]; [lia|].
           destruct Hno. split; [apply elem_of_cons; auto|exact Hlast].
        -- rewrite lookup_insert_ne by congruence.
           destruct (Nat.eq_dec e0 e); [congruence|]. f_equal.
           destruct (decide (e ∈ queue /\ _)) as [[Hin Hx]|Hno];
             destruct (decide (e ∈ e0 :: queue /\ _)) as [[Hin' Hx']|Hno']; try reflexivity.
           ++ destruct Hno'. split; [apply elem_of_cons; auto|exact Hx].
           ++ destruct Hno. split; [|exact Hx'].
              apply elem_of_cons in Hin' as [->|Hin']; [contradiction|exact Hin'].
      * rewrite H2, Hl.
        destruct (decide (e ∈ queue)) as [Hin|Hno];
          destruct (decide (e ∈ e0 :: queue)) as [Hin'|Hno']; try reflexivity.
        -- destruct Hno'. apply elem_of_cons; auto.
        -- apply elem_of_cons in Hin' as [->|Hin']; [apply lookup_insert_eq|contradiction].
        -- rewrite lookup_insert_ne; [reflexivity|].
           intros ->. destruct Hno'. apply elem_of_cons; auto.
Qed.

(** An element is themed once per frame.  However many callbacks an
    element queued for an animation frame, and whatever other elements
    queued, [applyPartTheme] runs for it exactly once in that frame, or
    not at all when it already ran for the time stamp of the frame; this
    is so also when a call throws.  After the frame, the time stamp is
    the last apply time of every element that queued. *)
Theorem frame_applies_the_theme_once (fuel : nat) (time : Time)
    (queue : list Element) (p p' : Page) :
  runFrame dom fuel time queue p = Some p' ->
  forall e : Element,
    (e ∈ queue -> lastApplyTime p !! e <> Some time ->
     count_occ Nat.eq_dec (applied p') e = S (count_occ Nat.eq_dec (applied p) e))
    /\ (e ∈ queue -> lastApplyTime p !! e = Some time ->
        count_occ Nat.eq_dec (applied p') e = count_occ Nat.eq_dec (applied p) e)
    /\ (e ∉ queue ->
        count_occ Nat.eq_dec (applied p') e = count_occ Nat.eq_dec (applied p) e
        /\ lastApplyTime p' !! e = lastApplyTime p !! e)
    /\ (e ∈ queue -> lastApplyTime p' !! e = Some time).
Proof.
  intros H e. apply runFrame_applies_once in H as [H1 H2].
  specialize (H1 e). specialize (H2 e).
  destruct (decide (e ∈ queue /\ _)) as [[Hin Hne]|Hno];
    destruct (decide (e ∈ queue)) as [Hin'|Hno']; try contradiction.
  - split; [intros _ _; lia|]. split; [intros _ E; contradiction|].
    split; [intros Hx; contradiction|intros _; exact H2].
  - split; [intros _ Hne; destruct Hno; split; assumption|].
    split; [intros _ _; lia|]. split; [intros Hx; contradiction|intros _; exact H2].
  - split; [intros Hx; contradiction|]. split; [intros Hx; contradiction|].
    split; [intros _; split; [lia|exact H2]|intros Hx; contradiction].
Qed.
End Frames.

(** Three callbacks of the element 2 in one frame. *)
Lemma frame_of_three_callbacks :
  runFrame labelledDom 3 7
    (queueApplyPartTheme 2 (queueApplyPartTheme 2 (queueApplyPartTheme 2 [])))
    (freshPage themedWorld) = Some framePage
  /\ queueApplyPartTheme 2 (queueApplyPartTheme 2 (queueApplyPartTheme 2 [])) = [2; 2; 2]
  /\ lastApplyTime (freshPage themedWorld) !! 2 <> Some 7
  /\ count_occ Nat.eq_dec (applied framePage) 2
     = S (count_occ Nat.eq_dec (applied (freshPage themedWorld)) 2).
Proof.
  assert (E : runFrame labelledDom 3 7
                (queueApplyPartTheme 2 (queueApplyPartTheme 2 (queueApplyPartTheme 2 [])))
                (freshPage themedWorld) = Some framePage)
    by (vm_compute; reflexivity).
  assert (Hlast : lastApplyTime (freshPage themedWorld) !! 2 <> Some 7)
    by (cbn; rewrite lookup_empty; discriminate).
  split; [exact E|]. split; [reflexivity|]. split; [exact Hlast|].
  apply (proj1 (frame_applies_the_theme_once labelledDom 3 7 _ _ _ E 2)); [|exact Hlast].
  apply elem_of_cons. left. reflexivity.
Defined.

(** ** Elements without a shadow root *)

(** [applyPartTheme] needs a shadow root.  Although it starts with
    [element.shadowRoot || element], for an element without a shadow root
    that is not its own root the call throws, whatever the page is: the
    part nodes are looked for under [element.shadowRoot].  By then the old
    style element is taken out and the container and the element have
    part data. *)
Theorem applyPartTheme_throws_without_shadow_root (dom : Dom) (fuel : nat)
    (element : Element) (p : Page) :
  shadowParts dom element = None ->
  container dom element <> element ->
  exists p',
    applyPartTheme dom fuel element p = Thrown p'
    /\ countParts p' element = Nat.pred (countParts p element)
    /\ cssParts (world p') !! element <> None
    /\ cssParts (world p') !! container dom element <> None.
Proof.
  intros Hshadow Hne. unfold applyPartTheme.
  destruct (Nat.eqb_spec (container dom element) element) as [E|_]; [contradiction|].
  set (p1 := removeOldStyle element (logApply p element)).
  unfold bind at 1.
  destruct (total_ensurePartData (container dom element) (world p1)) as ([] & w1 & E1).
  rewrite E1. unfold cssForElementDom, bind at 1.
  destruct (total_ensurePartData element w1) as ([] & w2 & E2). rewrite E2.
  unfold bind at 1.
  destruct (total_partIdForElement element w2) as (id & w3 & E3). rewrite E3.
  unfold bind at 1. rewrite Hshadow. cbn [orThrow]. unfold throw.
  exists (setWorld p1 w3).
  pose proof (ensurePartData_sheetsKept (container dom element) True True (world p1)) as K1.
  pose proof (ensurePartData_sheetsKept element True True w1) as K2.
  pose proof (partIdForElement_sheetsKept element True True w2) as K3.
  rewrite E1 in K1. rewrite E2 in K2. rewrite E3 in K3.
  pose proof (ensurePartData_cacheStable element True True w1) as S2.
  pose proof (partIdForElement_cacheStable element True True w2) as S3.
  rewrite E2 in S2. rewrite E3 in S3.
  pose proof (ensurePartData_has_data _ _ _ E1) as Hc.
  pose proof (ensurePartData_has_data _ _ _ E2) as He.
  split; [reflexivity|]. split; [|split].
  - rewrite countParts_setWorld
      by (eapply sheetsKept_trans; [exact K1|]; eapply sheetsKept_trans; eassumption).
    subst p1. rewrite countParts_removeOldStyle. reflexivity.
  - cbn [world setWorld]. destruct (cssParts w2 !! element) as [r|] eqn:Er; [|congruence].
    rewrite (proj1 S3 _ r Er). discriminate.
  - cbn [world setWorld].
    destruct (cssParts w1 !! container dom element) as [r|] eqn:Er; [|congruence].
    rewrite (proj1 S3 _ r (proj1 S2 _ r Er)). discriminate.
Qed.

(** An element in the light tree of the document. *)
Lemma applyPartTheme_of_an_element_without_shadow_root :
  shadowParts lightDom 1 = None
  /\ container lightDom 1 <> 1
  /\ exists p',
       applyPartTheme lightDom 3 1 (freshPage themedWorld) = Thrown p'
       /\ countParts p' 1 = Nat.pred (countParts (freshPage themedWorld) 1)
       /\ cssParts (world p') !! 1 <> None
       /\ cssParts (world p') !! container lightDom 1 <> None.
Proof.
  assert (H1 : shadowParts lightDom 1 = None) by reflexivity.
  assert (H2 : container lightDom 1 <> 1) by (cbn; lia).
  split; [exact H1|]. split; [exact H2|].
  exact (applyPartTheme_throws_without_shadow_root lightDom 3 1 _ H1 H2).
Defined.

(** ** What the matcher is asked *)

Section Asking.
Variable dom : Dom.
Implicit Types (e : Element) (w : World).

Lemma asksAbout_refl e w : asksAbout dom e w w.
Proof. exists []. split; [reflexivity|constructor]. Qed.

Lemma asksAbout_trans e w1 w2 w3 :
  asksAbout dom e w1 w2 -> asksAbout dom e w2 w3 -> asksAbout dom e w1 w3.
Proof.
  intros (n1 & E1 & H1) (n2 & E2 & H2). exists (n2 ++ n1). split.
  - rewrite E2, E1, List.app_assoc. reflexivity.
  - apply Forall_app. split; assumption.
Qed.

Lemma asksAbout_same e w w' : queries w' = queries w -> asksAbout dom e w w'.
Proof. intros E. exists []. split; [exact E|constructor]. Qed.

(** What is asked about a container is asked about a scope above the
    element. *)
Lemma asksAbout_container e w w' :
  asksAbout dom (container dom e) w w' -> asksAbout dom e w w'.
Proof.
  intros (new & E & H). exists new. split; [exact E|].
  eapply Forall_impl; [exact H|]. intros q (n & Hn). exists (S n).
  rewrite Nat.iter_succ_r. exact Hn.
Qed.

Lemma obeys_weaken {A} (R R' : World -> World -> Prop) (F O : Prop) (m : M A) :
  (forall w w', R w w' -> R' w w') -> obeys R F O m -> obeys R' F O m.
Proof.
  intros HR Hm w. specialize (Hm w). destruct (m w) as [a w'|w'|].
  - apply HR. exact Hm.
  - destruct Hm as [HF Hm]. split; [exact HF|apply HR; exact Hm].
  - exact Hm.
Qed.

Lemma ensurePartData_queries e w :
  match ensurePartData e w with
  | Ok _ w' | Fault w' => queries w' = queries w
  | OutOfFuel => True
  end.
Proof.
  rewrite ensurePartData_run. destruct (cssParts w !! e); [reflexivity|].
  unfold initializeParts, bind, getWorld, putWorld.
  assert (H : forall texts i w0, exists w1,
            initializeStyles e i texts w0 = Ok tt w1 /\ queries w1 = queries w0).
  { induction texts as [|t texts IH]; intros i w0; cbn [initializeStyles].
    - exists w0. split; reflexivity.
    - unfold bind at 1.
      pose proof (initializeStyle_onlyAt e i t True True w0) as Ho.
      destruct (total_initializeStyle e i t w0) as ([] & w1 & E1). rewrite E1 in Ho |- *.
      destruct (IH (S i) w1) as (w2 & -> & E2). exists w2. split; [reflexivity|].
      rewrite E2. apply Ho. }
  destruct (H (default [] (styles w !! e)) 0 (logScan w e)) as (w1 & -> & E).
  destruct (default None (cssParts w1 !! e)); cbn; exact E.
Qed.

Lemma partDataForElement_queries e w :
  match partDataForElement e w with
  | Ok _ w' | Fault w' => queries w' = queries w
  | OutOfFuel => True
  end.
Proof.
  unfold partDataForElement, bind. pose proof (ensurePartData_queries e w) as H.
  destruct (ensurePartData e w) as [[] w1|w1|]; cbn; exact H.
Qed.

Lemma partIdForElement_asks e e' : obeys (asksAbout dom e) True True (partIdForElement e').
Proof.
  intros w. rewrite partIdForElement_run.
  destruct (partIds w !! e'); apply asksAbout_same; reflexivity.
Qed.

Lemma partDataForElement_asks e e' : obeys (asksAbout dom e) True True (partDataForElement e').
Proof.
  intros w. destruct (total_partDataForElement e' w) as (r & w' & E). rewrite E.
  apply asksAbout_same.
  pose proof (partDataForElement_queries e' w) as H. rewrite E in H. exact H.
Qed.

Lemma isMatchingPossible_asks e sel : obeys (asksAbout dom e) True True (isMatchingPossible dom e sel).
Proof.
  intros w. rewrite isMatchingPossible_run. cbn zeta.
  assert (H : forall w', queries w' = (e, constSelector (constClasses dom e)
                                           (constAttributes dom e) sel) :: queries w ->
                         asksAbout dom e w w').
  { intros w' E. eexists [_]. split; [exact E|]. constructor; [|constructor].
    exists 0. reflexivity. }
  destruct (matches dom e _); [|split; [exact I|]]; apply H; reflexivity.
Qed.

Lemma propsFromElement_asks name c e rt :
  obeys (asksAbout dom e) True True (propsFromElement dom name c e rt).
Proof.
  unfold propsFromElement.
  apply obeys_bind; [apply asksAbout_trans|apply partDataForElement_asks|].
  intros [parts|]; [|apply obeys_ret; apply asksAbout_refl].
  apply obeys_bind; [apply asksAbout_trans|apply partIdForElement_asks|]. intros id.
  apply obeys_foldM; [apply asksAbout_refl|apply asksAbout_trans|]. intros props part.
  destruct (_ && _); [|apply obeys_ret; apply asksAbout_refl].
  apply obeys_bind; [apply asksAbout_trans|apply isMatchingPossible_asks|].
  intros [|]; apply obeys_ret; apply asksAbout_refl.
Qed.

Lemma propsForPart_asks fuel :
  forall name e rt, obeys (asksAbout dom e) True True (propsForPart dom fuel name e rt).
Proof.
  induction fuel as [|fuel IH]; intros name e rt.
  - intros w. exact I.
  - cbn [propsForPart]. unfold propsForPartBody.
    destruct (Nat.eqb (container dom e) e); [apply obeys_ret; apply asksAbout_refl|].
    assert (Hup : forall n r, obeys (asksAbout dom e) True True
                                (propsForPart dom fuel n (container dom e) r)).
    { intros n r. eapply obeys_weaken; [|apply IH]. intros w w'. apply asksAbout_container. }
    apply obeys_bind; [apply asksAbout_trans|apply propsFromElement_asks|]. intros props.
    apply obeys_bind; [apply asksAbout_trans|apply Hup|]. intros themeProps.
    destruct rt; [apply obeys_ret; apply asksAbout_refl|].
    apply obeys_foldM; [apply asksAbout_refl|apply asksAbout_trans|]. intros acc info.
    destruct (looseEqStr name (info_forward info) || _); [|apply obeys_ret; apply asksAbout_refl].
    destruct (info_name info) as [| |n].
    + intros w. split; [exact I|apply asksAbout_refl].
    + intros w. split; [exact I|apply asksAbout_refl].
    + apply obeys_bind; [apply asksAbout_trans|apply Hup|]. intros forwarded.
      apply obeys_ret. apply asksAbout_refl.
Qed.

(** The resolution asks the matcher about the element and the scopes
    above it, and about nothing else: every call of [element.matches]
    between the start and the end of a resolution, whether it returns or
    throws, is a call on the element the part is resolved for, on its
    container, on the container of that, and so on. *)
Theorem propsForPart_asks_about_the_chain_only (fuel : nat) (name : string)
    (element : Element) (requireTheme : bool) (w : World) :
  match propsForPart dom fuel name element requireTheme w with
  | Ok _ w' | Fault w' =>
      exists new,
        queries w' = new ++ queries w
        /\ Forall (fun q : Element * string =>
                     exists n, Nat.iter n (container dom) element = fst q) new
  | OutOfFuel => True
  end.
Proof.
  pose proof (propsForPart_asks fuel name element requireTheme w) as H.
  destruct (propsForPart dom fuel name element requireTheme w) as [r w'|w'|];
    [exact H|exact (proj2 H)|exact I].
Qed.
End Asking.

(** ** The transformer on one rule *)

Section OneRule.
Implicit Types (s t a b : string).

Lemma hasDoubleColon_sep a c b :
  ascii_eqb c ":" = false ->
  hasDoubleColon (a +:+ String c b) = hasDoubleColon a || hasDoubleColon b.
Proof.
  intros Hc. induction a as [|d a IH].
  - rewrite str_app_nil_l, hasDoubleColon_cons, Hc. reflexivity.
  - rewrite str_app_cons, !hasDoubleColon_cons, IH.
    destruct a as [|d' a].
    + rewrite str_app_nil_l. cbn [startsWith]. unfold ascii_eqb in *.
      rewrite (Ascii.eqb_sym ":" c), Hc. rewrite andb_false_r. reflexivity.
    + rewrite str_app_cons. cbn [startsWith]. rewrite orb_assoc. reflexivity.
Qed.

Lemma hasDoubleColon_plain s :
  allChars notColon s = true -> hasDoubleColon s = false.
Proof.
  induction s as [|c s IH]; [reflexivity|]. cbn [allChars]. intros [Hc Hs]%andb_prop.
  rewrite hasDoubleColon_cons, (IH Hs). unfold notColon in Hc.
  apply negb_true_iff in Hc. rewrite Hc. reflexivity.
Qed.

(** Text without colons, before or behind, brings no [::]. *)
Lemma hasDoubleColon_skip a b :
  allChars notColon a = true -> hasDoubleColon (a +:+ b) = hasDoubleColon b.
Proof.
  induction a as [|c a IH]; [rewrite str_app_nil_l; reflexivity|].
  cbn [allChars]. intros [Hc Ha]%andb_prop.
  rewrite str_app_cons, hasDoubleColon_cons, (IH Ha). unfold notColon in Hc.
  apply negb_true_iff in Hc. rewrite Hc. reflexivity.
Qed.

Lemma hasDoubleColon_skip_r a b :
  allChars notColon b = true -> hasDoubleColon (a +:+ b) = hasDoubleColon a.
Proof.
  destruct b as [|c b]; [rewrite str_app_nil_r; reflexivity|].
  cbn [allChars]. intros [Hc Hb]%andb_prop. unfold notColon in Hc.
  apply negb_true_iff in Hc. rewrite (hasDoubleColon_sep a c b Hc).
  rewrite (hasDoubleColon_plain b Hb). apply orb_false_r.
Qed.

Lemma isSpace_notColon c : isSpace c = true -> notColon c = true.
Proof.
  unfold notColon, ascii_eqb. destruct (Ascii.eqb_spec c ":") as [->|]; [discriminate|reflexivity].
Qed.

Lemma startsWith_app_empty (P : ascii -> bool) a b :
  startsWith P a = false -> startsWith P b = false -> startsWith P (a +:+ b) = false.
Proof.
  destruct a as [|c a]; [rewrite str_app_nil_l; auto|]. rewrite str_app_cons. auto.
Qed.

(** A greedy [*] over a character class, with or without a capture. *)
Lemma rmatch_star_hit {A} P s cs (k : string -> captures -> option A) x :
  k (dropWhile P s) cs = Some x -> rmatch (Star (Chr P)) s cs k = Some x.
Proof. intros H. rewrite rmatch_star_chr. apply starChr_greedy. exact H. Qed.

Lemma rmatch_star_run_hit {A} i P s cs (k : string -> captures -> option A) x :
  k (dropWhile P s) ((i, takeWhile P s) :: cs) = Some x ->
  rmatch (Grp i (Star (Chr P))) s cs k = Some x.
Proof.
  intros H. rewrite rmatch_grp. apply rmatch_star_hit. rewrite takeN_takeWhile. exact H.
Qed.
Lemma ruleShape_inv w0 sel name endSel w1 w2 body :
  ruleShape w0 sel name endSel w1 w2 body = true ->
  allChars isSpace w0 = true /\ allChars isSpace w1 = true /\ allChars isSpace w2 = true
  /\ allChars (fun c => negb (isLineTerminator c)) sel = true
  /\ startsWith isSpace sel = false
  /\ name <> ""
  /\ allChars (fun c => negb (ascii_eqb c ")")) name = true
  /\ hasDoubleColon name = false
  /\ allChars (fun c => negb (isSpace c || ascii_eqb c "{")) endSel = true
  /\ hasDoubleColon endSel = false
  /\ allChars (fun c => negb (ascii_eqb c "}")) body = true
  /\ startsWith isSpace body = false
  /\ hasDoubleColon body = false.
Proof.
  unfold ruleShape. intros H.
  repeat (apply andb_prop in H as [H ?]).
  repeat match goal with
         | X : negb _ = true |- _ => apply negb_true_iff in X
         end.
  repeat split; try assumption.
  intros ->. discriminate.
Qed.

(** The rest of a rule behind its selector has one [::], at its start. *)
Lemma rule_tail_plain (isTheme : bool) name endSel w1 w2 body :
  allChars isSpace w1 = true -> allChars isSpace w2 = true ->
  hasDoubleColon name = false -> hasDoubleColon endSel = false ->
  hasDoubleColon body = false ->
  forall c t, kindText isTheme +:+ "(" +:+ name +:+ ")" +:+ endSel +:+ w1
              +:+ "{" +:+ w2 +:+ body +:+ "}" = String c t ->
  hasDoubleColon t = false.
Proof.
  intros H1 H2 Hn He Hb c t E.
  assert (Hw1 : allChars notColon w1 = true)
    by (eapply allChars_impl; [apply isSpace_notColon|exact H1]).
  assert (Hw2 : allChars notColon w2 = true)
    by (eapply allChars_impl; [apply isSpace_notColon|exact H2]).
  assert (Htail : hasDoubleColon
                    (name +:+ String ")" (endSel +:+ w1 +:+ String "{" (w2 +:+ body +:+ "}")))
                  = false).
  { rewrite hasDoubleColon_sep by reflexivity. rewrite Hn. cbn [orb].
    rewrite <- (str_app_assoc endSel w1). rewrite hasDoubleColon_sep by reflexivity.
    rewrite (hasDoubleColon_skip_r endSel w1 Hw1), He. cbn [orb].
    rewrite hasDoubleColon_skip by exact Hw2.
    rewrite hasDoubleColon_sep by reflexivity. rewrite Hb. reflexivity. }
  destruct isTheme; cbn [kindText] in E; rewrite !str_app_cons, !str_app_nil_l in E;
    injection E as <- <-.
  - rewrite !hasDoubleColon_cons, Htail. reflexivity.
  - rewrite !hasDoubleColon_cons, Htail. reflexivity.
Qed.

Lemma rmatch_lit_exact {A} l cs (k : string -> captures -> option A) :
  rmatch (Lit l) l cs k = k "" cs.
Proof. rewrite <- (str_app_nil_r l) at 2. apply rmatch_lit_hit. Qed.

(** [(::(?:part|theme))] *)
Lemma rmatch_kind {A} (isTheme : bool) rest cs (k : string -> captures -> option A) x :
  k rest ((2, kindText isTheme) :: cs) = Some x ->
  rmatch (Grp 2 (Seq (Lit "::") (Alt (Lit "part") (Lit "theme"))))
    (kindText isTheme +:+ rest) cs k = Some x.
Proof.
  intros Hk. rewrite rmatch_grp, rmatch_seq. destruct isTheme; cbn [kindText] in *.
  - change ("::theme" +:+ rest) with ("::" +:+ ("theme" +:+ rest)) at 1.
    rewrite rmatch_lit_hit, rmatch_alt, rmatch_lit_miss by reflexivity.
    rewrite rmatch_lit_hit, takeN_app. exact Hk.
  - change ("::part" +:+ rest) with ("::" +:+ ("part" +:+ rest)) at 1.
    rewrite rmatch_lit_hit, rmatch_alt, rmatch_lit_hit, takeN_app, Hk. reflexivity.
Qed.

Section Rule.
Variables (isTheme : bool) (w0 sel name endSel w1 w2 body : string).
Hypothesis shape : ruleShape w0 sel name endSel w1 w2 body = true.

Lemma rmatch_cssRe_rule {A} (k : string -> captures -> option A) x :
  k "" [(5, body); (4, endSel); (3, name); (2, kindText isTheme); (1, sel)] = Some x ->
  rmatch cssRe (ruleSource isTheme w0 sel name endSel w1 w2 body) [] k = Some x.
Proof.
  intros Hk.
  destruct (ruleShape_inv _ _ _ _ _ _ _ shape)
    as (Hw0 & Hw1 & Hw2 & Hsel & Hsel0 & Hname & Hname1 & Hname2 & Hend & Hend2
        & Hbody & Hbody0 & Hbody2).
  unfold ruleSource, cssRe, Cat, notChar. cbn [fold_right].
  (* white space *)
  rewrite rmatch_seq. unfold ws at 1. apply rmatch_star_hit.
  rewrite dropWhile_app; [|exact Hw0|].
  2:{ apply startsWith_app_empty; [exact Hsel0|]. destruct isTheme; reflexivity. }
  (* the selector *)
  rewrite rmatch_seq, rmatch_grp, rmatch_star_chr.
  apply starChr_stop; [exact Hsel| |].
  - rewrite takeN_app.
    rewrite rmatch_seq. apply rmatch_kind.
    rewrite rmatch_seq, (rmatch_lit_hit "(").
    rewrite rmatch_seq. apply rmatch_run_hit.
    { rewrite startsWith_app by exact Hname. apply startsWith_allChars; assumption. }
    rewrite dropWhile_app, takeWhile_app by (assumption || reflexivity).
    rewrite rmatch_seq, (rmatch_lit_hit ")").
    rewrite rmatch_seq. apply rmatch_star_run_hit.
    assert (Hstop : startsWith (fun c => negb (isSpace c || ascii_eqb c "{"))
                      (w1 +:+ "{" +:+ w2 +:+ body +:+ "}") = false).
    { destruct w1 as [|c w]; [reflexivity|]. rewrite str_app_cons. cbn [startsWith].
      cbn [allChars] in Hw1. apply andb_prop in Hw1 as [-> _]. reflexivity. }
    rewrite dropWhile_app, takeWhile_app by assumption.
    rewrite rmatch_seq. unfold ws at 1. apply rmatch_star_hit.
    rewrite dropWhile_app by (assumption || reflexivity).
    rewrite rmatch_seq, (rmatch_lit_hit "{").
    rewrite rmatch_seq. unfold ws at 1. apply rmatch_star_hit.
    rewrite dropWhile_app; [|exact Hw2|apply startsWith_app_empty; [exact Hbody0|reflexivity]].
    rewrite rmatch_seq. apply rmatch_star_run_hit.
    rewrite dropWhile_app, takeWhile_app by (assumption || reflexivity).
    rewrite rmatch_seq, rmatch_lit_exact, rmatch_eps. exact Hk.
  - intros c t' E _ u Hu.
    pose proof (rule_tail_plain isTheme name endSel w1 w2 body Hw1 Hw2 Hname2 Hend2 Hbody2
                  c t' E) as Hplain.
    rewrite rmatch_seq, rmatch_grp, rmatch_seq. apply rmatch_doubleColon_miss.
    eapply hasDoubleColon_stop; eassumption.
Qed.

Lemma ruleSource_not_empty : ruleSource isTheme w0 sel name endSel w1 w2 body <> "".
Proof.
  unfold ruleSource. intros E. apply (f_equal String.length) in E.
  rewrite !str_length_app in E. destruct isTheme; cbn in E; lia.
Qed.

Lemma execAt_cssRe_rule :
  execAt cssRe (ruleSource isTheme w0 sel name endSel w1 w2 body)
  = Some (ruleSource isTheme w0 sel name endSel w1 w2 body,
          [(5, body); (4, endSel); (3, name); (2, kindText isTheme); (1, sel)], "").
Proof.
  unfold execAt. apply rmatch_cssRe_rule.
  cbn [String.length]. rewrite Nat.sub_0_r, takeN_all. reflexivity.
Qed.

Lemma segments_cssRe_rule :
  segments cssRe (ruleSource isTheme w0 sel name endSel w1 w2 body)
  = [ Text "";
      Match (ruleSource isTheme w0 sel name endSel w1 w2 body)
            [(5, body); (4, endSel); (3, name); (2, kindText isTheme); (1, sel)];
      Text "" ].
Proof.
  unfold segments.
  rewrite (segments_loop_match _ cssRe _ ""
             (ruleSource isTheme w0 sel name endSel w1 w2 body)
             [(5, body); (4, endSel); (3, name); (2, kindText isTheme); (1, sel)] "");
    [|apply search_from_hit; apply execAt_cssRe_rule|apply ruleSource_not_empty].
  replace (segments_loop _ cssRe "") with [Text ""]; [reflexivity|].
  destruct (String.length _); reflexivity.
Qed.
End Rule.

(** The transformer on one rule.  A style text that is one rule, of
    the shape [selector::part(name)endSelector { block }] or the same with
    [::theme], is read as one declaration: the selector is what stands
    before the [::], the name what stands in the parentheses, the end
    selector what follows them up to the white space or the brace, the
    properties are those of the block, and the declaration is a theme
    exactly for [::theme].  The text that comes back is the rule
    [ruleText] writes for that declaration and the id of the scope, which
    is given out now if the scope had none. *)
Theorem partCssToCustomPropCss_reads_a_rule (e : Element) (w : World) (isTheme : bool)
    (w0 sel name endSel w1 w2 body : string) :
  ruleShape w0 sel name endSel w1 w2 body = true ->
  exists id w',
    partIdForElement e w = Ok id w'
    /\ partCssToCustomPropCss e (ruleSource isTheme w0 sel name endSel w1 w2 body) w
       = Ok (Some [mkPart sel endSel name (parseProps body) isTheme],
             ruleText id (mkPart sel endSel name (parseProps body) isTheme)) w'.
Proof.
  intros Hshape. destruct (total_partIdForElement e w) as (id & w' & E).
  exists id, w'. split; [exact E|].
  unfold partCssToCustomPropCss. rewrite (segments_cssRe_rule isTheme _ _ _ _ _ _ _ Hshape).
  cbn [foldM]. unfold bind at 1. unfold ret at 1. cbn [fst snd].
  unfold bind at 1. unfold bind at 1. rewrite E. unfold ret at 1.
  unfold bind at 1. unfold ret at 1. cbn [fst snd]. unfold ret.
  assert (Hd : declOfMatch [(5, body); (4, endSel); (3, name); (2, kindText isTheme); (1, sel)]
               = mkPart sel endSel name (parseProps body) isTheme).
  { unfold declOfMatch, group. cbn [cap Nat.eqb]. simpl default.
    destruct isTheme; reflexivity. }
  rewrite Hd. rewrite !str_app_nil_l, str_app_nil_r. reflexivity.
Qed.

(** The example of the source: [.foo::part(bar) { color: red }]. *)
Lemma partCssToCustomPropCss_of_the_example :
  ruleShape "" ".foo" "bar" "" " " " " "color: red " = true
  /\ ruleSource false "" ".foo" "bar" "" " " " " "color: red "
     = ".foo::part(bar) { color: red }"
  /\ exists id w',
       partIdForElement 1 emptyWorld = Ok id w'
       /\ partCssToCustomPropCss 1
            (ruleSource false "" ".foo" "bar" "" " " " " "color: red ") emptyWorld
          = Ok (Some [mkPart ".foo" "" "bar" (parseProps "color: red ") false],
                ruleText id (mkPart ".foo" "" "bar" (parseProps "color: red ") false)) w'.
Proof.
  split; [reflexivity|]. split; [reflexivity|].
  apply (partCssToCustomPropCss_reads_a_rule 1 emptyWorld false). reflexivity.
Defined.
End OneRule.

(** ** Declaration blocks with several declarations *)

Section Trimming.
Implicit Types (s a b w : string) (P : ascii -> bool).

Lemma reverse_onto_spec s : forall acc, reverse_onto s acc = reverse s +:+ acc.
Proof.
  unfold reverse. induction s as [|c s IH]; intros acc; cbn [reverse_onto].
  - rewrite str_app_nil_l. reflexivity.
  - rewrite (IH (String c acc)), (IH (String c "")), str_app_assoc. reflexivity.
Qed.

Lemma reverse_cons c s : reverse (String c s) = reverse s +:+ String c "".
Proof. unfold reverse at 1. cbn [reverse_onto]. apply reverse_onto_spec. Qed.

Lemma reverse_app a b : reverse (a +:+ b) = reverse b +:+ reverse a.
Proof.
  induction a as [|c a IH].
  - rewrite str_app_nil_l, str_app_nil_r. reflexivity.
  - rewrite str_app_cons, !reverse_cons, IH, str_app_assoc. reflexivity.
Qed.

Lemma allChars_reverse P s : allChars P (reverse s) = allChars P s.
Proof.
  induction s as [|c s IH]; [reflexivity|].
  rewrite reverse_cons, allChars_app, IH. cbn [allChars].
  rewrite andb_true_r. apply andb_comm.
Qed.

Lemma dropWhile_all P s : allChars P s = true -> dropWhile P s = "".
Proof.
  induction s as [|c s IH]; [reflexivity|]. cbn [allChars dropWhile].
  intros [-> Hs]%andb_prop. apply IH. exact Hs.
Qed.

Lemma dropWhile_prefix P w a : allChars P w = true -> dropWhile P (w +:+ a) = dropWhile P a.
Proof.
  induction w as [|c w IH]; [rewrite str_app_nil_l; reflexivity|].
  cbn [allChars]. intros [Hc Hw]%andb_prop. rewrite str_app_cons. cbn [dropWhile].
  rewrite Hc. apply IH. exact Hw.
Qed.

Lemma dropWhile_app_some P a b :
  allChars P a = false -> dropWhile P (a +:+ b) = dropWhile P a +:+ b.
Proof.
  induction a as [|c a IH]; [discriminate|]. cbn [allChars]. rewrite str_app_cons.
  cbn [dropWhile]. destruct (P c); cbn [andb]; [exact IH|]. intros _.
  rewrite str_app_cons. reflexivity.
Qed.

Lemma dropWhile_idem P s : dropWhile P (dropWhile P s) = dropWhile P s.
Proof.
  induction s as [|c s IH]; [reflexivity|]. cbn [dropWhile].
  destruct (P c) eqn:E; [exact IH|]. cbn [dropWhile]. rewrite E. reflexivity.
Qed.

Lemma allChars_dropWhile P Q s : allChars Q s = true -> allChars Q (dropWhile P s) = true.
Proof.
  induction s as [|c s IH]; [reflexivity|]. cbn [allChars dropWhile].
  intros H. destruct (P c); [apply IH; apply andb_prop in H as [_ H]; exact H|exact H].
Qed.

(** White space at the end or at the start of a text is trimmed away. *)
Lemma trimEnd_app_space a w : allChars isSpace w = true -> trimEnd (a +:+ w) = trimEnd a.
Proof.
  intros H. unfold trimEnd, trimStart. rewrite reverse_app, dropWhile_prefix; [reflexivity|].
  rewrite allChars_reverse. exact H.
Qed.

Lemma trim_app_space a w : allChars isSpace w = true -> trim (a +:+ w) = trim a.
Proof.
  intros H. unfold trim. unfold trimStart at 1 2. destruct (allChars isSpace a) eqn:Ea.
  - rewrite dropWhile_prefix by exact Ea. rewrite !dropWhile_all by assumption. reflexivity.
  - rewrite dropWhile_app_some by exact Ea. apply trimEnd_app_space. exact H.
Qed.

Lemma trim_trimStart s : trim (dropWhile isSpace s) = trim s.
Proof. unfold trim, trimStart. rewrite dropWhile_idem. reflexivity. Qed.
End Trimming.

Section Pieces.
Implicit Types (s p cur : string).

Lemma execAt_propSepRe_hit p s :
  allChars isSpace p = true ->
  exists m, m <> ""
    /\ execAt propSepRe (p +:+ String ";" s) = Some (m, [], dropWhile isSpace s).
Proof.
  intros Hp. exists (p +:+ String ";" (takeWhile isSpace s)). split.
  { destruct p; discriminate. }
  assert (E : p +:+ String ";" s
              = (p +:+ String ";" (takeWhile isSpace s)) +:+ dropWhile isSpace s).
  { rewrite str_app_assoc, str_app_cons, takeWhile_dropWhile. reflexivity. }
  rewrite E. apply execAt_intro. intros k x Hk. rewrite <- E.
  unfold propSepRe, Cat. cbn [fold_right].
  rewrite rmatch_seq. unfold ws at 1. apply rmatch_star_hit.
  rewrite dropWhile_app by (assumption || reflexivity).
  rewrite rmatch_seq. change (String ";" s) with (";" +:+ s). rewrite rmatch_lit_hit.
  rewrite rmatch_seq. unfold ws at 1. apply rmatch_star_hit. rewrite rmatch_eps. exact Hk.
Qed.

Lemma execAt_propSepRe_inside p rest :
  allChars isSpace p = false -> allChars notSemicolon p = true ->
  execAt propSepRe (p +:+ rest) = None.
Proof.
  intros Hp Hsemi. unfold execAt, propSepRe, Cat. cbn [fold_right].
  rewrite rmatch_seq. unfold ws at 1. rewrite rmatch_star_chr.
  apply starChr_none. intros t Ht. rewrite rmatch_seq. apply rmatch_lit_miss.
  destruct (stop_cases _ _ _ Ht) as [Hs | ->].
  - destruct t as [|c t]; [reflexivity|]. cbn [startsWith] in *.
    unfold ascii_eqb. destruct (Ascii.eqb_spec ";" c) as [<-|]; [discriminate|reflexivity].
  - rewrite dropWhile_app_some by exact Hp.
    pose proof (allChars_dropWhile isSpace _ p Hsemi) as Hd.
    destruct (dropWhile isSpace p) as [|c q] eqn:Eq.
    + exfalso. clear -Hp Eq. induction p as [|c p IH]; [discriminate|].
      cbn [allChars dropWhile] in *. destruct (isSpace c); [auto|discriminate].
    + rewrite str_app_cons. cbn [startsWith allChars] in *.
      apply andb_prop in Hd as [Hc _]. unfold notSemicolon, ascii_eqb in *.
      rewrite Ascii.eqb_sym. apply negb_true_iff. exact Hc.
Qed.

(** The piece before a semicolon: the split takes it without the white
    space at its end, and goes on behind the white space that follows the
    semicolon. *)
Lemma split_loop_piece p :
  allChars notSemicolon p = true ->
  forall s cur fuel,
    String.length (p +:+ String ";" s) < fuel ->
    exists a tail fuel',
      p = a +:+ tail /\ allChars isSpace tail = true
      /\ String.length (dropWhile isSpace s) < fuel'
      /\ split_loop fuel propSepRe cur (p +:+ String ";" s)
         = (cur +:+ a) :: split_loop fuel' propSepRe "" (dropWhile isSpace s).
Proof.
  induction p as [|c p IH]; intros Hsemi s cur fuel Hfuel.
  - rewrite str_app_nil_l in *. destruct fuel as [|fuel]; [cbn in Hfuel; lia|].
    cbn [split_loop]. destruct (execAt_propSepRe_hit "" s eq_refl) as (m & Hm & E).
    rewrite str_app_nil_l in E. rewrite E.
    exists "", "", fuel. rewrite str_app_nil_r. split; [reflexivity|]. split; [reflexivity|].
    split.
    + pose proof (dropWhile_length isSpace s). cbn [String.length] in Hfuel. lia.
    + rewrite ?str_app_nil_r. destruct m; [contradiction|reflexivity].
  - destruct fuel as [|fuel]; [cbn in Hfuel; lia|].
    destruct (allChars isSpace (String c p)) eqn:Ews.
    + destruct (execAt_propSepRe_hit (String c p) s Ews) as (m & Hm & E).
      rewrite str_app_cons in *. cbn [split_loop]. rewrite E.
      exists "", (String c p), fuel. rewrite str_app_nil_r.
      split; [reflexivity|]. split; [exact Ews|]. split.
      * pose proof (dropWhile_length isSpace s). cbn [String.length] in Hfuel.
        rewrite str_length_app in Hfuel. cbn [String.length] in Hfuel. lia.
      * rewrite ?str_app_nil_r. destruct m; [contradiction|reflexivity].
    + pose proof (execAt_propSepRe_inside (String c p) (String ";" s) Ews Hsemi) as E.
      rewrite str_app_cons in *. cbn [split_loop]. rewrite E.
      cbn [allChars] in Hsemi. apply andb_prop in Hsemi as [_ Hsemi].
      destruct (IH Hsemi s (cur +:+ String c "") fuel) as (a & tail & fuel' & -> & Ht & Hf & ->).
      { cbn [String.length] in Hfuel. lia. }
      exists (String c a), tail, fuel'. rewrite str_app_cons, str_app_assoc.
      repeat split; assumption.
Qed.
End Pieces.

Section Blocks.
Implicit Types (s p cur : string).

(** A text has no semicolon, or a first one. *)
Lemma first_semicolon s :
  allChars notSemicolon s = true
  \/ exists p s', s = p +:+ String ";" s' /\ allChars notSemicolon p = true.
Proof.
  induction s as [|c s IH]; [left; reflexivity|].
  destruct (notSemicolon c) eqn:Ec.
  - destruct IH as [H|(p & s' & -> & Hp)].
    + left. cbn [allChars]. rewrite Ec, H. reflexivity.
    + right. exists (String c p), s'. rewrite str_app_cons. split; [reflexivity|].
      cbn [allChars]. rewrite Ec, Hp. reflexivity.
  - right. exists "", s. rewrite str_app_nil_l. split; [|reflexivity].
    unfold notSemicolon, ascii_eqb in Ec. apply negb_false_iff, Ascii.eqb_eq in Ec.
    subst c. reflexivity.
Qed.

Lemma splitChar_from_plain p :
  allChars notSemicolon p = true ->
  forall cur, splitChar_from ";" cur p = [cur +:+ p].
Proof.
  induction p as [|c p IH]; intros H cur; cbn [splitChar_from].
  - rewrite str_app_nil_r. reflexivity.
  - cbn [allChars] in H. apply andb_prop in H as [Hc H]. unfold notSemicolon in Hc.
    apply negb_true_iff in Hc. rewrite Hc, (IH H), str_app_assoc. reflexivity.
Qed.

Lemma splitChar_from_piece p s :
  allChars notSemicolon p = true ->
  forall cur,
    splitChar_from ";" cur (p +:+ String ";" s) = (cur +:+ p) :: splitChar_from ";" "" s.
Proof.
  induction p as [|c p IH]; intros H cur.
  - rewrite str_app_nil_l, str_app_nil_r. reflexivity.
  - rewrite str_app_cons. cbn [splitChar_from].
    cbn [allChars] in H. apply andb_prop in H as [Hc H]. unfold notSemicolon in Hc.
    apply negb_true_iff in Hc. rewrite Hc, (IH H), str_app_assoc. reflexivity.
Qed.

(** Behind a separator: the pieces of the split and the pieces between
    the semicolons are the same once they are trimmed. *)
Lemma split_loop_tail n :
  forall s fuel,
    String.length s <= n -> String.length (dropWhile isSpace s) < fuel ->
    Forall2 (fun a b => trim a = trim b)
      (split_loop fuel propSepRe "" (dropWhile isSpace s)) (splitChar_from ";" "" s).
Proof.
  induction n as [|n IH]; intros s fuel Hn Hfuel.
  - destruct s; [|cbn in Hn; lia]. destruct fuel; [cbn in Hfuel; lia|].
    cbn. repeat constructor.
  - destruct (first_semicolon s) as [Hplain|(p & s' & -> & Hp)].
    + rewrite split_loop_propSepRe_plain
        by (try apply allChars_dropWhile; assumption).
      rewrite splitChar_from_plain by exact Hplain.
      constructor; [|constructor]. rewrite !str_app_nil_l. apply trim_trimStart.
    + assert (Edrop : dropWhile isSpace (p +:+ String ";" s')
                      = dropWhile isSpace p +:+ String ";" s').
      { destruct (allChars isSpace p) eqn:Ep.
        - rewrite dropWhile_app by (assumption || reflexivity).
          rewrite dropWhile_all by exact Ep. rewrite str_app_nil_l. reflexivity.
        - apply dropWhile_app_some. exact Ep. }
      rewrite Edrop in *.
      destruct (split_loop_piece (dropWhile isSpace p)
                  (allChars_dropWhile _ _ _ Hp) s' "" fuel Hfuel)
        as (a & tail & fuel' & Ea & Htail & Hfuel' & ->).
      rewrite splitChar_from_piece by exact Hp. rewrite !str_app_nil_l.
      constructor.
      * rewrite <- (trim_trimStart p), Ea. symmetry. apply trim_app_space. exact Htail.
      * apply IH; [|exact Hfuel']. rewrite str_length_app in Hn. cbn [String.length] in Hn. lia.
Qed.

Lemma split_propSepRe_pieces s :
  Forall2 (fun a b => trim a = trim b) (split propSepRe s) (splitChar ";" s).
Proof.
  unfold split, splitChar. destruct s as [|c s]; [repeat constructor|].
  set (t := String c s). set (fuel := 2 * String.length t + 1).
  assert (Hfuel : String.length t < fuel) by (subst fuel; lia). clearbody fuel t.
  destruct (first_semicolon t) as [Hplain|(p & s' & -> & Hp)].
  - rewrite split_loop_propSepRe_plain by assumption.
    rewrite splitChar_from_plain by exact Hplain. repeat constructor.
  - destruct (split_loop_piece p Hp s' "" fuel Hfuel)
      as (a & tail & fuel' & -> & Htail & Hfuel' & ->).
    rewrite splitChar_from_piece by exact Hp. rewrite !str_app_nil_l. constructor.
    + symmetry. apply trim_app_space. exact Htail.
    + apply (split_loop_tail (String.length s')); [lia|exact Hfuel'].
Qed.

(** The callback of [parseProps] looks at a piece through [trim]. *)
Lemma parseProps_step props prop :
  match trim prop with
  | "" => props
  | prop' =>
      match splitChar ":" prop' with
      | n :: rest => put props (trim n) (trim (join ":" rest))
      | [] => props
      end
  end = declStep props prop.
Proof.
  unfold declStep. destruct (trim prop) as [|c t]; [reflexivity|].
  unfold splitChar. destruct (splitChar_colon (String c t) "") as (rest & -> & E).
  rewrite E, str_app_nil_l. reflexivity.
Qed.

Lemma fold_declStep_trim l1 l2 :
  Forall2 (fun a b => trim a = trim b) l1 l2 ->
  forall props, fold_left declStep l1 props = fold_left declStep l2 props.
Proof.
  induction 1 as [|a b l1 l2 E _ IH]; intros props; cbn [fold_left]; [reflexivity|].
  unfold declStep at 2 4. rewrite E. apply IH.
Qed.

Lemma parseProps_pieces (propsStr : string) :
  parseProps propsStr = fold_left declStep (splitChar ";" propsStr) [].
Proof.
  unfold parseProps.
  rewrite <- (fold_declStep_trim _ _ (split_propSepRe_pieces propsStr)).
  generalize (@nil (string * string)). generalize (split propSepRe propsStr).
  induction l as [|d l IH]; intros props; cbn [fold_left]; [reflexivity|].
  rewrite parseProps_step. apply IH.
Qed.

(** *** The object the declarations are read into *)

Lemma get_place {V} (o : jsobj V) n k v k' :
  get o k = None ->
  get (place o n k v) k' = if String.eqb k' k then Some v else get o k'.
Proof.
  induction o as [|[k0 v0] o IH]; intros Hk; cbn [place get].
  - reflexivity.
  - cbn [get] in Hk. destruct (String.eqb_spec k k0) as [->|Hne]; [discriminate|].
    destruct (arrayIndex k0) as [n'|]; [destruct (N.ltb n' n)|]; cbn [get]; try reflexivity.
    rewrite (IH Hk). destruct (String.eqb_spec k' k0) as [->|]; [|reflexivity].
    destruct (String.eqb_spec k0 k); congruence.
Qed.

(** A lookup after [put]: the key [__proto__] is never there to find. *)
Lemma get_put {V} (o : jsobj V) k v k' :
  get (put o k v) k'
  = if String.eqb k "__proto__" then get o k'
    else if String.eqb k' k then Some v else get o k'.
Proof.
  unfold put. destruct (String.eqb k "__proto__"); [reflexivity|].
  destruct (get o k) eqn:E; [apply get_set|].
  destruct (arrayIndex k); [apply get_place; exact E|apply get_set].
Qed.

Lemma keys_set_present {V} (o : jsobj V) k v :
  get o k <> None -> keys (set o k v) = keys o.
Proof.
  induction o as [|[k0 v0] o IH]; cbn [get set]; [congruence|].
  destruct (String.eqb k k0); [reflexivity|]. intros H. cbn [keys map fst].
  f_equal. apply IH. exact H.
Qed.

Lemma keys_place {V} (o : jsobj V) n k v : keys (place o n k v) ≡ₚ k :: keys o.
Proof.
  induction o as [|[k0 v0] o IH]; cbn [place]; [reflexivity|].
  destruct (arrayIndex k0) as [n'|]; [destruct (N.ltb n' n)|]; try reflexivity.
  cbn [keys map fst] in *. rewrite IH. apply Permutation_swap.
Qed.

Lemma NoDup_keys_put {V} (o : jsobj V) k v : NoDup (keys o) -> NoDup (keys (put o k v)).
Proof.
  intros H. unfold put. destruct (String.eqb k "__proto__"); [exact H|].
  destruct (get o k) eqn:E.
  - rewrite keys_set_present by congruence. exact H.
  - assert (Hk : k ∉ keys o) by (apply get_None_keys; exact E).
    destruct (arrayIndex k).
    + rewrite keys_place. apply NoDup_cons. split; assumption.
    + rewrite set_fresh_key by exact E. unfold keys. rewrite map_app. cbn [map fst].
      apply NoDup_app. repeat split; [exact H| |apply NoDup_singleton].
      intros x Hx Hx'. apply list_elem_of_singleton in Hx'. subst x. exact (Hk Hx).
Qed.

Lemma indicesFirst_snoc l k :
  noIndex k = true -> forall least, indicesFirst least l = true ->
  indicesFirst least (l ++ [k]) = true.
Proof.
  intros Hk. induction l as [|k0 l IH]; intros least H; cbn [app indicesFirst] in *.
  - unfold noIndex in Hk. destruct (arrayIndex k); [discriminate|reflexivity].
  - destruct (arrayIndex k0) as [n|].
    + apply andb_prop in H as [H1 H2]. rewrite H1, (IH _ H2). reflexivity.
    + rewrite forallb_app, H. cbn. rewrite Hk. reflexivity.
Qed.

Lemma indicesFirst_place {V} (o : jsobj V) n k v :
  arrayIndex k = Some n ->
  forall least, N.le least n -> indicesFirst least (keys o) = true ->
  indicesFirst least (keys (place o n k v)) = true.
Proof.
  intros Hk. induction o as [|[k0 v0] o IH]; intros least Hle H;
    cbn [place keys map fst indicesFirst] in *.
  - rewrite Hk. rewrite (proj2 (N.leb_le _ _) Hle). reflexivity.
  - destruct (arrayIndex k0) as [n'|] eqn:E0.
    + apply andb_prop in H as [H1 H2]. destruct (N.ltb_spec n' n) as [Hlt|Hge];
        cbn [keys map fst indicesFirst].
      * rewrite E0, H1. apply IH; [apply N.lt_le_incl; exact Hlt|exact H2].
      * rewrite Hk, E0, (proj2 (N.leb_le _ _) Hle), (proj2 (N.leb_le _ _) Hge).
        exact H2.
    + cbn [keys map fst indicesFirst]. rewrite Hk, E0, (proj2 (N.leb_le _ _) Hle). exact H.
Qed.

Lemma indicesFirst_put {V} (o : jsobj V) k v :
  indicesFirst 0 (keys o) = true -> indicesFirst 0 (keys (put o k v)) = true.
Proof.
  intros H. unfold put. destruct (String.eqb k "__proto__"); [exact H|].
  destruct (get o k) eqn:E.
  - rewrite keys_set_present by congruence. exact H.
  - destruct (arrayIndex k) as [n|] eqn:Ek.
    + apply indicesFirst_place; [exact Ek|apply N.le_0_l|exact H].
    + rewrite set_fresh_key by exact E. unfold keys. rewrite map_app. cbn [map fst].
      apply indicesFirst_snoc; [unfold noIndex; rewrite Ek; reflexivity|exact H].
Qed.

(** What [parseProps] reads.  The properties of a declaration block are
    those of its pieces between the semicolons, taken in order: a blank
    piece gives nothing; any other piece gives the property named by what
    stands before its first colon, with all that follows that colon as
    value, name and value trimmed.  White space around the semicolons
    does not count, and a name that comes again gets the later value at
    the place of the earlier one.  The object enumerates each name once,
    the names that are array indices first, by their value, and then the
    other names as they came; and a declaration named [__proto__] gives
    no property. *)
Theorem parseProps_reads_the_declarations (propsStr : string) :
  parseProps propsStr = fold_left declStep (splitChar ";" propsStr) []
  /\ get (parseProps propsStr) "__proto__" = None
  /\ NoDup (keys (parseProps propsStr))
  /\ indicesFirst 0 (keys (parseProps propsStr)) = true.
Proof.
  split; [apply parseProps_pieces|]. rewrite parseProps_pieces.
  assert (H : forall l props,
            get props "__proto__" = None /\ NoDup (keys props)
            /\ indicesFirst 0 (keys props) = true ->
            get (fold_left declStep l props) "__proto__" = None
            /\ NoDup (keys (fold_left declStep l props))
            /\ indicesFirst 0 (keys (fold_left declStep l props)) = true).
  { induction l as [|d l IH]; intros props Hp; cbn [fold_left]; [exact Hp|].
    apply IH. unfold declStep. destruct (trim d) as [|c t]; [exact Hp|].
    destruct Hp as (H1 & H2 & H3). split; [|split].
    - rewrite get_put.
      destruct (String.eqb_spec (trim (beforeColon (String c t))) "__proto__") as [E|E];
        [exact H1|].
      destruct (String.eqb_spec "__proto__" (trim (beforeColon (String c t))));
        [congruence|exact H1].
    - apply NoDup_keys_put. exact H2.
    - apply indicesFirst_put. exact H3. }
  apply H. split; [reflexivity|]. split; [apply NoDup_nil_2|reflexivity].
Qed.
End Blocks.

(** Names that are array indices, and the name [__proto__]. *)
Lemma parseProps_of_index_names :
  parseProps "b:1;2:x;1:y" = [("1", "y"); ("2", "x"); ("b", "1")]
  /\ parseProps "__proto__:x;color:red" = [("color", "red")]
  /\ parseProps "10:a;9:b;01:c;4294967295:d;0:e"
     = [("0", "e"); ("9", "b"); ("10", "a"); ("01", "c"); ("4294967295", "d")].
Proof. repeat split; vm_compute; reflexivity. Qed.

(** ** Repeating a resolution *)

Section Replay.
Variable dom : Dom.
Implicit Types (w : World) (e : Element).

Lemma extends_refl w : extends w w.
Proof. split; auto. Qed.

Lemma extends_trans w1 w2 w3 : extends w1 w2 -> extends w2 w3 -> extends w1 w3.
Proof. intros [A1 A2] [B1 B2]. split; auto. Qed.

Lemma cacheStable_extends w w' : cacheStable w w' -> extends w w'.
Proof. intros (H1 & _ & _ & H4 & _). split; assumption. Qed.











Lemma extends_partDataForElement e : obeys extends True True (partDataForElement e).
Proof.
  eapply obeys_weaken; [apply cacheStable_extends|apply partDataForElement_cacheStable].
Qed.

Lemma extends_partIdForElement e : obeys extends True True (partIdForElement e).
Proof.
  eapply obeys_weaken; [apply cacheStable_extends|apply partIdForElement_cacheStable].
Qed.

Lemma extends_ensurePartData e : obeys extends True True (ensurePartData e).
Proof.
  eapply obeys_weaken; [apply cacheStable_extends|apply ensurePartData_cacheStable].
Qed.

Lemma extends_isMatchingPossible e sel : obeys extends True True (isMatchingPossible dom e sel).
Proof.
  eapply obeys_weaken; [apply cacheStable_extends|apply isMatchingPossible_cacheStable].
Qed.









End Replay.


(** ** [applyPartTheme] once more *)

Section Again.
Variable dom : Dom.
Implicit Types (w : World) (e : Element) (p : Page).







End Again.


(** ** What a resolution returns *)

Section References.
Variable dom : Dom.
Implicit Types (w : World) (props : option Props).





Lemma extends_propsFromElement name c e rt :
  obeys extends True True (propsFromElement dom name c e rt).
Proof.
  apply obeys_propsFromElement;
    [apply extends_refl|apply extends_trans|intros; apply extends_partDataForElement
    |intros; apply extends_partIdForElement|intros; apply extends_isMatchingPossible].
Qed.



End References.

